(** * Descriptor-table and paging core of the kernel (src/src/paging.rs,
    src/src/interrupts.rs, src/src/gdt.rs), with its drivers and shell
    (src/src/main.rs, keyboard.rs, time.rs, serial.rs, vga_buffer.rs,
    parser.rs, simple_string.rs, history.rs, shell.rs), shallow embedding.

    Build profile: the kernel is built with the default (dev) profile, so
    [debug_assert!] is active and 64-bit arithmetic overflow panics.  A
    panic is modelled as [None] of an [option]. *)

From Stdlib Require Import ZArith List Lia Bool Arith.
Import ListNotations.
Open Scope Z_scope.

(** ** Machine integers *)

Definition U64_MAX : Z := 2 ^ 64 - 1.

(** [a + b] on [u64] with overflow checks: panics on overflow. *)
Definition add64 (a b : Z) : option Z :=
  if a + b <=? U64_MAX then Some (a + b) else None.

(** [!x] on [u64]. *)
Definition not64 (x : Z) : Z := Z.lxor x U64_MAX.

Definition is_u64 (x : Z) : Prop := 0 <= x <= U64_MAX.

(** ** paging.rs: page-table entries *)

Definition ENTRIES_PER_TABLE : Z := 512.

Module flags.
Definition PRESENT : Z := Z.shiftl 1 0.
Definition WRITABLE : Z := Z.shiftl 1 1.
Definition USER : Z := Z.shiftl 1 2.
Definition HUGE_PAGE : Z := Z.shiftl 1 7.
Definition NO_EXECUTE : Z := Z.shiftl 1 63.
End flags.

Definition ADDRESS_MASK : Z := 0x000FFFFFFFFFF000.

(** [PageTableEntry::set]; the [debug_assert_eq!(frame & 0xFFF, 0)] panics. *)
Definition pte_set (frame fl : Z) : option Z :=
  if Z.land frame 0xFFF =? 0
  then Some (Z.lor (Z.land frame ADDRESS_MASK) (Z.land fl (not64 ADDRESS_MASK)))
  else None.

(** [PageTableEntry::is_unused]. *)
Definition is_unused (e : Z) : bool := Z.land e flags.PRESENT =? 0.

(** [PageTableEntry::addr]. *)
Definition addr (e : Z) : Z := Z.land e ADDRESS_MASK.

(** The flag part of an entry: the bits [addr] drops. *)
Definition entry_flags (e : Z) : Z := Z.land e (not64 ADDRESS_MASK).

(** A combination of the five flags of [mod flags]. *)
Definition flag_combo (p w u h nx : bool) : Z :=
  Z.lor (if p then flags.PRESENT else 0)
 (Z.lor (if w then flags.WRITABLE else 0)
 (Z.lor (if u then flags.USER else 0)
 (Z.lor (if h then flags.HUGE_PAGE else 0)
        (if nx then flags.NO_EXECUTE else 0)))).

(** ** interrupts.rs: IDT gate descriptors *)

Record IdtEntry := {
  offset_low : Z;   (* u16 *)
  selector : Z;     (* u16 *)
  options : Z;      (* u16 *)
  offset_mid : Z;   (* u16 *)
  offset_high : Z;  (* u32 *)
  reserved : Z      (* u32 *)
}.

Definition IdtEntry_missing : IdtEntry :=
  {| offset_low := 0; selector := 0; options := 0; offset_mid := 0;
     offset_high := 0; reserved := 0 |}.

(** [set_handler]: the [as u16] / [as u32] casts truncate. *)
Definition set_handler (e : IdtEntry) (handler : Z) : IdtEntry :=
  {| offset_low := Z.land handler 0xFFFF;
     selector := selector e; options := options e;
     offset_mid := Z.land (Z.shiftr handler 16) 0xFFFF;
     offset_high := Z.land (Z.shiftr handler 32) 0xFFFFFFFF;
     reserved := reserved e |}.

(** [IdtEntry::new]; [cs] is the value [CS::get_reg()] returns. *)
Definition IdtEntry_new (cs handler : Z) : IdtEntry :=
  let e := set_handler IdtEntry_missing handler in
  {| offset_low := offset_low e; selector := cs; options := 0x8E00;
     offset_mid := offset_mid e; offset_high := offset_high e;
     reserved := reserved e |}.

(** [IdtEntry::new_with_ist]; [!0x0007] is taken on [u16]. *)
Definition new_with_ist (cs handler ist : Z) : IdtEntry :=
  let e := IdtEntry_new cs handler in
  let ist' := Z.land ist 0x0007 in
  {| offset_low := offset_low e; selector := selector e;
     options := Z.lor (Z.land (options e) (Z.lxor 0x0007 0xFFFF)) ist';
     offset_mid := offset_mid e; offset_high := offset_high e;
     reserved := reserved e |}.

(** Reading a gate back, field by field as the CPU does. *)
Definition gate_handler (e : IdtEntry) : Z :=
  Z.lor (offset_low e)
        (Z.lor (Z.shiftl (offset_mid e) 16) (Z.shiftl (offset_high e) 32)).

Definition gate_ist (e : IdtEntry) : Z := Z.land (options e) 0x0007.

(** ** paging.rs: frame allocation *)

Definition FRAME_SIZE : Z := 4096.

(** [align_up]: [(addr + FRAME_SIZE - 1) & !(FRAME_SIZE - 1)]; the first
    addition is checked. *)
Definition align_up (a : Z) : option Z :=
  match add64 a FRAME_SIZE with
  | Some s => Some (Z.land (s - 1) (not64 (FRAME_SIZE - 1)))
  | None => None
  end.

Record BumpFrameAllocator := { next : Z; end_ : Z }.

(** [BumpFrameAllocator::new]. *)
Definition BumpFrameAllocator_new (start end0 : Z) : option BumpFrameAllocator :=
  match align_up start with
  | Some n => Some {| next := n; end_ := end0 |}
  | None => None
  end.

(** [BumpFrameAllocator::allocate_frame]: the returned [Option<u64>]
    together with the updated allocator; outer [None] is a panic. *)
Definition bump_allocate_frame (b : BumpFrameAllocator)
  : option (option Z * BumpFrameAllocator) :=
  if end_ b <=? next b then Some (None, b)
  else
    let frame := next b in
    match add64 (next b) FRAME_SIZE with
    | None => None
    | Some n1 =>
        match align_up n1 with
        | None => None
        | Some n2 => Some (Some frame, {| next := n2; end_ := end_ b |})
        end
    end.

(** [n] successive calls of [allocate_frame]: the list of their results. *)
Fixpoint bump_allocate_n (b : BumpFrameAllocator) (n : nat)
  : option (list (option Z)) :=
  match n with
  | O => Some []
  | S n' =>
      match bump_allocate_frame b with
      | None => None
      | Some (r, b') =>
          match bump_allocate_n b' n' with
          | None => None
          | Some rs => Some (r :: rs)
          end
      end
  end.

(** ** paging.rs: the mapper *)

Definition pml4_index (a : Z) : Z := Z.land (Z.shiftr a 39) 0x1FF.
Definition pdpt_index (a : Z) : Z := Z.land (Z.shiftr a 30) 0x1FF.
Definition pd_index (a : Z) : Z := Z.land (Z.shiftr a 21) 0x1FF.
Definition pt_index (a : Z) : Z := Z.land (Z.shiftr a 12) 0x1FF.

(** Physical memory seen as page tables: [m t i] is entry [i] of the table
    in the 4 KiB frame at physical address [t]. *)
Definition Mem := Z -> Z -> Z.

(** [PageTable::zero] on the table at [f]. *)
Definition mem_zero_table (m : Mem) (f : Z) : Mem :=
  fun t i => if (t =? f) && (0 <=? i) && (i <? ENTRIES_PER_TABLE) then 0 else m t i.

(** A store to entry [i] of the table at [t]. *)
Definition mem_set_entry (m : Mem) (t i v : Z) : Mem :=
  fun t' i' => if (t' =? t) && (i' =? i) then v else m t' i'.

Record Mapper := { pml4_phys : Z; phys_offset : Z }.

(** The mapper's state: memory, the frame allocator (any implementation of
    the [FrameAllocator] trait, as a state [A] and its [allocate_frame]) and
    a ghost count of [allocate_frame] calls. *)
Record MState (A : Type) := { mem : Mem; frames : A; alloc_calls : nat }.
Arguments mem {A}. Arguments frames {A}. Arguments alloc_calls {A}.

Section Mapping.
Context {A : Type} (allocate_frame : A -> option Z * A).
Variable mp : Mapper.

Definition with_mem (s : MState A) (m : Mem) : MState A :=
  {| mem := m; frames := frames s; alloc_calls := alloc_calls s |}.

Definition allocate (s : MState A) : option Z * MState A :=
  let (r, a') := allocate_frame (frames s) in
  (r, {| mem := mem s; frames := a'; alloc_calls := S (alloc_calls s) |}).

(** [Mapper::table_mut]: the table at physical [phys] is reached at virtual
    [phys + phys_offset] (a checked addition); memory is indexed by the
    physical address. *)
Definition table_mut (phys : Z) : option Z :=
  if phys + phys_offset mp <=? U64_MAX then Some phys else None.

(** [Mapper::ensure_next_table]; [entry_mut] asserts [index < 512] and
    [.expect] panics on [None]. *)
Definition ensure_next_table (s : MState A) (table_phys index : Z)
  : option (Z * MState A) :=
  match table_mut table_phys with
  | None => None
  | Some t =>
      if negb (index <? ENTRIES_PER_TABLE) then None else
      let e := mem s t index in
      if is_unused e then
        match allocate s with
        | (None, _) => None
        | (Some frame, s1) =>
            match table_mut frame with
            | None => None
            | Some nt =>
                let m1 := mem_zero_table (mem s1) nt in
                match pte_set frame (Z.lor flags.PRESENT flags.WRITABLE) with
                | None => None
                | Some v => Some (frame, with_mem s1 (mem_set_entry m1 t index v))
                end
            end
        end
      else Some (addr e, s)
  end.

(** The [for &index in &[...]] loop of [map_page]. *)
Fixpoint walk (s : MState A) (table : Z) (idxs : list Z) : option (Z * MState A) :=
  match idxs with
  | [] => Some (table, s)
  | index :: rest =>
      match ensure_next_table s table index with
      | None => None
      | Some (table', s') => walk s' table' rest
      end
  end.

(** [Mapper::map_page]. *)
Definition map_page (s : MState A) (virt phys fl : Z) : option (MState A) :=
  match walk s (pml4_phys mp) [pml4_index virt; pdpt_index virt; pd_index virt] with
  | None => None
  | Some (table, s1) =>
      match table_mut table with
      | None => None
      | Some last =>
          let i := pt_index virt in
          if negb (i <? ENTRIES_PER_TABLE) then None else
          if is_unused (mem s1 last i) then
            match pte_set phys fl with
            | None => None
            | Some v => Some (with_mem s1 (mem_set_entry (mem s1) last i v))
            end
          else Some s1
      end
  end.

(** The [while addr < end] loop of [identity_map_range]; [fuel] bounds the
    number of iterations. *)
Fixpoint map_loop (fuel : nat) (s : MState A) (a end0 fl : Z) : option (MState A) :=
  match fuel with
  | O => Some s
  | S fuel' =>
      if a <? end0 then
        match map_page s a a fl with
        | None => None
        | Some s' =>
            match add64 a FRAME_SIZE with
            | None => None
            | Some a' => map_loop fuel' s' a' end0 fl
            end
        end
      else Some s
  end.

(** [Mapper::identity_map_range]. *)
Definition identity_map_range (s : MState A) (start end0 fl : Z) : option (MState A) :=
  let a := Z.land start (not64 0xFFF) in
  match align_up end0 with
  | None => None
  | Some e => map_loop (S (Z.to_nat ((e - a) / FRAME_SIZE))) s a e fl
  end.

(** Mapping a list of pages one after the other. *)
Fixpoint map_pages (s : MState A) (ps : list Z) (fl : Z) : option (MState A) :=
  match ps with
  | [] => Some s
  | p :: ps' =>
      match map_page s p p fl with
      | None => None
      | Some s' => map_pages s' ps' fl
      end
  end.

End Mapping.

(** The pages [a, a + 4096, ...] below [e]. *)
Definition page_list (a e : Z) : list Z :=
  map (fun k => a + FRAME_SIZE * Z.of_nat k) (seq 0 (Z.to_nat ((e - a) / FRAME_SIZE))).

(** Rounding to page boundaries, on unbounded integers. *)
Definition round_down (x : Z) : Z := x / FRAME_SIZE * FRAME_SIZE.
Definition round_up (x : Z) : Z := (x + FRAME_SIZE - 1) / FRAME_SIZE * FRAME_SIZE.

(** A frame allocator handing out a fixed list of frames. *)
Definition list_allocate_frame (l : list Z) : option Z * list Z :=
  match l with
  | [] => (None, [])
  | f :: r => (Some f, r)
  end.

(** ** The hierarchy reachable from the root *)

(** The table reached from [t] by following the present entries at the
    indices [pre]. *)
Fixpoint table_at (m : Mem) (t : Z) (pre : list Z) : option Z :=
  match pre with
  | [] => Some t
  | i :: rest => if is_unused (m t i) then None else table_at m (addr (m t i)) rest
  end.

Definition valid_prefix (pre : list Z) : Prop :=
  (length pre <= 3)%nat /\ Forall (fun i => 0 <= i < ENTRIES_PER_TABLE) pre.

(** The spec's data model: the hierarchy is a tree, no table is reached
    under two index paths. *)
Definition is_tree (m : Mem) (root : Z) : Prop :=
  forall p q t, valid_prefix p -> valid_prefix q ->
    table_at m root p = Some t -> table_at m root q = Some t -> p = q.

Definition in_use (m : Mem) (root t : Z) : Prop :=
  exists p, valid_prefix p /\ table_at m root p = Some t.

Section Frames.
Context {A : Type} (allocate_frame : A -> option Z * A).

Fixpoint alloc_after (a : A) (k : nat) : A :=
  match k with
  | O => a
  | S k' => snd (allocate_frame (alloc_after a k'))
  end.

(** The frame returned by the [k]-th call (from 0) starting at [a]. *)
Definition nth_frame (a : A) (k : nat) : option Z := fst (allocate_frame (alloc_after a k)).

(** The allocator hands out distinct frames of the 52-bit physical space
    that are not tables of the hierarchy. *)
Definition fresh_frames (a : A) (m : Mem) (root : Z) : Prop :=
  forall k f, nth_frame a k = Some f ->
    0 <= f < 2 ^ 52 /\ ~ in_use m root f /\
    (forall k', (k' < k)%nat -> nth_frame a k' <> Some f).
End Frames.

(** ** interrupts.rs: the PIC *)

(** Port writes [(port, value)] issued by [outb]. *)
Definition io_wait : list (Z * Z) := [(0x80, 0)].

(** [remap_pic]. *)
Definition remap_pic : list (Z * Z) :=
  [(0x20, 0x11)] ++ io_wait ++ [(0xA0, 0x11)] ++ io_wait ++
  [(0x21, 0x20)] ++ io_wait ++ [(0xA1, 0x28)] ++ io_wait ++
  [(0x21, 4)] ++ io_wait ++ [(0xA1, 2)] ++ io_wait ++
  [(0x21, 0x01)] ++ io_wait ++ [(0xA1, 0x01)] ++ io_wait ++
  [(0x21, 0x00); (0xA1, 0x00)].

(** [send_eoi]. *)
Definition send_eoi (irq : Z) : list (Z * Z) :=
  (if 0x28 <=? irq then [(0xA0, 0x20)] else []) ++ [(0x20, 0x20)].

(** An 8259A as its data sheet describes the programming interface: a
    command-port write with bit 4 set is ICW1 (it clears the mask register
    and starts the ICW2..ICW4 sequence on the data port); once initialised,
    a data-port write is OCW1, the interrupt mask register. *)
Record Pic := { icw_next : nat; icw4 : bool; single : bool; imr : Z; vector_base : Z }.

Definition pic_command (c : Pic) (v : Z) : Pic :=
  if Z.testbit v 4
  then {| icw_next := 2; icw4 := Z.testbit v 0; single := Z.testbit v 1;
          imr := 0; vector_base := vector_base c |}
  else c.

Definition pic_data (c : Pic) (v : Z) : Pic :=
  let after_icw3 := if icw4 c then 4%nat else 0%nat in
  match icw_next c with
  | 2%nat => {| icw_next := if single c then after_icw3 else 3%nat; icw4 := icw4 c;
                single := single c; imr := imr c; vector_base := Z.land v 0xF8 |}
  | 3%nat => {| icw_next := after_icw3; icw4 := icw4 c; single := single c;
                imr := imr c; vector_base := vector_base c |}
  | 4%nat => {| icw_next := 0; icw4 := icw4 c; single := single c;
                imr := imr c; vector_base := vector_base c |}
  | _ => {| icw_next := icw_next c; icw4 := icw4 c; single := single c;
            imr := v; vector_base := vector_base c |}
  end.

(** Master on ports 0x20/0x21, slave on 0xA0/0xA1. *)
Definition pics_out (ms : Pic * Pic) (w : Z * Z) : Pic * Pic :=
  let (m, s) := ms in
  let (port, v) := w in
  if port =? 0x20 then (pic_command m v, s)
  else if port =? 0x21 then (pic_data m v, s)
  else if port =? 0xA0 then (m, pic_command s v)
  else if port =? 0xA1 then (m, pic_data s v)
  else (m, s).

Definition pics_run (ms : Pic * Pic) (ws : list (Z * Z)) : Pic * Pic :=
  fold_left pics_out ws ms.

(** Whether IRQ line [n] (0..15) is masked. *)
Definition irq_masked (ms : Pic * Pic) (n : Z) : bool :=
  if n <? 8 then Z.testbit (imr (fst ms)) n else Z.testbit (imr (snd ms)) (n - 8).

(** ** gdt.rs: the TSS and its interrupt stack table *)

Record TaskStateSegment := {
  privilege_stack_table : list Z;   (* [VirtAddr; 3] *)
  interrupt_stack_table : list Z    (* [VirtAddr; 7] *)
}.

(** [TaskStateSegment::new()]: all stack pointers zero. *)
Definition TaskStateSegment_new : TaskStateSegment :=
  {| privilege_stack_table := repeat 0 3; interrupt_stack_table := repeat 0 7 |}.

Definition DOUBLE_FAULT_IST_INDEX : nat := 0.
Definition DOUBLE_FAULT_IST_INDEX_FOR_IDT : Z := Z.of_nat DOUBLE_FAULT_IST_INDEX + 1.
Definition DF_STACK_SIZE : Z := 4096 * 5.

(** [VirtAddr::new] of the x86_64 crate panics on a non-canonical address. *)
Definition VirtAddr_new (x : Z) : option Z :=
  if ((0 <=? x) && (x <? 2 ^ 47)) || ((2 ^ 64 - 2 ^ 47 <=? x) && (x <=? U64_MAX))
  then Some x else None.

Fixpoint list_set (l : list Z) (i : nat) (v : Z) : list Z :=
  match l, i with
  | [], _ => []
  | _ :: r, O => v :: r
  | x :: r, S i' => x :: list_set r i' v
  end.

(** The TSS part of [gdt::init]; [df_stack] is the address the linker gave
    [DF_STACK] (a [u8] array: no alignment beyond 1).  The GDT itself and
    the [lgdt]/[ltr] loads are not modelled. *)
Definition gdt_init_tss (df_stack : Z) (tss : TaskStateSegment) : option TaskStateSegment :=
  match VirtAddr_new df_stack with
  | None => None
  | Some stack_start =>
      match add64 stack_start DF_STACK_SIZE with
      | None => None
      | Some e =>
          match VirtAddr_new e with
          | None => None
          | Some stack_end =>
              Some {| privilege_stack_table := privilege_stack_table tss;
                      interrupt_stack_table :=
                        list_set (interrupt_stack_table tss) DOUBLE_FAULT_IST_INDEX stack_end |}
          end
      end
  end.

(** ** Mapping a range twice *)

(** The upper-level indices of a page and the entry [map_page] installs for
    the identity mapping of page [p] with flags [fl]. *)
Definition tup (p : Z) : list Z := [pml4_index p; pdpt_index p; pd_index p].
Definition leafv (fl p : Z) : Z := Z.lor (Z.land p ADDRESS_MASK) (Z.land fl (not64 ADDRESS_MASK)).

(** The leaf update of [map_page]: an entry is written only while unused. *)
Definition step_leaf (v x : Z) : Z := if is_unused x then v else x.
Definition step_seq (vs : list Z) (x : Z) : Z := fold_left (fun x v => step_leaf v x) vs x.

(** The pages of [L] whose leaf slot is entry [j] below the indices [a], and
    the values [map_page] offers to that slot, in order. *)
Definition same_slot (a : list Z) (j q : Z) : bool :=
  if list_eq_dec Z.eq_dec (tup q) a then pt_index q =? j else false.
Definition vals (fl : Z) (L : list Z) (a : list Z) (j : Z) : list Z :=
  map (leafv fl) (filter (same_slot a j) L).

(** The path of page [p] exists and every table on it passes [table_mut]. *)
Definition complete (mp : Mapper) (m : Mem) (p : Z) : Prop :=
  (exists T, table_at m (pml4_phys mp) (tup p) = Some T) /\
  forall k t, (k <= 3)%nat -> table_at m (pml4_phys mp) (firstn k (tup p)) = Some t ->
    t + phys_offset mp <= U64_MAX.

(** Tables reached in [m] are still reached, at the same prefixes, in [m']. *)
Definition Mono (r : Z) (m m' : Mem) : Prop :=
  forall q x, valid_prefix q -> table_at m r q = Some x -> table_at m' r q = Some x.

(** The invariant of the first call after the pages [L1]: the hierarchy is a
    tree, the allocator is still fresh, the paths of [L1] exist, and each
    leaf slot holds a value the sequence of its offers can produce. *)
Definition Inv1 {A : Type} (allocate_frame : A -> option Z * A) (mp : Mapper) (fl : Z)
    (s : MState A) (L1 : list Z) : Prop :=
  is_tree (mem s) (pml4_phys mp) /\
  fresh_frames allocate_frame (frames s) (mem s) (pml4_phys mp) /\
  (forall p, In p L1 -> complete mp (mem s) p) /\
  (forall a T j, valid_prefix a -> length a = 3%nat -> table_at (mem s) (pml4_phys mp) a = Some T ->
     exists x, mem s T j = step_seq (vals fl L1 a j) x).

(** The invariant of the second call after the pages [L2], relative to the
    state [s1] the first call left: only leaf slots differ, and each holds
    the result of replaying its offers on its value in [s1]. *)
Definition Inv2 {A : Type} (mp : Mapper) (fl : Z) (s1 s : MState A) (L2 : list Z) : Prop :=
  frames s = frames s1 /\ alloc_calls s = alloc_calls s1 /\
  (forall t i, mem s t i = mem s1 t i \/
     exists a, valid_prefix a /\ length a = 3%nat /\ table_at (mem s1) (pml4_phys mp) a = Some t) /\
  (forall a T j, valid_prefix a -> length a = 3%nat -> table_at (mem s1) (pml4_phys mp) a = Some T ->
     mem s T j = step_seq (vals fl L2 a j) (mem s1 T j)).

(** A mapper with its PML4 at 0x1000 and identity physical mapping, over
    zeroed memory. *)
Definition mapper_example : Mapper := {| pml4_phys := 0x1000; phys_offset := 0 |}.

Definition state_example (l : list Z) : MState (list Z) :=
  {| mem := fun _ _ => 0; frames := l; alloc_calls := 0 |}.

(** main.rs: [align_up] of the boot allocator; [(addr + mask) & !mask] with
    a checked addition. *)
Definition main_align_up (a : Z) : option Z :=
  match add64 a (FRAME_SIZE - 1) with
  | Some s => Some (Z.land s (not64 (FRAME_SIZE - 1)))
  | None => None
  end.

(** [array[i] = v] on a Rust array: out of range it panics. *)
Fixpoint array_set {T : Type} (l : list T) (i : nat) (v : T) : option (list T) :=
  match l, i with
  | [], _ => None
  | _ :: r, O => Some (v :: r)
  | x :: r, S i' => option_map (cons x) (array_set r i' v)
  end.

(** ** keyboard.rs: the scancode ring buffer *)

Definition SCANCODE_QUEUE_CAPACITY : nat := 256.

Record ScancodeQueue := { buffer : list Z; head : nat; tail : nat; len : nat }.

Definition ScancodeQueue_new : ScancodeQueue :=
  {| buffer := repeat 0 SCANCODE_QUEUE_CAPACITY; head := 0; tail := 0; len := 0 |}.

(** [ScancodeQueue::push]: a full queue drops the scancode. *)
Definition push (q : ScancodeQueue) (scancode : Z) : option ScancodeQueue :=
  if Nat.eqb (len q) SCANCODE_QUEUE_CAPACITY then Some q else
  match array_set (buffer q) (head q) scancode with
  | None => None
  | Some b => Some {| buffer := b; head := Nat.modulo (head q + 1) SCANCODE_QUEUE_CAPACITY;
                      tail := tail q; len := len q + 1 |}
  end.

(** [ScancodeQueue::pop]; [buffer[tail]] panics out of range. *)
Definition pop (q : ScancodeQueue) : option (option Z * ScancodeQueue) :=
  if Nat.eqb (len q) 0 then Some (None, q) else
  match nth_error (buffer q) (tail q) with
  | None => None
  | Some byte => Some (Some byte, {| buffer := buffer q; head := head q;
                                    tail := Nat.modulo (tail q + 1) SCANCODE_QUEUE_CAPACITY;
                                    len := len q - 1 |})
  end.

(** The scancodes waiting in the queue, oldest first. *)
Definition contents (q : ScancodeQueue) : list Z :=
  map (fun k => nth (Nat.modulo (tail q + k) SCANCODE_QUEUE_CAPACITY) (buffer q) 0)
      (seq 0 (len q)).

Definition queue_inv (q : ScancodeQueue) : Prop :=
  length (buffer q) = SCANCODE_QUEUE_CAPACITY /\ (tail q < SCANCODE_QUEUE_CAPACITY)%nat /\
  (len q <= SCANCODE_QUEUE_CAPACITY)%nat /\
  head q = Nat.modulo (tail q + len q) SCANCODE_QUEUE_CAPACITY.

(** A sequence of [push_scancode] / [pop_scancode] calls. *)
Inductive QueueOp := QPush (scancode : Z) | QPop.

Fixpoint run_queue (q : ScancodeQueue) (ops : list QueueOp)
  : option (list (option Z) * ScancodeQueue) :=
  match ops with
  | [] => Some ([], q)
  | QPush sc :: ops' =>
      match push q sc with
      | None => None
      | Some q' => run_queue q' ops'
      end
  | QPop :: ops' =>
      match pop q with
      | None => None
      | Some (r, q') =>
          match run_queue q' ops' with
          | None => None
          | Some (rs, q'') => Some (r :: rs, q'')
          end
      end
  end.

(** Reference: a FIFO list of capacity 256 that drops what comes when full. *)
Fixpoint run_fifo (l : list Z) (ops : list QueueOp) : list (option Z) * list Z :=
  match ops with
  | [] => ([], l)
  | QPush sc :: ops' =>
      run_fifo (if Nat.eqb (length l) SCANCODE_QUEUE_CAPACITY then l else l ++ [sc]) ops'
  | QPop :: ops' =>
      match l with
      | [] => let (rs, l') := run_fifo [] ops' in (None :: rs, l')
      | x :: xs => let (rs, l') := run_fifo xs ops' in (Some x :: rs, l')
      end
  end.

(** ** time.rs *)

Record TimeState := { HZ : Z; TICKS : Z }.

(** The statics at boot: [HZ = 18], [TICKS = 0]. *)
Definition time_boot : TimeState := {| HZ := 18; TICKS := 0 |}.

(** [init_pit]: [hz] is a [u32]; [1_193_182u32 / hz] panics for [hz = 0]. *)
Definition init_pit (st : TimeState) (hz : Z) : option (list (Z * Z) * TimeState) :=
  if hz =? 0 then None else
  let clamped := Z.max 1 (Z.min 65535 (1193182 / hz)) in
  Some ([(0x43, 0x36); (0x40, Z.land (Z.land clamped 0xFF) 0xFF);
         (0x40, Z.land (Z.shiftr clamped 8) 0xFF)],
        {| HZ := hz; TICKS := TICKS st |}).

(** [tick]: [fetch_add] wraps. *)
Definition tick (st : TimeState) : TimeState :=
  {| HZ := HZ st; TICKS := (TICKS st + 1) mod 2 ^ 64 |}.

(** [uptime_ms]: [ticks * 1_000] is checked. *)
Definition uptime_ms (st : TimeState) : option Z :=
  let ticks := TICKS st in
  let hz := Z.max 1 (HZ st) in
  if ticks * 1000 <=? U64_MAX then Some (ticks * 1000 / hz) else None.

(** interrupts.rs: [timer_interrupt_handler]: EOI, then [tick]. *)
Definition timer_interrupt_handler (st : TimeState) : list (Z * Z) * TimeState :=
  (send_eoi 0x20, tick st).

(** Channel 0 of an 8254 as its data sheet describes it: a control word on
    0x43 with select bits 00 sets the access mode (bits 5:4) and the
    counting mode (bits 3:1); in lobyte/hibyte access the data port 0x40
    takes the low byte, then the high byte of the reload value. *)
Record Pit := { pit_access : Z; pit_mode : Z; pit_low : option Z; pit_reload : Z }.

Definition pit_out (p : Pit) (w : Z * Z) : Pit :=
  let (port, v) := w in
  if port =? 0x43 then
    if Z.shiftr v 6 =? 0
    then {| pit_access := Z.land (Z.shiftr v 4) 3; pit_mode := Z.land (Z.shiftr v 1) 7;
            pit_low := None; pit_reload := pit_reload p |}
    else p
  else if port =? 0x40 then
    if pit_access p =? 3 then
      match pit_low p with
      | None => {| pit_access := pit_access p; pit_mode := pit_mode p;
                   pit_low := Some v; pit_reload := pit_reload p |}
      | Some lo => {| pit_access := pit_access p; pit_mode := pit_mode p;
                      pit_low := None; pit_reload := lo + 256 * v |}
      end
    else if pit_access p =? 1 then
      {| pit_access := 1; pit_mode := pit_mode p; pit_low := None; pit_reload := v |}
    else if pit_access p =? 2 then
      {| pit_access := 2; pit_mode := pit_mode p; pit_low := None; pit_reload := 256 * v |}
    else p
  else p.

Definition pit_run (p : Pit) (ws : list (Z * Z)) : Pit := fold_left pit_out ws p.

(** ** serial.rs *)

Definition COM1 : Z := 0x3F8.

Definition RBR_THR_DLL : Z := 0.

Definition IER_DLM : Z := 1.

Definition FCR_IIR : Z := 2.

Definition LCR : Z := 3.

Definition MCR : Z := 4.

Definition LSR : Z := 5.

Definition LCR_WORDLEN_8 : Z := 3.

Definition LCR_STOP_1 : Z := Z.shiftl 0 2.

Definition LCR_PARITY_NONE : Z := Z.shiftl 0 3.

Definition LCR_DLAB : Z := Z.shiftl 1 7.

(** [init_unsafe_16550_default]: its port writes. *)
Definition init_unsafe_16550_default : list (Z * Z) :=
  [(COM1 + IER_DLM, 0x00); (COM1 + LCR, LCR_DLAB); (COM1 + RBR_THR_DLL, 0x01);
   (COM1 + IER_DLM, 0x00); (COM1 + LCR, Z.lor (Z.lor LCR_WORDLEN_8 LCR_STOP_1) LCR_PARITY_NONE);
   (COM1 + FCR_IIR, 0xC7); (COM1 + MCR, 0x0B)].

(** [write_byte_blocking]: the polling loop only reads LSR; once the
    transmitter holding register is empty the byte goes to THR. *)
Definition write_byte_blocking (byte : Z) : list (Z * Z) := [(COM1 + RBR_THR_DLL, byte)].

(** [write_str] over the bytes of the string. *)
Definition write_str (s : list Z) : list (Z * Z) :=
  flat_map (fun b => (if b =? 10 then write_byte_blocking 13 else []) ++ write_byte_blocking b) s.

(** A 16550 as its data sheet describes the write side: with DLAB (LCR
    bit 7) set, offsets 0 and 1 reach the divisor latch, otherwise THR
    (the byte is transmitted) and IER. *)
Record Uart := { dll : Z; dlm : Z; ier : Z; lcr : Z; fcr : Z; mcr : Z; tx : list Z }.

Definition uart_out (u : Uart) (w : Z * Z) : Uart :=
  let (port, v) := w in
  let dlab := Z.testbit (lcr u) 7 in
  if port =? COM1 + 0 then
    if dlab then {| dll := v; dlm := dlm u; ier := ier u; lcr := lcr u; fcr := fcr u; mcr := mcr u; tx := tx u |}
    else {| dll := dll u; dlm := dlm u; ier := ier u; lcr := lcr u; fcr := fcr u; mcr := mcr u; tx := tx u ++ [v] |}
  else if port =? COM1 + 1 then
    if dlab then {| dll := dll u; dlm := v; ier := ier u; lcr := lcr u; fcr := fcr u; mcr := mcr u; tx := tx u |}
    else {| dll := dll u; dlm := dlm u; ier := v; lcr := lcr u; fcr := fcr u; mcr := mcr u; tx := tx u |}
  else if port =? COM1 + 2 then
    {| dll := dll u; dlm := dlm u; ier := ier u; lcr := lcr u; fcr := v; mcr := mcr u; tx := tx u |}
  else if port =? COM1 + 3 then
    {| dll := dll u; dlm := dlm u; ier := ier u; lcr := v; fcr := fcr u; mcr := mcr u; tx := tx u |}
  else if port =? COM1 + 4 then
    {| dll := dll u; dlm := dlm u; ier := ier u; lcr := lcr u; fcr := fcr u; mcr := v; tx := tx u |}
  else u.

Definition uart_run (u : Uart) (ws : list (Z * Z)) : Uart := fold_left uart_out ws u.

(** What a terminal receives for the bytes [s]: LF as CR LF. *)
Definition crlf (s : list Z) : list Z := flat_map (fun b => if b =? 10 then [13; 10] else [b]) s.

(** ** vga_buffer.rs: the text-mode writer *)


















(** The public entry points [write_byte], [backspace] and [clear_screen]. *)
Inductive VgaOp := VWriteByte (byte cc : Z) | VBackspace (cc : Z) | VClearScreen.









(** [Mapper::new]: zeroes the PML4 through [pml4_phys + phys_offset] (a
    checked addition). *)
Definition Mapper_new (m : Mem) (pml4 off : Z) : option (Mem * Mapper) :=
  match add64 pml4 off with
  | None => None
  | Some _ => Some (mem_zero_table m pml4, {| pml4_phys := pml4; phys_offset := off |})
  end.

(** Leaf tables (depth 3) of [m] keep their entries in [m']; a leaf table
    of [m'] not reached in [m] at the same indices is zero. *)
Definition LeafP (r : Z) (m m' : Mem) : Prop :=
  (forall a T j, valid_prefix a -> length a = 3%nat -> table_at m r a = Some T -> m' T j = m T j) /\
  (forall a T j, valid_prefix a -> length a = 3%nat -> table_at m' r a = Some T ->
     0 <= j < ENTRIES_PER_TABLE -> table_at m r a = Some T \/ m' T j = 0).

(** The allocator hands out distinct frames below 2^52 other than [r]. *)
Definition distinct_frames {A : Type} (allocate_frame : A -> option Z * A) (a : A) (r : Z) : Prop :=
  forall k f, nth_frame allocate_frame a k = Some f ->
    0 <= f < 2 ^ 52 /\ f <> r /\ (forall k', (k' < k)%nat -> nth_frame allocate_frame a k' <> Some f).

(** ** interrupts.rs: [init] *)

Definition IDT_LEN : nat := 256.

Module InterruptIndex.
Definition Breakpoint : nat := 3.
Definition Timer : nat := 0x20.
Definition Keyboard : nat := 0x21.
End InterruptIndex.

(** The addresses of the handler functions [init] installs. *)
Record Handlers := {
  h_breakpoint : Z; h_timer : Z; h_keyboard : Z;
  h_page_fault : Z; h_gpf : Z; h_double_fault : Z
}.

(** [load_idt]: the limit of the IDTR; [size_of::<IdtEntry>()] is 16
    ([repr(C, packed)]), the subtraction is checked and [as u16] truncates. *)
Definition load_idt (len : nat) : option Z :=
  let size := Z.of_nat len * 16 in
  if size - 1 <? 0 then None else Some (Z.land (size - 1) 0xFFFF).

(** [interrupts::init] on the static [IDT] (all entries [missing]): the
    table, the port writes, and the IDTR limit it loads; [cs] is the code
    segment selector [IdtEntry::new] reads. *)
Definition interrupts_init (cs : Z) (h : Handlers) : option (list IdtEntry * list (Z * Z) * Z) :=
  let idt0 := repeat IdtEntry_missing IDT_LEN in
  match array_set idt0 InterruptIndex.Breakpoint (IdtEntry_new cs (h_breakpoint h)) with
  | None => None | Some idt1 =>
  match array_set idt1 InterruptIndex.Timer (IdtEntry_new cs (h_timer h)) with
  | None => None | Some idt2 =>
  match array_set idt2 InterruptIndex.Keyboard (IdtEntry_new cs (h_keyboard h)) with
  | None => None | Some idt3 =>
  match array_set idt3 14 (IdtEntry_new cs (h_page_fault h)) with
  | None => None | Some idt4 =>
  match array_set idt4 13 (IdtEntry_new cs (h_gpf h)) with
  | None => None | Some idt5 =>
  match array_set idt5 8 (new_with_ist cs (h_double_fault h)
                            (Z.land DOUBLE_FAULT_IST_INDEX_FOR_IDT 0xFF)) with
  | None => None | Some idt6 =>
  match load_idt IDT_LEN with
  | None => None
  | Some limit => Some (idt6, remap_pic, limit)
  end end end end end end end.

(** The handler [init] installs at vector [v], if any. *)
Definition handler_at (h : Handlers) (v : nat) : option Z :=
  if Nat.eqb v InterruptIndex.Breakpoint then Some (h_breakpoint h)
  else if Nat.eqb v InterruptIndex.Timer then Some (h_timer h)
  else if Nat.eqb v InterruptIndex.Keyboard then Some (h_keyboard h)
  else if Nat.eqb v 14 then Some (h_page_fault h)
  else if Nat.eqb v 13 then Some (h_gpf h)
  else if Nat.eqb v 8 then Some (h_double_fault h)
  else None.

(** ** parser.rs *)

Inductive ParseError := InvalidDigit | EmptyInput | InvalidSign | BufferTooSmall.

Inductive Result (A E : Type) := Ok (a : A) | Err (e : E).

Arguments Ok {A E} a.

Arguments Err {A E} e.

Definition I64_MIN : Z := - 2 ^ 63.

Definition I64_MAX : Z := 2 ^ 63 - 1.

Definition in_i64 (x : Z) : bool := (I64_MIN <=? x) && (x <=? I64_MAX).

Definition checked_mul (a b : Z) : option Z := if in_i64 (a * b) then Some (a * b) else None.

Definition checked_add (a b : Z) : option Z := if in_i64 (a + b) then Some (a + b) else None.

(** The digit loop of [parse_int_from_str]. *)
Fixpoint parse_digits (value : Z) (digits : list Z) : Result Z ParseError :=
  match digits with
  | [] => Ok value
  | byte :: rest =>
      if (byte <? 48) || (57 <? byte) then Err InvalidDigit
      else match match checked_mul value 10 with
                 | Some v => checked_add v (byte - 48)
                 | None => None
                 end with
           | Some v => parse_digits v rest
           | None => Err InvalidDigit
           end
  end.

(** [parse_int_from_str] on the bytes of its argument; [None] is a panic
    (the final [value * sign] is an [i64] multiplication). *)
Definition parse_int_from_str (bytes : list Z) : option (Result Z ParseError) :=
  match bytes with
  | [] => Some (Err EmptyInput)
  | b0 :: rest =>
      let '(sign, digits) :=
        if b0 =? 43 then (1, rest) else if b0 =? 45 then (-1, rest) else (1, bytes) in
      match digits with
      | [] => Some (Err InvalidDigit)
      | _ =>
          match parse_digits 0 digits with
          | Err e => Some (Err e)
          | Ok value => if in_i64 (value * sign) then Some (Ok (value * sign)) else None
          end
      end
  end.

Definition wrap_i64 (x : Z) : Z := (x + 2 ^ 63) mod 2 ^ 64 - 2 ^ 63.

(** The [while n > 0] loop of [int_to_str_buf]: [Ok (i, buf)] when it
    ends; [fuel] bounds the iterations (a [u64] has at most 20 digits). *)
Fixpoint write_digits (fuel : nat) (n : Z) (i : nat) (buf : list Z)
  : option (Result (nat * list Z) ParseError) :=
  match fuel with
  | O => None
  | S fuel' =>
      if n <=? 0 then Some (Ok (i, buf))
      else if (length buf <=? i)%nat then Some (Err BufferTooSmall)
      else match array_set buf i (48 + n mod 10) with
           | Some buf' => write_digits fuel' (n / 10) (S i) buf'
           | None => None
           end
  end.

(** [int_to_str_buf]: the bytes of the returned [&str]. *)
Definition int_to_str_buf (value : Z) (buf : list Z) : option (Result (list Z) ParseError) :=
  if value =? 0 then
    match buf with
    | [] => Some (Err BufferTooSmall)
    | _ :: _ => Some (Ok [48])
    end
  else
    let negative := value <? 0 in
    let n := (if negative then wrap_i64 (- value) else value) mod 2 ^ 64 in
    match write_digits 21 n 0 buf with
    | None => None
    | Some (Err e) => Some (Err e)
    | Some (Ok (i, buf1)) =>
        if negative then
          if (length buf1 <=? i)%nat then Some (Err BufferTooSmall)
          else match array_set buf1 i 45 with
               | Some buf2 => Some (Ok (rev (firstn (S i) buf2)))
               | None => None
               end
        else Some (Ok (rev (firstn i buf1)))
    end.

(** ** simple_string.rs: [FixedString<N>] *)

Inductive FixedStringError := NoCapacity.

Record FixedString := { fs_buf : list Z; fs_len : nat }.

Definition FixedString_new (N : nat) : FixedString := {| fs_buf := repeat 0 N; fs_len := 0 |}.

Definition fs_clear (fs : FixedString) : FixedString := {| fs_buf := fs_buf fs; fs_len := 0 |}.

(** [push_byte]; [None] is a panic of the indexing. *)
Definition push_byte (N : nat) (fs : FixedString) (byte : Z)
  : option (Result unit FixedStringError * FixedString) :=
  if (N <=? fs_len fs)%nat then Some (Err NoCapacity, fs)
  else match array_set (fs_buf fs) (fs_len fs) byte with
       | Some buf' => Some (Ok tt, {| fs_buf := buf'; fs_len := S (fs_len fs) |})
       | None => None
       end.

(** [push_str]: the [?] returns at the first error, keeping the bytes
    already pushed. *)
Fixpoint push_str (N : nat) (fs : FixedString) (s : list Z)
  : option (Result unit FixedStringError * FixedString) :=
  match s with
  | [] => Some (Ok tt, fs)
  | byte :: rest =>
      match push_byte N fs byte with
      | Some (Ok _, fs') => push_str N fs' rest
      | Some (Err e, fs') => Some (Err e, fs')
      | None => None
      end
  end.

Definition as_str (fs : FixedString) : list Z := firstn (fs_len fs) (fs_buf fs).

Definition fs_inv (N : nat) (fs : FixedString) : Prop :=
  length (fs_buf fs) = N /\ (fs_len fs <= N)%nat.

(** ** history.rs: [InputHistory] *)

Definition MAX_ENTRIES : nat := 32.

Definition ENTRY_CAPACITY : nat := 128.

Record InputHistory := {
  entries : list FixedString; hlen : nat; hhead : nat; cursor : nat
}.

Definition InputHistory_new : InputHistory :=
  {| entries := repeat (FixedString_new ENTRY_CAPACITY) MAX_ENTRIES;
     hlen := 0; hhead := 0; cursor := 0 |}.

Definition set_cursor (h : InputHistory) (c : nat) : InputHistory :=
  {| entries := entries h; hlen := hlen h; hhead := hhead h; cursor := c |}.

Definition reset_navigation (h : InputHistory) : InputHistory := set_cursor h (hlen h).

Definition entry_index (h : InputHistory) (logical : nat) : option nat :=
  if (hlen h <=? logical)%nat || (hlen h =? 0)%nat then None
  else Some ((hhead h + logical) mod MAX_ENTRIES)%nat.

(** The reads [self.entries[idx].as_str()]; [None] is a panic of the
    indexing. *)
Definition entry_str (h : InputHistory) (idx : option nat) : option (option (list Z)) :=
  match idx with
  | None => Some None
  | Some i => match nth_error (entries h) i with
              | Some e => Some (Some (as_str e))
              | None => None
              end
  end.

Definition latest (h : InputHistory) : option (option (list Z)) :=
  if (hlen h =? 0)%nat then Some None
  else match entry_index h (hlen h - 1) with
       | None => Some None
       | Some idx => entry_str h (Some idx)
       end.

Definition list_Z_eqb (a b : list Z) : bool :=
  if list_eq_dec Z.eq_dec a b then true else false.

Definition history_push (h : InputHistory) (line : list Z) : option InputHistory :=
  if (length line =? 0)%nat then Some (reset_navigation h)
  else
    match (if (0 <? hlen h)%nat then latest h else Some None) with
    | None => None
    | Some last =>
        if match last with Some l => list_Z_eqb l line | None => false end
        then Some (reset_navigation h)
        else
          let '(target, len', hhead') :=
            if (hlen h <? MAX_ENTRIES)%nat
            then (((hhead h + hlen h) mod MAX_ENTRIES)%nat, S (hlen h), hhead h)
            else (hhead h, hlen h, ((hhead h + 1) mod MAX_ENTRIES)%nat) in
          match nth_error (entries h) target with
          | None => None
          | Some e =>
              match push_str ENTRY_CAPACITY (fs_clear e) line with
              | None => None
              | Some (_, e') =>
                  match array_set (entries h) target e' with
                  | None => None
                  | Some entries' =>
                      Some {| entries := entries'; hlen := len'; hhead := hhead'; cursor := len' |}
                  end
              end
          end
    end.

Definition history_previous (h : InputHistory) : option (option (list Z) * InputHistory) :=
  if (hlen h =? 0)%nat then Some (None, h)
  else
    let c := if (cursor h =? 0)%nat then cursor h
             else if (hlen h <? cursor h)%nat then (hlen h - 1)%nat
             else (cursor h - 1)%nat in
    let h' := set_cursor h c in
    match entry_str h' (entry_index h' c) with
    | Some r => Some (r, h')
    | None => None
    end.

Definition history_next (h : InputHistory) : option (option (list Z) * InputHistory) :=
  if (hlen h <=? cursor h)%nat then Some (None, set_cursor h (hlen h))
  else
    let c := S (cursor h) in
    if (hlen h <=? c)%nat then Some (None, set_cursor h (hlen h))
    else
      let h' := set_cursor h c in
      match entry_str h' (entry_index h' c) with
      | Some r => Some (r, h')
      | None => None
      end.

Inductive HistoryOp := HPush (line : list Z) | HPrevious | HNext | HReset.

Definition history_step (h : InputHistory) (op : HistoryOp) : option (option (list Z) * InputHistory) :=
  match op with
  | HPush line => match history_push h line with Some h' => Some (None, h') | None => None end
  | HPrevious => history_previous h
  | HNext => history_next h
  | HReset => Some (None, reset_navigation h)
  end.

Fixpoint run_history (h : InputHistory) (ops : list HistoryOp)
  : option (list (option (list Z)) * InputHistory) :=
  match ops with
  | [] => Some ([], h)
  | op :: rest =>
      match history_step h op with
      | None => None
      | Some (r, h') =>
          match run_history h' rest with
          | Some (rs, h'') => Some (r :: rs, h'')
          | None => None
          end
      end
  end.

(** The stored lines, oldest first. *)
Definition history_lines (h : InputHistory) : list (list Z) :=
  map (fun k => as_str (nth ((hhead h + k) mod MAX_ENTRIES) (entries h) (FixedString_new ENTRY_CAPACITY)))
      (seq 0 (hlen h)).

(** A reference model: the last 32 distinct-from-previous non-empty lines,
    each cut to 128 bytes, and a cursor into them. *)
Definition ref_push (l : list (list Z)) (line : list Z) : list (list Z) :=
  if (length line =? 0)%nat then l
  else if match rev l with x :: _ => list_Z_eqb x line | [] => false end then l
  else (if (length l <? MAX_ENTRIES)%nat then l else tl l) ++ [firstn ENTRY_CAPACITY line].

Definition ref_step (st : list (list Z) * nat) (op : HistoryOp) : option (list Z) * (list (list Z) * nat) :=
  let '(l, c) := st in
  match op with
  | HPush line => let l' := ref_push l line in (None, (l', length l'))
  | HPrevious => if (length l =? 0)%nat then (None, (l, c)) else (nth_error l (c - 1), (l, (c - 1)%nat))
  | HNext => if (length l <=? S c)%nat then (None, (l, length l)) else (nth_error l (S c), (l, S c))
  | HReset => (None, (l, length l))
  end.

Fixpoint run_ref (st : list (list Z) * nat) (ops : list HistoryOp) : list (option (list Z)) * (list (list Z) * nat) :=
  match ops with
  | [] => ([], st)
  | op :: rest => let '(r, st') := ref_step st op in let '(rs, st'') := run_ref st' rest in (r :: rs, st'')
  end.

Definition hist_inv (h : InputHistory) : Prop :=
  length (entries h) = MAX_ENTRIES /\
  (forall i, (i < MAX_ENTRIES)%nat -> fs_inv ENTRY_CAPACITY (nth i (entries h) (FixedString_new ENTRY_CAPACITY))) /\
  (hhead h < MAX_ENTRIES)%nat /\ (hlen h <= MAX_ENTRIES)%nat /\ (cursor h <= hlen h)%nat.

(** ** shell.rs: line editing and history navigation *)

(** [core::str::from_utf8]: whether the bytes are well-formed UTF-8. *)
Definition is_cont (b : Z) : bool := (0x80 <=? b) && (b <=? 0xBF).

Definition in_range (lo hi b : Z) : bool := (lo <=? b) && (b <=? hi).

Fixpoint utf8_valid (l : list Z) : bool :=
  match l with
  | [] => true
  | b :: r =>
      if b <? 0x80 then utf8_valid r
      else if in_range 0xC2 0xDF b then
        match r with c :: r' => is_cont c && utf8_valid r' | [] => false end
      else if in_range 0xE0 0xEF b then
        match r with
        | c1 :: c2 :: r' =>
            (if b =? 0xE0 then in_range 0xA0 0xBF c1
             else if b =? 0xED then in_range 0x80 0x9F c1
             else is_cont c1) && is_cont c2 && utf8_valid r'
        | _ => false
        end
      else if in_range 0xF0 0xF4 b then
        match r with
        | c1 :: c2 :: c3 :: r' =>
            (if b =? 0xF0 then in_range 0x90 0xBF c1
             else if b =? 0xF4 then in_range 0x80 0x8F c1
             else is_cont c1) && is_cont c2 && is_cont c3 && utf8_valid r'
        | _ => false
        end
      else false
  end.

Definition INPUT_BUFFER_LEN : nat := 128.

(** [get_color_code(Color::White, Color::Black)]. *)
Definition get_color_code (foreground background : Z) : Z :=
  Z.lor (Z.land (Z.shiftl background 4) 0xFF) foreground.

Definition Color_White : Z := 15.

Definition Color_Black : Z := 0.

Record Shell := {
  sbuffer : list Z; slen : nat; extended_prefix : bool;
  history : InputHistory; saved_line : FixedString; saved_line_active : bool
}.

(** The shell's effect on the screen: the [vga_buffer::write_byte] and
    [vga_buffer::backspace] calls it makes, in order. *)
Definition echo_byte (byte : Z) : list VgaOp :=
  [VWriteByte byte (get_color_code Color_White Color_Black)].

Definition erase_last_char : list VgaOp := [VBackspace (get_color_code Color_White Color_Black)].

Definition with_len (sh : Shell) (n : nat) : Shell :=
  {| sbuffer := sbuffer sh; slen := n; extended_prefix := extended_prefix sh;
     history := history sh; saved_line := saved_line sh; saved_line_active := saved_line_active sh |}.

Fixpoint clear_displayed_loop (fuel : nat) (sh : Shell) : Shell * list VgaOp :=
  match fuel with
  | O => (sh, [])
  | S fuel' =>
      if (0 <? slen sh)%nat then
        let '(sh', out) := clear_displayed_loop fuel' (with_len sh (slen sh - 1)) in
        (sh', erase_last_char ++ out)
      else (sh, [])
  end.

(** [clear_displayed_buffer]: the loop runs [len] times. *)
Definition clear_displayed_buffer (sh : Shell) : Shell * list VgaOp :=
  clear_displayed_loop (slen sh) sh.

Fixpoint replace_loop (sh : Shell) (line : list Z) : option (Shell * list VgaOp) :=
  match line with
  | [] => Some (sh, [])
  | byte :: rest =>
      if (slen sh <? length (sbuffer sh))%nat then
        match array_set (sbuffer sh) (slen sh) byte with
        | None => None
        | Some buf' =>
            let sh1 := {| sbuffer := buf'; slen := S (slen sh); extended_prefix := extended_prefix sh;
                          history := history sh; saved_line := saved_line sh;
                          saved_line_active := saved_line_active sh |} in
            match replace_loop sh1 rest with
            | Some (sh2, out) => Some (sh2, echo_byte byte ++ out)
            | None => None
            end
        end
      else replace_loop sh rest
  end.

Definition replace_buffer_with (sh : Shell) (line : list Z) : option (Shell * list VgaOp) :=
  let '(sh1, out1) := clear_displayed_buffer sh in
  match replace_loop sh1 line with
  | Some (sh2, out2) => Some (sh2, out1 ++ out2)
  | None => None
  end.

Definition current_line (sh : Shell) : list Z :=
  let s := firstn (slen sh) (sbuffer sh) in if utf8_valid s then s else [].

Definition own_line (line : list Z) : option FixedString :=
  match push_str INPUT_BUFFER_LEN (FixedString_new INPUT_BUFFER_LEN) line with
  | Some (_, owned) => Some owned
  | None => None
  end.

Definition set_history (sh : Shell) (h : InputHistory) : Shell :=
  {| sbuffer := sbuffer sh; slen := slen sh; extended_prefix := extended_prefix sh;
     history := h; saved_line := saved_line sh; saved_line_active := saved_line_active sh |}.

Definition set_saved (sh : Shell) (s : FixedString) (active : bool) : Shell :=
  {| sbuffer := sbuffer sh; slen := slen sh; extended_prefix := extended_prefix sh;
     history := history sh; saved_line := s; saved_line_active := active |}.

Definition save_current_line (sh : Shell) : option Shell :=
  match own_line (current_line sh) with
  | Some owned => Some (set_saved sh owned true)
  | None => None
  end.

Definition restore_saved_line (sh : Shell) : option (Shell * list VgaOp) :=
  match (if saved_line_active sh
         then match own_line (as_str (saved_line sh)) with
              | Some owned => replace_buffer_with sh (as_str owned)
              | None => None
              end
         else replace_buffer_with sh []) with
  | None => None
  | Some (sh1, out) =>
      let sh2 := set_saved sh1 (fs_clear (saved_line sh1)) false in
      Some (set_history sh2 (reset_navigation (history sh2)), out)
  end.

Inductive HistoryKey := Up | Down.

(** Replaces the line with [own_line(line)], as both arms do. *)
Definition replace_with_owned (sh : Shell) (line : list Z) : option (Shell * list VgaOp) :=
  match own_line line with
  | Some owned => replace_buffer_with sh (as_str owned)
  | None => None
  end.

Definition handle_history_navigation (sh : Shell) (key : HistoryKey) : option (Shell * list VgaOp) :=
  if (hlen (history sh) =? 0)%nat then Some (sh, [])
  else
    match (if (hlen (history sh) <=? cursor (history sh))%nat && negb (saved_line_active sh)
           then save_current_line sh else Some sh) with
    | None => None
    | Some sh0 =>
        match key with
        | Up =>
            match history_previous (history sh0) with
            | None => None
            | Some (Some line, h') => replace_with_owned (set_history sh0 h') line
            | Some (None, h') =>
                let sh1 := set_history sh0 h' in
                match latest (history sh1) with
                | None => None
                | Some (Some line) => replace_with_owned sh1 line
                | Some None => Some (sh1, [])
                end
            end
        | Down =>
            match history_next (history sh0) with
            | None => None
            | Some (Some line, h') => replace_with_owned (set_history sh0 h') line
            | Some (None, h') => restore_saved_line (set_history sh0 h')
            end
        end
    end.

Definition shell_inv (sh : Shell) : Prop :=
  length (sbuffer sh) = INPUT_BUFFER_LEN /\ (slen sh <= INPUT_BUFFER_LEN)%nat /\
  hist_inv (history sh) /\ fs_inv INPUT_BUFFER_LEN (saved_line sh).

(** Examples the witnesses run on. *)
Definition pit_reset : Pit := {| pit_access := 0; pit_mode := 0; pit_low := None; pit_reload := 0 |}.



Definition handlers_example : Handlers :=
  {| h_breakpoint := 0x201000; h_timer := 0x201100; h_keyboard := 0x201200;
     h_page_fault := 0x201300; h_gpf := 0x201400; h_double_fault := 0x201500 |}.

(** A shell that has run the command "ls" and holds "ab" on its line. *)
Definition history_example : InputHistory :=
  match run_history InputHistory_new [HPush [108; 115]] with
  | Some (_, h) => h
  | None => InputHistory_new
  end.

Definition shell_example : Shell :=
  {| sbuffer := [97; 98] ++ repeat 0 126; slen := 2; extended_prefix := false;
     history := history_example; saved_line := FixedString_new INPUT_BUFFER_LEN;
     saved_line_active := false |}.

(** ** Bit-level reasoning *)

Lemma testbit_ones_lt k n : 0 <= k -> 0 <= n -> Z.testbit (Z.ones k) n = (n <? k).
Proof. intros; apply Z.testbit_ones_nonneg; lia. Qed.

Lemma testbit_u64_high x n : is_u64 x -> 64 <= n -> Z.testbit x n = false.
Proof.
  unfold is_u64, U64_MAX; intros Hx Hn.
  rewrite <- (Z.mod_small x (2 ^ 64)) by lia.
  apply Z.mod_pow2_bits_high; lia.
Qed.

Lemma testbit_lt_pow2 x k n : 0 <= x < 2 ^ k -> 0 <= k <= n -> Z.testbit x n = false.
Proof.
  intros Hx Hn.
  rewrite <- (Z.mod_small x (2 ^ k)) by lia.
  apply Z.mod_pow2_bits_high; lia.
Qed.

Lemma testbit_mask n : 0 <= n ->
  Z.testbit ADDRESS_MASK n = (12 <=? n) && (n <? 52).
Proof.
  intros Hn.
  replace ADDRESS_MASK with (Z.shiftl (Z.ones 40) 12) by reflexivity.
  rewrite Z.shiftl_spec by lia.
  destruct (Z.leb_spec 12 n).
  - rewrite testbit_ones_lt by lia. simpl.
    destruct (Z.ltb_spec (n - 12) 40), (Z.ltb_spec n 52); lia.
  - rewrite Z.testbit_neg_r by lia. reflexivity.
Qed.

Lemma testbit_not64 x n : 0 <= n ->
  Z.testbit (not64 x) n = xorb (Z.testbit x n) (n <? 64).
Proof.
  intros Hn. unfold not64.
  rewrite Z.lxor_spec. replace U64_MAX with (Z.ones 64) by reflexivity.
  rewrite testbit_ones_lt by lia. reflexivity.
Qed.

Lemma low_bits_zero x : Z.land x 0xFFF = 0 -> forall n, 0 <= n < 12 -> Z.testbit x n = false.
Proof.
  intros H n Hn.
  replace 0xFFF with (Z.ones 12) in H by reflexivity.
  assert (E : Z.testbit (Z.land x (Z.ones 12)) n = false) by (rewrite H; apply Z.bits_0).
  rewrite Z.land_spec, testbit_ones_lt in E by lia.
  destruct (Z.ltb_spec n 12); [|lia]. rewrite andb_true_r in E. exact E.
Qed.

Ltac tb_step :=
  match goal with
  | |- context [Z.testbit (Z.lor ?a ?b) ?n] => rewrite (Z.lor_spec a b n)
  | |- context [Z.testbit (Z.land ?a ?b) ?n] => rewrite (Z.land_spec a b n)
  | |- context [Z.testbit (Z.lxor ?a ?b) ?n] => rewrite (Z.lxor_spec a b n)
  | |- context [Z.testbit (Z.shiftr ?a ?k) ?n] => rewrite (Z.shiftr_spec a k n) by lia
  | |- context [Z.testbit (Z.shiftl ?a ?k) ?n] => rewrite (Z.shiftl_spec a k n) by lia
  | |- context [Z.testbit (not64 ?a) ?n] => rewrite (testbit_not64 a n) by lia
  | |- context [Z.testbit ADDRESS_MASK ?n] => rewrite (testbit_mask n) by lia
  | |- context [Z.testbit (Z.ones ?k) ?n] => rewrite (testbit_ones_lt k n) by lia
  | |- context [Z.testbit 0 ?n] => rewrite (Z.bits_0 n)
  | |- context [Z.testbit ?a ?k] => rewrite (Z.testbit_neg_r a k) by lia
  | |- context [?a <? ?b] =>
      first [ rewrite (proj2 (Z.ltb_lt a b)) by lia
            | rewrite (proj2 (Z.ltb_ge a b)) by lia ]
  | |- context [?a <=? ?b] =>
      first [ rewrite (proj2 (Z.leb_le a b)) by lia
            | rewrite (proj2 (Z.leb_gt a b)) by lia ]
  | |- context [Z.testbit ?a (?n - ?k + ?k)] => replace (n - k + k) with n by lia
  | |- context [Z.testbit ?a (?n + ?k - ?k)] => replace (n + k - k) with n by lia
  end.

Ltac tb := repeat tb_step; simpl; rewrite ?andb_true_r, ?andb_false_r, ?orb_false_r.

Lemma testbit_flag k n : 0 <= k -> Z.testbit (Z.shiftl 1 k) n = (k =? n).
Proof. intros Hk. rewrite Z.shiftl_1_l. apply Z.pow2_bits_eqb; lia. Qed.

Lemma flag_combo_spec p w u h nx n :
  Z.testbit (flag_combo p w u h nx) n =
  (p && (0 =? n)) || ((w && (1 =? n)) || ((u && (2 =? n)) || ((h && (7 =? n)) || (nx && (63 =? n))))).
Proof.
  unfold flag_combo, flags.PRESENT, flags.WRITABLE, flags.USER, flags.HUGE_PAGE, flags.NO_EXECUTE.
  rewrite !Z.lor_spec.
  destruct p, w, u, h, nx; cbv beta iota; rewrite ?testbit_flag, ?Z.bits_0 by lia;
    rewrite ?andb_true_l, ?andb_false_l; reflexivity.
Qed.

Lemma flag_combo_zero p w u h nx n :
  (12 <= n < 52 \/ 64 <= n) -> Z.testbit (flag_combo p w u h nx) n = false.
Proof.
  intros Hn. rewrite flag_combo_spec.
  destruct (Z.eqb_spec 0 n), (Z.eqb_spec 1 n), (Z.eqb_spec 2 n), (Z.eqb_spec 7 n), (Z.eqb_spec 63 n);
    try lia; rewrite ?andb_false_r; reflexivity.
Qed.


Lemma add64_spec a b c : add64 a b = Some c -> c = a + b /\ c <= U64_MAX.
Proof.
  unfold add64. destruct (Z.leb_spec (a + b) U64_MAX); intros Ha; [|discriminate].
  injection Ha as <-. auto.
Qed.

Lemma VirtAddr_new_spec x y : VirtAddr_new x = Some y -> y = x /\ 0 <= x <= U64_MAX.
Proof.
  unfold VirtAddr_new, U64_MAX.
  destruct (Z.leb_spec 0 x), (Z.ltb_spec x (2 ^ 47)), (Z.leb_spec (2 ^ 64 - 2 ^ 47) x),
           (Z.leb_spec x (2 ^ 64 - 1)); simpl; intros Hs; try discriminate;
    injection Hs as <-; split; auto; lia.
Qed.


(** ** Page rounding and page lists *)

Lemma land_not64_4095 y : 0 <= y <= U64_MAX -> Z.land y (not64 4095) = y / 4096 * 4096.
Proof.
  intros Hy. change 4096 with (2 ^ 12).
  rewrite <- (Z.shiftr_div_pow2 y 12), <- (Z.shiftl_mul_pow2 _ 12) by lia.
  apply Z.bits_inj'; intros n Hn. change 4095 with (Z.ones 12).
  destruct (Z.ltb_spec n 12); [tb; reflexivity|].
  destruct (Z.ltb_spec n 64); tb; [reflexivity|].
  symmetry. apply testbit_u64_high; auto; lia.
Qed.

Lemma align_up_spec a : 0 <= a -> a + FRAME_SIZE <= U64_MAX -> align_up a = Some (round_up a).
Proof.
  intros Ha Hb. unfold align_up, add64.
  destruct (Z.leb_spec (a + FRAME_SIZE) U64_MAX); [|lia].
  f_equal. unfold FRAME_SIZE in *. rewrite land_not64_4095 by (unfold U64_MAX in *; lia).
  unfold round_up, FRAME_SIZE. f_equal.
Qed.

Lemma align_up_overflow a : U64_MAX < a + FRAME_SIZE -> align_up a = None.
Proof.
  intros H. unfold align_up, add64. destruct (Z.leb_spec (a + FRAME_SIZE) U64_MAX); [lia|reflexivity].
Qed.

Lemma round_up_aligned x : (round_up x) mod 4096 = 0.
Proof. unfold round_up, FRAME_SIZE. apply Z.mod_mul. lia. Qed.

Lemma round_down_aligned x : (round_down x) mod 4096 = 0.
Proof. unfold round_down, FRAME_SIZE. apply Z.mod_mul. lia. Qed.

Lemma round_up_of_aligned x : x mod 4096 = 0 -> round_up x = x.
Proof. unfold round_up, FRAME_SIZE. intros H. Z.div_mod_to_equations. lia. Qed.

Lemma round_up_le_aligned x f : f mod 4096 = 0 -> (round_up x <= f <-> x <= f).
Proof. unfold round_up, FRAME_SIZE. intros H. Z.div_mod_to_equations. lia. Qed.

Lemma lt_round_up_aligned x f : f mod 4096 = 0 -> (f < round_up x <-> f < x).
Proof. unfold round_up, FRAME_SIZE. intros H. Z.div_mod_to_equations. lia. Qed.

Lemma round_bounds x : round_down x <= x <= round_up x /\ round_up x < x + 4096 /\ x < round_down x + 4096.
Proof. unfold round_up, round_down, FRAME_SIZE. Z.div_mod_to_equations. lia. Qed.

Lemma page_list_nil a e : e <= a -> page_list a e = [].
Proof.
  intros H. unfold page_list. replace (Z.to_nat ((e - a) / FRAME_SIZE)) with 0%nat; [reflexivity|].
  unfold FRAME_SIZE. assert ((e - a) / 4096 <= 0) by (Z.div_mod_to_equations; lia). lia.
Qed.

Lemma page_list_cons a e : (e - a) mod 4096 = 0 -> a < e ->
  page_list a e = a :: page_list (a + FRAME_SIZE) e.
Proof.
  intros Hm Hlt. unfold page_list, FRAME_SIZE.
  assert (Hq : (e - a) / 4096 = 1 + (e - (a + 4096)) / 4096) by (Z.div_mod_to_equations; lia).
  assert (Hnn : 0 <= (e - (a + 4096)) / 4096) by (Z.div_mod_to_equations; lia).
  rewrite Hq, Z2Nat.inj_add by lia. change (Z.to_nat 1) with 1%nat. cbn [Nat.add seq map].
  rewrite Nat2Z.inj_0, Z.mul_0_r, Z.add_0_r. f_equal.
  rewrite <- seq_shift, map_map. apply map_ext. intros k. lia.
Qed.

Lemma page_list_In a e p : a mod 4096 = 0 -> (e - a) mod 4096 = 0 ->
  In p (page_list a e) <-> p mod 4096 = 0 /\ a <= p < e.
Proof.
  intros Ha He. unfold page_list, FRAME_SIZE. rewrite in_map_iff. split.
  - intros [k [<- Hk]]. apply in_seq in Hk.
    assert (Z.of_nat k < (e - a) / 4096) by lia.
    split; [|split]; [| lia |].
    + rewrite Z.add_mod, Ha, (Z.mul_comm 4096), Z.mod_mul by lia. reflexivity.
    + Z.div_mod_to_equations. nia.
  - intros [Hp [H1 H2]]. exists (Z.to_nat ((p - a) / 4096)). split.
    + assert (0 <= (p - a) / 4096) by (Z.div_mod_to_equations; lia).
      rewrite Z2Nat.id by lia. Z.div_mod_to_equations. lia.
    + apply in_seq. split; [lia|].
      assert ((p - a) / 4096 < (e - a) / 4096) by (Z.div_mod_to_equations; lia).
      assert (0 <= (p - a) / 4096) by (Z.div_mod_to_equations; lia). lia.
Qed.

Lemma page_list_nth a e k x : nth_error (page_list a e) k = Some x -> x = a + 4096 * Z.of_nat k.
Proof.
  unfold page_list. rewrite nth_error_map, nth_error_seq.
  destruct (k <? _)%nat; simpl; intros H; [|discriminate]. injection H as <-. reflexivity.
Qed.

Lemma page_list_increasing a e i j fi fj : (i < j)%nat ->
  nth_error (page_list a e) i = Some fi -> nth_error (page_list a e) j = Some fj -> fi < fj.
Proof. intros Hij Hi Hj. apply page_list_nth in Hi, Hj. subst. lia. Qed.

(** ** The bump allocator *)

Lemma bump_step a e : a mod 4096 = 0 -> 0 <= a -> e <= 2 ^ 64 - 8192 ->
  bump_allocate_frame {| next := a; end_ := e |} =
    if a <? e then Some (Some a, {| next := a + FRAME_SIZE; end_ := e |})
    else Some (None, {| next := a; end_ := e |}).
Proof.
  intros Ha Ha0 He. unfold bump_allocate_frame. cbn [next end_].
  destruct (Z.leb_spec e a), (Z.ltb_spec a e); try lia; [reflexivity|].
  unfold add64. destruct (Z.leb_spec (a + FRAME_SIZE) U64_MAX); [|unfold FRAME_SIZE, U64_MAX in *; lia].
  rewrite align_up_spec by (unfold FRAME_SIZE, U64_MAX in *; lia).
  rewrite round_up_of_aligned; [reflexivity|].
  unfold FRAME_SIZE. rewrite Z.add_mod, Ha by lia. reflexivity.
Qed.

Lemma bump_allocate_n_spec e : e <= 2 ^ 64 - 8192 -> forall N a,
  a mod 4096 = 0 -> 0 <= a -> a <= round_up e ->
  bump_allocate_n {| next := a; end_ := e |} N =
    Some (map Some (firstn N (page_list a (round_up e))) ++
          repeat None (N - length (page_list a (round_up e)))).
Proof.
  intros He N. induction N as [|N IH]; intros a Ha Ha0 Hle; [reflexivity|].
  simpl. rewrite bump_step by assumption.
  assert (Hm : (round_up e - a) mod 4096 = 0).
  { rewrite Zminus_mod, round_up_aligned, Ha. reflexivity. }
  destruct (Z.ltb_spec a e).
  - rewrite IH.
    + rewrite (page_list_cons a) by (auto; apply lt_round_up_aligned; auto). reflexivity.
    + unfold FRAME_SIZE. rewrite Z.add_mod, Ha by lia. reflexivity.
    + unfold FRAME_SIZE; lia.
    + apply lt_round_up_aligned in H; auto.
      assert (round_up e - a <> 0 /\ 0 <= round_up e - a) by lia.
      unfold FRAME_SIZE. Z.div_mod_to_equations. lia.
  - rewrite IH by assumption.
    rewrite page_list_nil by (apply round_up_le_aligned; auto).
    rewrite !firstn_nil. simpl. rewrite Nat.sub_0_r. reflexivity.
Qed.

(** ** The range loop *)

Section RangeLoop.
Context {A : Type} (allocate_frame : A -> option Z * A) (mp : Mapper).

Lemma map_loop_pages fuel : forall (s : MState A) a e fl,
  a mod 4096 = 0 -> e mod 4096 = 0 -> e <= U64_MAX ->
  (Z.to_nat ((e - a) / FRAME_SIZE) < fuel)%nat ->
  map_loop allocate_frame mp fuel s a e fl = map_pages allocate_frame mp s (page_list a e) fl.
Proof.
  induction fuel as [|fuel IH]; intros s a e fl Ha He Hmax Hf; [lia|].
  simpl. destruct (Z.ltb_spec a e).
  - rewrite (page_list_cons a e) by (auto; rewrite Zminus_mod, He, Ha; reflexivity).
    simpl. destruct (map_page allocate_frame mp s a a fl) as [s'|]; [|reflexivity].
    unfold add64. destruct (Z.leb_spec (a + FRAME_SIZE) U64_MAX).
    + apply IH; auto.
      * unfold FRAME_SIZE. rewrite Z.add_mod, Ha by lia. reflexivity.
      * assert (e - a <> 0) by lia.
        assert ((e - a) mod 4096 = 0) by (rewrite Zminus_mod, He, Ha; reflexivity).
        assert (0 <= (e - (a + FRAME_SIZE)) / FRAME_SIZE) by (unfold FRAME_SIZE; Z.div_mod_to_equations; lia).
        assert ((e - a) / FRAME_SIZE = 1 + (e - (a + FRAME_SIZE)) / FRAME_SIZE)
          by (unfold FRAME_SIZE in *; Z.div_mod_to_equations; lia).
        lia.
    + exfalso. assert ((e - a) mod 4096 = 0) by (rewrite Zminus_mod, He, Ha; reflexivity).
      unfold FRAME_SIZE in *. Z.div_mod_to_equations. lia.
  - rewrite page_list_nil by lia. reflexivity.
Qed.

Lemma identity_map_range_as_pages (s : MState A) start end0 fl :
  is_u64 start -> 0 <= end0 < 2 ^ 64 - 4096 ->
  identity_map_range allocate_frame mp s start end0 fl =
  map_pages allocate_frame mp s (page_list (round_down start) (round_up end0)) fl.
Proof.
  intros Hs He. unfold identity_map_range.
  rewrite align_up_spec by (unfold FRAME_SIZE, U64_MAX; lia).
  change 0xFFF with 4095. rewrite land_not64_4095 by exact Hs.
  change (start / 4096 * 4096) with (round_down start).
  apply map_loop_pages.
  - apply round_down_aligned.
  - apply round_up_aligned.
  - pose proof (round_bounds end0). unfold U64_MAX. lia.
  - lia.
Qed.

End RangeLoop.

(** ** Page-table entries and the upper-level step *)

Lemma is_unused_bit0 x : is_unused x = negb (Z.testbit x 0).
Proof.
  unfold is_unused. change flags.PRESENT with (Z.ones 1).
  rewrite Z.land_ones, Z.bit0_odd, Zmod_odd by lia.
  destruct (Z.odd x); reflexivity.
Qed.

Lemma pte_set_spec f fl v : 0 <= f < 2 ^ 52 -> pte_set f fl = Some v ->
  Z.land f 0xFFF = 0 /\ v = Z.lor f (Z.land fl (not64 ADDRESS_MASK)) /\
  addr v = f /\ entry_flags v = Z.land fl (not64 ADDRESS_MASK) /\
  is_unused v = is_unused fl.
Proof.
  intros Hr H. unfold pte_set in H.
  destruct (Z.eqb_spec (Z.land f 0xFFF) 0) as [Hal|]; [|discriminate].
  assert (Hv : Z.lor (Z.land f ADDRESS_MASK) (Z.land fl (not64 ADDRESS_MASK)) = v)
    by congruence.
  subst v.
  assert (Hf : Z.land f ADDRESS_MASK = f).
  { apply Z.bits_inj'; intros n Hn.
    destruct (Z.ltb_spec n 12).
    - tb. symmetry. apply low_bits_zero; auto; lia.
    - destruct (Z.ltb_spec n 52); tb; [reflexivity|].
      symmetry. apply (testbit_lt_pow2 _ 52); lia. }
  rewrite Hf. split; [exact Hal|]. split; [reflexivity|]. split; [|split].
  - unfold addr. apply Z.bits_inj'; intros n Hn.
    destruct (Z.ltb_spec n 12).
    + tb. symmetry. apply low_bits_zero; auto; lia.
    + destruct (Z.ltb_spec n 52); tb; [reflexivity|].
      symmetry. apply (testbit_lt_pow2 _ 52); lia.
  - unfold entry_flags. apply Z.bits_inj'; intros n Hn.
    destruct (Z.ltb_spec n 12).
    + tb. rewrite (low_bits_zero f Hal n) by lia. reflexivity.
    + destruct (Z.ltb_spec n 52); [tb; reflexivity|].
      destruct (Z.ltb_spec n 64); tb; rewrite ?(testbit_lt_pow2 f 52 n) by lia;
        reflexivity.
  - rewrite !is_unused_bit0, Z.lor_spec, (low_bits_zero f Hal 0), Z.land_spec,
      testbit_not64, testbit_mask by lia.
    destruct (Z.testbit fl 0); reflexivity.
Qed.

(** The 9-bit slice [(a >> k) & 0x1FF] holds the bits [k .. k+8] of [a]. *)
Lemma index_bits k a n : 0 <= k -> 0 <= n ->
  Z.testbit (Z.land (Z.shiftr a k) 0x1FF) n = (n <? 9) && Z.testbit a (k + n).
Proof.
  intros Hk Hn. change 0x1FF with (Z.ones 9).
  rewrite Z.land_spec, Z.shiftr_spec, testbit_ones_lt by lia.
  rewrite andb_comm, Z.add_comm. reflexivity.
Qed.

Lemma index_range k a : 0 <= Z.land (Z.shiftr a k) 0x1FF < 512.
Proof.
  change 0x1FF with (Z.ones 9). rewrite Z.land_ones by lia.
  apply Z.mod_pos_bound. reflexivity.
Qed.


(** ** Mapping a range twice: lemmas *)

Lemma table_at_app m t p q :
  table_at m t (p ++ q) = match table_at m t p with Some t' => table_at m t' q | None => None end.
Proof.
  revert t. induction p as [|i p IH]; intros t; [reflexivity|].
  simpl. destruct (is_unused (m t i)); [reflexivity|]. apply IH.
Qed.

Lemma table_at_snoc m t p k :
  table_at m t (p ++ [k]) =
  match table_at m t p with
  | Some y => if is_unused (m y k) then None else Some (addr (m y k))
  | None => None
  end.
Proof. rewrite table_at_app. destruct (table_at m t p); reflexivity. Qed.

Lemma valid_snoc q k : valid_prefix (q ++ [k]) ->
  valid_prefix q /\ 0 <= k < ENTRIES_PER_TABLE /\ (length q <= 2)%nat.
Proof.
  unfold valid_prefix. rewrite length_app, Forall_app. simpl.
  intros [Hl [Hq Hk]]. inversion Hk; subst. repeat split; auto; lia.
Qed.

Lemma valid_app q r : valid_prefix (q ++ r) -> valid_prefix q.
Proof.
  unfold valid_prefix. rewrite length_app, Forall_app. intros [Hl [Hq _]]. split; auto; lia.
Qed.

Lemma valid_firstn k q : valid_prefix q -> valid_prefix (firstn k q).
Proof.
  intros H. apply (valid_app _ (skipn k q)). rewrite firstn_skipn. exact H.
Qed.

Lemma valid_tup p : valid_prefix (tup p).
Proof.
  unfold valid_prefix, tup, ENTRIES_PER_TABLE. split; [simpl; lia|].
  repeat constructor; apply index_range.
Qed.

(** Induction over valid prefixes, from the root outwards. *)
Lemma valid_ind (P : list Z -> Prop) :
  P [] -> (forall q k, valid_prefix (q ++ [k]) -> P q -> P (q ++ [k])) ->
  forall q, valid_prefix q -> P q.
Proof.
  intros H0 HS q. induction q as [|k q IH] using rev_ind; intros Hv; [exact H0|].
  apply HS; auto. apply IH. apply (valid_snoc _ _ Hv).
Qed.

Lemma table_at_prefix m t p q x :
  table_at m t (p ++ q) = Some x -> exists y, table_at m t p = Some y.
Proof. rewrite table_at_app. destruct (table_at m t p); [eauto|discriminate]. Qed.

(** ** The leaf sequence *)

Lemma last_In (vs : list Z) d : vs = [] \/ In (last vs d) vs.
Proof.
  induction vs as [|v vs IH]; [auto|]. right. destruct vs as [|w vs]; [simpl; auto|].
  destruct IH as [H|H]; [discriminate|]. simpl in *. auto.
Qed.

Lemma last_indep (vs : list Z) d d' : vs <> [] -> last vs d = last vs d'.
Proof.
  induction vs as [|v vs IH]; intros H; [congruence|].
  destruct vs as [|w vs]; [reflexivity|]. simpl. apply IH. discriminate.
Qed.


Lemma step_seq_cons v vs x : step_seq (v :: vs) x = step_seq vs (step_leaf v x).
Proof. reflexivity. Qed.

Lemma step_seq_app vs v x : step_seq (vs ++ [v]) x = step_leaf v (step_seq vs x).
Proof. unfold step_seq. rewrite fold_left_app. reflexivity. Qed.

Lemma step_seq_present vs x : is_unused x = false -> step_seq vs x = x.
Proof.
  revert x. induction vs as [|v vs IH]; intros x Hx; [reflexivity|].
  rewrite step_seq_cons. unfold step_leaf. rewrite Hx. apply IH, Hx.
Qed.

Lemma step_seq_all_unused vs x : (forall v, In v vs -> is_unused v = true) ->
  step_seq vs x = if is_unused x then last vs x else x.
Proof.
  revert x. induction vs as [|v vs IH]; intros x Hv.
  - simpl. destruct (is_unused x); reflexivity.
  - rewrite step_seq_cons. unfold step_leaf at 1. destruct (is_unused x) eqn:Hx.
    + rewrite IH by (intros; apply Hv; simpl; auto). rewrite (Hv v) by (simpl; auto).
      destruct vs as [|w vs]; [reflexivity|].
      change (last (v :: w :: vs) x) with (last (w :: vs) x). apply last_indep; discriminate.
    + apply step_seq_present, Hx.
Qed.

Lemma step_seq_all_present vs x : (forall v, In v vs -> is_unused v = false) ->
  is_unused x = true -> step_seq vs x = match vs with [] => x | v :: _ => v end.
Proof.
  destruct vs as [|v vs]; intros Hv Hx; [reflexivity|].
  rewrite step_seq_cons. unfold step_leaf at 1. rewrite Hx. apply step_seq_present, Hv. simpl; auto.
Qed.

Lemma step_seq_idem vs u x : (forall v, In v vs -> is_unused v = u) ->
  step_seq vs (step_seq vs x) = step_seq vs x.
Proof.
  intros Hv. destruct u.
  - rewrite !(step_seq_all_unused vs) by exact Hv.
    destruct (is_unused x) eqn:Hx; [|rewrite Hx; reflexivity].
    destruct (last_In vs x) as [->|Hin]; [simpl; rewrite Hx; reflexivity|].
    rewrite (Hv _ Hin). apply last_indep. intros ->. destruct Hin.
  - destruct (is_unused x) eqn:Hx.
    2:{ rewrite (step_seq_present vs x Hx). apply step_seq_present, Hx. }
    rewrite (step_seq_all_present vs x Hv Hx).
    destruct vs as [|v vs]; [rewrite step_seq_all_present; auto|].
    apply step_seq_present, Hv. simpl; auto.
Qed.

Lemma is_unused_leafv fl p : is_unused (leafv fl p) = is_unused fl.
Proof.
  unfold leafv. rewrite !is_unused_bit0, Z.lor_spec, !Z.land_spec, testbit_not64,
    testbit_mask by lia.
  destruct (Z.testbit p 0), (Z.testbit fl 0); reflexivity.
Qed.

Lemma vals_unused fl L a j v : In v (vals fl L a j) -> is_unused v = is_unused fl.
Proof. unfold vals. rewrite in_map_iff. intros [q [<- _]]. apply is_unused_leafv. Qed.

Lemma vals_snoc fl L p a j :
  vals fl (L ++ [p]) a j = vals fl L a j ++ (if same_slot a j p then [leafv fl p] else []).
Proof.
  unfold vals. rewrite filter_app, map_app. simpl. destruct (same_slot a j p); reflexivity.
Qed.

Lemma vals_nil fl L a j : (forall q, In q L -> tup q <> a) -> vals fl L a j = [].
Proof.
  intros H. unfold vals. induction L as [|q L IH]; [reflexivity|].
  simpl. unfold same_slot at 1. destruct (list_eq_dec Z.eq_dec (tup q) a) as [E|_].
  - exfalso. apply (H q); simpl; auto.
  - apply IH. intros; apply H; simpl; auto.
Qed.

Lemma same_slot_true a j p : same_slot a j p = true -> tup p = a /\ pt_index p = j.
Proof.
  unfold same_slot. destruct (list_eq_dec Z.eq_dec (tup p) a); [|discriminate].
  intros H. apply Z.eqb_eq in H. auto.
Qed.

Lemma same_slot_self p : same_slot (tup p) (pt_index p) p = true.
Proof.
  unfold same_slot. destruct (list_eq_dec Z.eq_dec (tup p) (tup p)); [|congruence].
  apply Z.eqb_refl.
Qed.

Lemma tree_len m r p q t : is_tree m r -> valid_prefix p -> valid_prefix q ->
  table_at m r p = Some t -> table_at m r q = Some t -> length p = length q.
Proof. intros Ht Hp Hq H1 H2. rewrite (Ht p q t Hp Hq H1 H2). reflexivity. Qed.

Lemma attach_facts m r t pre i f v :
  is_tree m r -> table_at m r pre = Some t -> valid_prefix (pre ++ [i]) ->
  is_unused (m t i) = true -> ~ in_use m r f -> addr v = f -> is_unused v = false ->
  Mono r m (mem_set_entry (mem_zero_table m f) t i v) /\
  table_at (mem_set_entry (mem_zero_table m f) t i v) r (pre ++ [i]) = Some f /\
  (forall q x, valid_prefix q -> table_at (mem_set_entry (mem_zero_table m f) t i v) r q = Some x ->
     table_at m r q = Some x \/ (x = f /\ q = pre ++ [i])) /\
  is_tree (mem_set_entry (mem_zero_table m f) t i v) r.
Proof.
  intros Htree Ht Hv Hu Hf Ha Hvu.
  set (m' := mem_set_entry (mem_zero_table m f) t i v).
  destruct (valid_snoc _ _ Hv) as (Hpre & Hi & Hlen).
  assert (Htf : t <> f) by (intros ->; apply Hf; exists pre; auto).
  assert (Hold : forall q y k, valid_prefix q -> table_at m r q = Some y -> (y, k) <> (t, i) ->
            m' y k = m y k).
  { intros q y k Hq Hy Hne. unfold m', mem_set_entry, mem_zero_table.
    assert (Hyf : y <> f) by (intros ->; apply Hf; exists q; auto).
    rewrite (proj2 (Z.eqb_neq y f) Hyf). cbn [andb].
    destruct (Z.eqb_spec y t), (Z.eqb_spec k i); subst; try reflexivity. congruence. }
  assert (Hmono : Mono r m m').
  { intros q x0 Hq. revert x0.
    refine (valid_ind (fun q => forall x, table_at m r q = Some x -> table_at m' r q = Some x)
              _ _ q Hq); [auto|].
    intros q0 k Hv0 IH x. rewrite !table_at_snoc.
    destruct (table_at m r q0) as [y|] eqn:Hy; [|discriminate].
    rewrite (IH y eq_refl).
    destruct (valid_snoc _ _ Hv0) as (Hq0 & _).
    destruct (is_unused (m y k)) eqn:Hyk; [discriminate|].
    rewrite (Hold q0 y k Hq0 Hy); [rewrite Hyk; auto|].
    intros E. injection E as -> ->. congruence. }
  assert (Hnew : table_at m' r (pre ++ [i]) = Some f).
  { rewrite table_at_snoc, (Hmono pre t Hpre Ht).
    unfold m' at 1 2, mem_set_entry. rewrite !Z.eqb_refl. cbn [andb]. rewrite Hvu, Ha. reflexivity. }
  assert (Hback : forall q x, valid_prefix q -> table_at m' r q = Some x ->
            table_at m r q = Some x \/ (x = f /\ q = pre ++ [i])).
  { intros q x0 Hq. revert x0.
    refine (valid_ind (fun q => forall x, table_at m' r q = Some x ->
                       table_at m r q = Some x \/ (x = f /\ q = pre ++ [i])) _ _ q Hq); [auto|].
    intros q0 k Hv0 IH x. rewrite table_at_snoc.
    destruct (valid_snoc _ _ Hv0) as (Hq0 & Hk & _).
    destruct (table_at m' r q0) as [y|] eqn:Hy; [|discriminate].
    destruct (IH y eq_refl) as [Hy0 | [-> ->]].
    - intros E.
      destruct (Z.eq_dec y t) as [->|Hyt]; [destruct (Z.eq_dec k i) as [->|Hki]|].
      + unfold m' at 1 2, mem_set_entry in E. rewrite !Z.eqb_refl in E. cbn [andb] in E.
        rewrite Hvu, Ha in E. injection E as <-. right. split; [reflexivity|].
        rewrite (Htree q0 pre t Hq0 Hpre Hy0 Ht). reflexivity.
      + rewrite (Hold q0 t k Hq0 Hy0) in E by congruence.
        left. rewrite table_at_snoc, Hy0. exact E.
      + rewrite (Hold q0 y k Hq0 Hy0) in E by congruence.
        left. rewrite table_at_snoc, Hy0. exact E.
    - unfold m', mem_set_entry, mem_zero_table.
      rewrite (proj2 (Z.eqb_neq f t)) by congruence. rewrite Z.eqb_refl.
      unfold ENTRIES_PER_TABLE in Hk.
      rewrite (proj2 (Z.leb_le 0 k)), (proj2 (Z.ltb_lt k _)) by (unfold ENTRIES_PER_TABLE; lia).
      cbn [andb]. discriminate. }
  split; [exact Hmono|]. split; [exact Hnew|]. split; [exact Hback|].
  intros p q x Hp Hq H1 H2.
  destruct (Hback p x Hp H1) as [P1 | [Ex Ep]], (Hback q x Hq H2) as [Q1 | [Ex' Eq]].
  - apply (Htree p q x); auto.
  - exfalso. subst x. apply Hf. exists p. auto.
  - exfalso. subst x. apply Hf. exists q. auto.
  - congruence.
Qed.

Lemma leaf_write_table_at m m' r a T :
  is_tree m r -> valid_prefix a -> length a = 3%nat -> table_at m r a = Some T ->
  (forall t i, t <> T -> m' t i = m t i) ->
  forall q, valid_prefix q -> table_at m' r q = table_at m r q.
Proof.
  intros Htree Ha Hl HT Hm q Hq.
  refine (valid_ind (fun q => table_at m' r q = table_at m r q) _ _ q Hq); [reflexivity|].
  intros q0 k Hv0 IH. rewrite !table_at_snoc, IH.
  destruct (valid_snoc _ _ Hv0) as (Hq0 & _ & Hlen).
  destruct (table_at m r q0) as [y|] eqn:Hy; [|reflexivity].
  rewrite Hm; [reflexivity|]. intros ->.
  pose proof (tree_len m r q0 a T Htree Hq0 Ha Hy HT). lia.
Qed.

Lemma table_at_same_tree m m' r : (forall q, valid_prefix q -> table_at m' r q = table_at m r q) ->
  is_tree m r -> is_tree m' r.
Proof.
  intros E Ht p q x Hp Hq H1 H2. rewrite E in H1, H2 by auto. apply (Ht p q x); auto.
Qed.

Lemma table_at_same_in_use m m' r x : (forall q, valid_prefix q -> table_at m' r q = table_at m r q) ->
  in_use m' r x -> in_use m r x.
Proof. intros E [q [Hq H]]. exists q. rewrite <- E by auto. auto. Qed.

Lemma complete_mono mp m m' p : Mono (pml4_phys mp) m m' -> complete mp m p -> complete mp m' p.
Proof.
  intros Hm [[T HT] Hok]. split.
  - exists T. apply Hm; auto. apply valid_tup.
  - intros k t Hk Ht.
    destruct (table_at_prefix m (pml4_phys mp) (firstn k (tup p)) (skipn k (tup p)) T)
      as [y Hy]; [rewrite firstn_skipn; exact HT|].
    rewrite (Hm _ y (valid_firstn k _ (valid_tup p)) Hy) in Ht. injection Ht as <-.
    apply (Hok k); auto.
Qed.

Lemma complete_same mp m m' p :
  (forall q, valid_prefix q -> table_at m' (pml4_phys mp) q = table_at m (pml4_phys mp) q) ->
  complete mp m p -> complete mp m' p.
Proof.
  intros E. apply complete_mono. intros q x Hq H. rewrite E; auto.
Qed.

Section Frames2.
Context {A : Type} (allocate_frame : A -> option Z * A).

Lemma alloc_after_S a k :
  alloc_after allocate_frame a (S k) = alloc_after allocate_frame (snd (allocate_frame a)) k.
Proof.
  induction k as [|k IH]; [reflexivity|].
  change (alloc_after allocate_frame a (S (S k)))
    with (snd (allocate_frame (alloc_after allocate_frame a (S k)))).
  rewrite IH. reflexivity.
Qed.

Lemma nth_frame_S a k :
  nth_frame allocate_frame (snd (allocate_frame a)) k = nth_frame allocate_frame a (S k).
Proof. unfold nth_frame. rewrite alloc_after_S. reflexivity. Qed.

Lemma fresh_step a m m' r f :
  fresh_frames allocate_frame a m r -> fst (allocate_frame a) = Some f ->
  (forall x, in_use m' r x -> in_use m r x \/ x = f) ->
  fresh_frames allocate_frame (snd (allocate_frame a)) m' r.
Proof.
  intros Hfr Hf Hin k g Hg. rewrite nth_frame_S in Hg.
  destruct (Hfr (S k) g Hg) as (Hr & Hnu & Hd). split; [exact Hr|]. split.
  - intros Hu. destruct (Hin g Hu) as [Hu' | ->]; [contradiction|].
    apply (Hd 0%nat); [lia|exact Hf].
  - intros k' Hk'. rewrite nth_frame_S. apply Hd. lia.
Qed.
End Frames2.

Section Pass1.
Context {A : Type} (allocate_frame : A -> option Z * A) (mp : Mapper) (fl : Z).

Lemma table_mut_ok t t' : table_mut mp t = Some t' -> t' = t /\ t + phys_offset mp <= U64_MAX.
Proof.
  unfold table_mut. destruct (Z.leb_spec (t + phys_offset mp) U64_MAX); [|discriminate].
  intros E; injection E as <-. auto.
Qed.

Lemma ensure_step1 L1 s pre t i t' s' :
  Inv1 allocate_frame mp fl s L1 -> valid_prefix (pre ++ [i]) ->
  table_at (mem s) (pml4_phys mp) pre = Some t ->
  ensure_next_table allocate_frame mp s t i = Some (t', s') ->
  Inv1 allocate_frame mp fl s' L1 /\ Mono (pml4_phys mp) (mem s) (mem s') /\
  table_at (mem s') (pml4_phys mp) (pre ++ [i]) = Some t' /\ t + phys_offset mp <= U64_MAX.
Proof.
  intros (Htree & Hfr & Hcomp & Hval) Hv Ht H.
  destruct (valid_snoc _ _ Hv) as (Hpre & Hi & Hlen).
  unfold ensure_next_table in H.
  destruct (table_mut mp t) as [t0|] eqn:Htm; [|discriminate].
  destruct (table_mut_ok _ _ Htm) as [-> Hok].
  rewrite (proj2 (Z.ltb_lt i _) (proj2 Hi)) in H. cbn [negb] in H.
  destruct (is_unused (mem s t i)) eqn:Hu.
  - unfold allocate in H.
    destruct (allocate_frame (frames s)) as [[f|] a'] eqn:Ha; [|discriminate].
    destruct (table_mut mp f) as [nt|] eqn:Hfm; [|discriminate].
    destruct (table_mut_ok _ _ Hfm) as [-> _].
    cbn [mem] in H.
    destruct (pte_set f (Z.lor flags.PRESENT flags.WRITABLE)) as [v|] eqn:Hv'; [|discriminate].
    injection H as <- <-.
    assert (Hf0 : nth_frame allocate_frame (frames s) 0 = Some f)
      by (unfold nth_frame; simpl; rewrite Ha; reflexivity).
    destruct (Hfr 0%nat f Hf0) as (Hfr52 & Hfnu & _).
    destruct (pte_set_spec _ _ _ Hfr52 Hv') as (_ & _ & Haddr & _ & Hvu).
    change (is_unused (Z.lor flags.PRESENT flags.WRITABLE)) with false in Hvu.
    destruct (attach_facts (mem s) (pml4_phys mp) t pre i f v Htree Ht Hv Hu Hfnu Haddr Hvu)
      as (Hmono & Hnew & Hback & Htree').
    unfold with_mem. cbn [mem frames].
    split; [|split; [exact Hmono|split; [exact Hnew|exact Hok]]].
    split; [exact Htree'|]. split; [|split].
    + replace a' with (snd (allocate_frame (frames s))) by (rewrite Ha; reflexivity).
      apply (fresh_step allocate_frame _ (mem s) _ _ f); [exact Hfr| rewrite Ha; reflexivity|].
      intros x [q [Hq Hx]]. destruct (Hback q x Hq Hx) as [H1 | [-> _]]; [left; exists q; auto|auto].
    + intros p Hp. apply (complete_mono mp (mem s)); auto.
    + intros a T j Ha3 Hl HT. destruct (Hback a T Ha3 HT) as [HT0 | [-> ->]].
      * destruct (Hval a T j Ha3 Hl HT0) as [x Hx]. exists x. rewrite <- Hx.
        cbn [mem]. unfold mem_set_entry, mem_zero_table.
        assert (HTf : T <> f) by (intros ->; apply Hfnu; exists a; auto).
        assert (HTt : T <> t).
        { intros ->. pose proof (tree_len _ _ _ _ _ Htree Ha3 Hpre HT0 Ht). lia. }
        rewrite (proj2 (Z.eqb_neq T t) HTt), (proj2 (Z.eqb_neq T f) HTf). reflexivity.
      * rewrite vals_nil; [eexists; reflexivity|].
        intros q Hq Eq. destruct (Hcomp q Hq) as [[T' HT'] _].
        rewrite Eq, table_at_snoc, Ht, Hu in HT'. discriminate.
  - injection H as <- <-.
    split; [split; auto|]. split; [intros q x _ Hx; exact Hx|]. split; [|exact Hok].
    rewrite table_at_snoc, Ht, Hu. reflexivity.
Qed.

Lemma walk_step1 L1 idxs : forall pre t s T s',
  Inv1 allocate_frame mp fl s L1 -> valid_prefix (pre ++ idxs) ->
  table_at (mem s) (pml4_phys mp) pre = Some t ->
  walk allocate_frame mp s t idxs = Some (T, s') ->
  Inv1 allocate_frame mp fl s' L1 /\ Mono (pml4_phys mp) (mem s) (mem s') /\
  table_at (mem s') (pml4_phys mp) (pre ++ idxs) = Some T /\
  (forall k x, (k < length idxs)%nat ->
     table_at (mem s') (pml4_phys mp) (pre ++ firstn k idxs) = Some x -> x + phys_offset mp <= U64_MAX).
Proof.
  induction idxs as [|i rest IH]; intros pre t s T s' Hinv Hv Ht H.
  - simpl in H. injection H as <- <-. rewrite app_nil_r.
    split; [exact Hinv|]. split; [intros q x _ Hx; exact Hx|]. split; [exact Ht|].
    intros k x Hk. simpl in Hk. lia.
  - simpl in H. destruct (ensure_next_table allocate_frame mp s t i) as [[t1 s1]|] eqn:He;
      [|discriminate].
    assert (Hv1 : valid_prefix (pre ++ [i]))
      by (apply (valid_app _ rest); rewrite <- app_assoc; exact Hv).
    destruct (ensure_step1 L1 s pre t i t1 s1 Hinv Hv1 Ht He) as (Hinv1 & Hm1 & Ht1 & Hok).
    destruct (IH (pre ++ [i]) t1 s1 T s' Hinv1) as (Hinv' & Hm2 & HT & Htok);
      [rewrite <- app_assoc; exact Hv|exact Ht1|exact H|].
    split; [exact Hinv'|]. split; [intros q x Hq Hx; apply Hm2, Hm1; auto|].
    split; [rewrite <- app_assoc in HT; exact HT|].
    intros [|k] x Hk Hx.
    + rewrite app_nil_r in Hx.
      rewrite (Hm2 pre t (valid_app _ _ Hv1) (Hm1 pre t (valid_app _ _ Hv1) Ht)) in Hx.
      injection Hx as <-. exact Hok.
    + apply (Htok k). { simpl in Hk. lia. }
      rewrite <- app_assoc. exact Hx.
Qed.

Lemma map_page_step1 L1 s p s' :
  Inv1 allocate_frame mp fl s L1 -> map_page allocate_frame mp s p p fl = Some s' ->
  Inv1 allocate_frame mp fl s' (L1 ++ [p]).
Proof.
  intros Hinv H. unfold map_page in H.
  destruct (walk allocate_frame mp s (pml4_phys mp) [pml4_index p; pdpt_index p; pd_index p])
    as [[T s1]|] eqn:Hw; [|discriminate].
  destruct (walk_step1 L1 (tup p) [] (pml4_phys mp) s T s1 Hinv (valid_tup p) eq_refl Hw)
    as ((Htree & Hfr & Hcomp & Hval) & _ & HT & Htok).
  change ([] ++ tup p) with (tup p) in HT.
  destruct (table_mut mp T) as [T0|] eqn:Htm; [|discriminate].
  destruct (table_mut_ok _ _ Htm) as [-> HokT].
  pose proof (index_range 12 p) as Hj. fold (pt_index p) in Hj.
  assert (Hlt : (pt_index p <? ENTRIES_PER_TABLE) = true) by (apply Z.ltb_lt; exact (proj2 Hj)).
  cbv zeta in H. rewrite Hlt in H. cbn [negb] in H.
  set (j := pt_index p) in *.
  assert (Hs' : frames s' = frames s1 /\
      forall t i, mem s' t i = if (t =? T) && (i =? j) then step_leaf (leafv fl p) (mem s1 T j)
                               else mem s1 t i).
  { unfold step_leaf. destruct (is_unused (mem s1 T j)) eqn:Hu.
    - destruct (pte_set p fl) as [v|] eqn:Hv; [|discriminate]. injection H as <-.
      unfold pte_set in Hv. destruct (Z.land p 0xFFF =? 0); [|discriminate].
      injection Hv as <-. split; [reflexivity|]. intros t i. reflexivity.
    - injection H as <-. split; [reflexivity|]. intros t i.
      destruct (Z.eqb_spec t T), (Z.eqb_spec i j); subst; reflexivity. }
  destruct Hs' as [Hfs Hms].
  assert (Hsame : forall q, valid_prefix q ->
            table_at (mem s') (pml4_phys mp) q = table_at (mem s1) (pml4_phys mp) q).
  { apply (leaf_write_table_at (mem s1) (mem s') (pml4_phys mp) (tup p) T Htree (valid_tup p));
      [reflexivity|exact HT|].
    intros t i Ht. rewrite Hms, (proj2 (Z.eqb_neq t T) Ht). reflexivity. }
  split; [|split; [|split]].
  - apply (table_at_same_tree (mem s1)); auto.
  - rewrite Hfs. intros k f Hf. destruct (Hfr k f Hf) as (H1 & H2 & H3).
    split; [exact H1|]. split; [|exact H3].
    intros Hu. apply H2. apply (table_at_same_in_use (mem s1) (mem s')); auto.
  - intros q Hq. apply in_app_or in Hq. apply (complete_same mp (mem s1)); [exact Hsame|].
    destruct Hq as [Hq | [<- | []]]; [apply Hcomp; exact Hq|].
    split; [eauto|]. intros k t Hk Ht.
    destruct (Nat.eq_dec k 3) as [->|Hk3].
    + change (firstn 3 (tup p)) with (tup p) in Ht. rewrite HT in Ht. injection Ht as <-. exact HokT.
    + apply (Htok k); [simpl; lia|exact Ht].
  - intros a T' j' Ha Hl HT'. rewrite Hsame in HT' by exact Ha.
    rewrite vals_snoc, Hms.
    destruct (Z.eqb_spec T' T) as [->|HTT]; destruct (Z.eqb_spec j' j) as [->|Hjj]; cbn [andb].
    + rewrite (Htree a (tup p) T Ha (valid_tup p) HT' HT), same_slot_self.
      destruct (Hval (tup p) T j (valid_tup p) eq_refl HT) as [x Hx].
      exists x. rewrite Hx, step_seq_app. reflexivity.
    + destruct (Hval a T j' Ha Hl HT') as [x Hx]. exists x. rewrite Hx.
      destruct (same_slot a j' p) eqn:Hss; [|rewrite app_nil_r; reflexivity].
      apply same_slot_true in Hss. destruct Hss as [_ E]. exfalso. apply Hjj. rewrite <- E. reflexivity.
    + destruct (Hval a T' j Ha Hl HT') as [x Hx]. exists x. rewrite Hx.
      destruct (same_slot a j p) eqn:Hss; [|rewrite app_nil_r; reflexivity].
      apply same_slot_true in Hss. destruct Hss as [E _]. subst a. congruence.
    + destruct (Hval a T' j' Ha Hl HT') as [x Hx]. exists x. rewrite Hx.
      destruct (same_slot a j' p) eqn:Hss; [|rewrite app_nil_r; reflexivity].
      apply same_slot_true in Hss. destruct Hss as [E _]. subst a. congruence.
Qed.

Lemma pass1 L : forall L1 s s',
  Inv1 allocate_frame mp fl s L1 -> map_pages allocate_frame mp s L fl = Some s' ->
  Inv1 allocate_frame mp fl s' (L1 ++ L).
Proof.
  induction L as [|p L IH]; intros L1 s s' Hinv H.
  - injection H as <-. rewrite app_nil_r. exact Hinv.
  - simpl in H. destruct (map_page allocate_frame mp s p p fl) as [s1|] eqn:Hp; [|discriminate].
    replace (L1 ++ p :: L) with ((L1 ++ [p]) ++ L) by (rewrite <- app_assoc; reflexivity).
    apply (IH _ s1); [apply (map_page_step1 L1 s p s1 Hinv Hp)|exact H].
Qed.

Lemma inv1_init s : is_tree (mem s) (pml4_phys mp) ->
  fresh_frames allocate_frame (frames s) (mem s) (pml4_phys mp) ->
  Inv1 allocate_frame mp fl s [].
Proof.
  intros Ht Hf. split; [exact Ht|]. split; [exact Hf|]. split; [intros p []|].
  intros a T j _ _ _. exists (mem s T j). reflexivity.
Qed.
End Pass1.

Section Pass2.
Context {A : Type} (allocate_frame : A -> option Z * A) (mp : Mapper) (fl : Z).

Lemma walk_present idxs : forall pre t (s : MState A) T,
  Forall (fun i => 0 <= i < ENTRIES_PER_TABLE) idxs ->
  table_at (mem s) (pml4_phys mp) (pre ++ idxs) = Some T ->
  table_at (mem s) (pml4_phys mp) pre = Some t ->
  (forall k x, (k < length idxs)%nat ->
     table_at (mem s) (pml4_phys mp) (pre ++ firstn k idxs) = Some x -> x + phys_offset mp <= U64_MAX) ->
  walk allocate_frame mp s t idxs = Some (T, s).
Proof.
  induction idxs as [|i rest IH]; intros pre t s T Hr HT Ht Hok.
  - rewrite app_nil_r, Ht in HT. injection HT as <-. reflexivity.
  - inversion Hr as [|? ? Hi Hrest]; subst.
    simpl. unfold ensure_next_table, table_mut.
    assert (Htok : t + phys_offset mp <= U64_MAX)
      by (apply (Hok 0%nat); [simpl; lia|rewrite app_nil_r; exact Ht]).
    rewrite (proj2 (Z.leb_le _ _) Htok), (proj2 (Z.ltb_lt i _) (proj2 Hi)). cbn [negb].
    replace (pre ++ i :: rest) with ((pre ++ [i]) ++ rest) in HT by (rewrite <- app_assoc; reflexivity).
    destruct (table_at_prefix _ _ _ _ _ HT) as [y Hy].
    rewrite table_at_snoc, Ht in Hy.
    destruct (is_unused (mem s t i)) eqn:Hu; [discriminate|]. injection Hy as Hy.
    apply (IH (pre ++ [i])); auto.
    + rewrite table_at_snoc, Ht, Hu. reflexivity.
    + intros k x Hk Hx. apply (Hok (S k)); [simpl; lia|]. rewrite <- app_assoc in Hx. exact Hx.
Qed.

Lemma map_page_present (s : MState A) virt phys T :
  complete mp (mem s) virt -> table_at (mem s) (pml4_phys mp) (tup virt) = Some T ->
  is_unused (mem s T (pt_index virt)) = false ->
  map_page allocate_frame mp s virt phys fl = Some s.
Proof.
  intros [_ Hok] HT Hu. unfold map_page.
  change [pml4_index virt; pdpt_index virt; pd_index virt] with (tup virt).
  rewrite (walk_present (tup virt) [] (pml4_phys mp) s T (proj2 (valid_tup virt)) HT eq_refl);
    [|intros k x Hk Hx; apply (Hok k); [simpl in Hk; lia|exact Hx]].
  unfold table_mut. rewrite (proj2 (Z.leb_le _ _) (Hok 3%nat T (le_n 3) HT)).
  pose proof (index_range 12 virt) as Hj. fold (pt_index virt) in Hj.
  assert (Hlt : (pt_index virt <? ENTRIES_PER_TABLE) = true) by (apply Z.ltb_lt; exact (proj2 Hj)).
  cbv zeta. rewrite Hlt, Hu. reflexivity.
Qed.

Lemma inv2_table_at s1 (s : MState A) L2 : is_tree (mem s1) (pml4_phys mp) ->
  Inv2 mp fl s1 s L2 -> forall q, valid_prefix q ->
  table_at (mem s) (pml4_phys mp) q = table_at (mem s1) (pml4_phys mp) q.
Proof.
  intros Htree (_ & _ & Hd & _) q Hq.
  refine (valid_ind (fun q => table_at (mem s) (pml4_phys mp) q = table_at (mem s1) (pml4_phys mp) q)
            _ _ q Hq); [reflexivity|].
  intros q0 k Hv0 IH. rewrite !table_at_snoc, IH.
  destruct (valid_snoc _ _ Hv0) as (Hq0 & _ & Hlen).
  destruct (table_at (mem s1) (pml4_phys mp) q0) as [y|] eqn:Hy; [|reflexivity].
  destruct (Hd y k) as [E | (a & Ha & Hl & Ha')]; [rewrite E; reflexivity|].
  pose proof (tree_len _ _ _ _ _ Htree Hq0 Ha Hy Ha'). lia.
Qed.

Lemma map_page_step2 s1 L2 (s : MState A) p :
  is_tree (mem s1) (pml4_phys mp) -> complete mp (mem s1) p -> Z.land p 0xFFF = 0 ->
  Inv2 mp fl s1 s L2 ->
  exists s', map_page allocate_frame mp s p p fl = Some s' /\ Inv2 mp fl s1 s' (L2 ++ [p]).
Proof.
  intros Htree Hc Hal Hinv.
  pose proof (inv2_table_at s1 s L2 Htree Hinv) as Hsame.
  pose proof (complete_same mp (mem s1) (mem s) p Hsame Hc) as [[T HT] Hok].
  assert (HT1 : table_at (mem s1) (pml4_phys mp) (tup p) = Some T)
    by (rewrite <- Hsame by apply valid_tup; exact HT).
  destruct Hinv as (Hfs & Hcs & Hd & Hv).
  set (j := pt_index p).
  assert (Hstep : exists s', map_page allocate_frame mp s p p fl = Some s' /\
      frames s' = frames s /\ alloc_calls s' = alloc_calls s /\
      forall t i, mem s' t i = if (t =? T) && (i =? j) then step_leaf (leafv fl p) (mem s T j)
                               else mem s t i).
  { unfold map_page. change [pml4_index p; pdpt_index p; pd_index p] with (tup p).
    rewrite (walk_present (tup p) [] (pml4_phys mp) s T (proj2 (valid_tup p)) HT eq_refl);
      [|intros k x Hk Hx; apply (Hok k); [simpl in Hk; lia|exact Hx]].
    unfold table_mut. rewrite (proj2 (Z.leb_le _ _) (Hok 3%nat T (le_n 3) HT)).
    pose proof (index_range 12 p) as Hj. fold (pt_index p) in Hj.
    assert (Hlt : (pt_index p <? ENTRIES_PER_TABLE) = true) by (apply Z.ltb_lt; exact (proj2 Hj)).
    cbv zeta. rewrite Hlt. cbn [negb]. fold j. unfold step_leaf.
    destruct (is_unused (mem s T j)) eqn:Hu.
    - unfold pte_set. rewrite Hal, Z.eqb_refl.
      eexists. split; [reflexivity|]. split; [reflexivity|]. split; [reflexivity|].
      intros t i. reflexivity.
    - eexists. split; [reflexivity|]. split; [reflexivity|]. split; [reflexivity|].
      intros t i. destruct (Z.eqb_spec t T), (Z.eqb_spec i j); subst; reflexivity. }
  destruct Hstep as (s' & Hmp & Hf' & Hc' & Hms).
  exists s'. split; [exact Hmp|].
  split; [congruence|]. split; [congruence|]. split.
  - intros t i. rewrite Hms.
    destruct (Z.eqb_spec t T) as [->|]; [destruct (Z.eqb_spec i j)|]; cbn [andb].
    + right. exists (tup p). split; [apply valid_tup|]. split; [reflexivity|exact HT1].
    + apply Hd.
    + apply Hd.
  - intros a T' j' Ha Hl HT'. rewrite vals_snoc, Hms.
    destruct (Z.eqb_spec T' T) as [->|HTT]; destruct (Z.eqb_spec j' j) as [->|Hjj]; cbn [andb].
    + rewrite (Htree a (tup p) T Ha (valid_tup p) HT' HT1), same_slot_self.
      rewrite (Hv (tup p) T j (valid_tup p) eq_refl HT1), step_seq_app. reflexivity.
    + rewrite (Hv a T j' Ha Hl HT').
      destruct (same_slot a j' p) eqn:Hss; [|rewrite app_nil_r; reflexivity].
      apply same_slot_true in Hss. destruct Hss as [_ E]. exfalso. apply Hjj. rewrite <- E. reflexivity.
    + rewrite (Hv a T' j Ha Hl HT').
      destruct (same_slot a j p) eqn:Hss; [|rewrite app_nil_r; reflexivity].
      apply same_slot_true in Hss. destruct Hss as [E _]. subst a. congruence.
    + rewrite (Hv a T' j' Ha Hl HT').
      destruct (same_slot a j' p) eqn:Hss; [|rewrite app_nil_r; reflexivity].
      apply same_slot_true in Hss. destruct Hss as [E _]. subst a. congruence.
Qed.

Lemma pass2 s1 R : forall L2 (s : MState A),
  is_tree (mem s1) (pml4_phys mp) ->
  (forall p, In p R -> complete mp (mem s1) p /\ Z.land p 0xFFF = 0) ->
  Inv2 mp fl s1 s L2 ->
  exists s', map_pages allocate_frame mp s R fl = Some s' /\ Inv2 mp fl s1 s' (L2 ++ R).
Proof.
  induction R as [|p R IH]; intros L2 s Htree HR Hinv.
  - exists s. rewrite app_nil_r. split; [reflexivity|exact Hinv].
  - destruct (HR p (or_introl eq_refl)) as [Hc Hal].
    destruct (map_page_step2 s1 L2 s p Htree Hc Hal Hinv) as (s' & Hmp & Hinv').
    destruct (IH (L2 ++ [p]) s' Htree) as (s'' & Hms & Hinv'');
      [intros q Hq; apply HR; simpl; auto|exact Hinv'|].
    exists s''. simpl. rewrite Hmp. split; [exact Hms|].
    rewrite <- app_assoc in Hinv''. exact Hinv''.
Qed.

Lemma map_pages_twice (s0 s1 : MState A) L :
  is_tree (mem s0) (pml4_phys mp) ->
  fresh_frames allocate_frame (frames s0) (mem s0) (pml4_phys mp) ->
  (forall p, In p L -> Z.land p 0xFFF = 0) ->
  map_pages allocate_frame mp s0 L fl = Some s1 ->
  exists s2, map_pages allocate_frame mp s1 L fl = Some s2 /\
    (forall t i, mem s2 t i = mem s1 t i) /\ frames s2 = frames s1 /\ alloc_calls s2 = alloc_calls s1.
Proof.
  intros Htree Hfr Hal H.
  pose proof (pass1 allocate_frame mp fl L [] s0 s1 (inv1_init allocate_frame mp fl s0 Htree Hfr) H)
    as (Htree1 & _ & Hcomp & Hval).
  simpl in Hcomp, Hval.
  assert (Hinit : Inv2 mp fl s1 s1 []).
  { split; [reflexivity|]. split; [reflexivity|]. split; [auto|]. intros; reflexivity. }
  destruct (pass2 s1 L [] s1 Htree1) as (s2 & Hm & (Hf2 & Hc2 & Hd2 & Hv2));
    [intros p Hp; split; auto|exact Hinit|].
  exists s2. split; [exact Hm|]. split; [|auto].
  intros t i. destruct (Hd2 t i) as [E | (a & Ha & Hl & HT)]; [exact E|].
  rewrite (Hv2 a t i Ha Hl HT). simpl app.
  destruct (Hval a t i Ha Hl HT) as [x Hx]. rewrite Hx.
  apply (step_seq_idem _ (is_unused fl)). apply vals_unused.
Qed.
End Pass2.

(** The zeroed memory of [state_example] holds just the root table, and a
    list allocator hands out its frames in order. *)
Lemma zero_mem_table_at r p t : table_at (fun _ _ => 0) r p = Some t -> p = [] /\ t = r.
Proof.
  destruct p as [|i p]; simpl; [intros E; injection E as <-; auto|discriminate].
Qed.

Lemma zero_mem_tree r : is_tree (fun _ _ => 0) r.
Proof.
  intros p q t _ _ Hp Hq.
  destruct (zero_mem_table_at _ _ _ Hp) as [-> _], (zero_mem_table_at _ _ _ Hq) as [-> _].
  reflexivity.
Qed.

Lemma list_alloc_after_nil k : alloc_after list_allocate_frame [] k = [].
Proof. induction k as [|k IH]; [reflexivity|]. simpl. rewrite IH. reflexivity. Qed.

Lemma list_nth_frame l k : nth_frame list_allocate_frame l k = nth_error l k.
Proof.
  unfold nth_frame. revert l. induction k as [|k IH]; intros l.
  - destruct l; reflexivity.
  - rewrite alloc_after_S. destruct l as [|f l]; simpl.
    + rewrite list_alloc_after_nil. destruct k; reflexivity.
    + apply IH.
Qed.

Lemma list_fresh l r : NoDup l -> (forall f, In f l -> 0 <= f < 2 ^ 52 /\ f <> r) ->
  fresh_frames list_allocate_frame l (fun _ _ => 0) r.
Proof.
  intros Hnd Hl k f Hk. rewrite list_nth_frame in Hk.
  pose proof (nth_error_In _ _ Hk) as Hin. destruct (Hl f Hin) as [Hr Hne].
  split; [exact Hr|]. split.
  - intros [p [_ Hp]]. apply zero_mem_table_at in Hp. destruct Hp as [_ E]. congruence.
  - intros k' Hk' Hk''. rewrite list_nth_frame in Hk''.
    pose proof (proj1 (NoDup_nth_error l) Hnd k' k) as E.
    assert (Hlt : (k' < length l)%nat) by (apply nth_error_Some; congruence).
    specialize (E Hlt (eq_trans Hk'' (eq_sym Hk))). lia.
Qed.

(** ** Claims *)

(** C2: for every 64-bit handler, selector and IST index 0..7, the gate
    built by [new_with_ist] reads back the handler from its three offset
    fields, the selector, and the IST index from the low 3 bits of its
    options. *)
Lemma gate_roundtrip (cs handler ist : Z) :
  is_u64 handler -> 0 <= ist <= 7 ->
  let e := new_with_ist cs handler ist in
  gate_handler e = handler /\ selector e = cs /\ gate_ist e = ist.
Proof.
  intros Hh Hi e. subst e. unfold gate_handler, gate_ist, new_with_ist, IdtEntry_new, set_handler;
  cbn [offset_low offset_mid offset_high options selector reserved IdtEntry_missing].
  split; [|split; [reflexivity|]].
  - apply Z.bits_inj'; intros n Hn.
    replace 0xFFFF with (Z.ones 16) by reflexivity.
    replace 0xFFFFFFFF with (Z.ones 32) by reflexivity.
    destruct (Z.ltb_spec n 16); [tb; reflexivity|].
    destruct (Z.ltb_spec n 32); [tb; reflexivity|].
    destruct (Z.ltb_spec n 64); tb; [reflexivity|].
    rewrite testbit_u64_high by (auto; lia). reflexivity.
  - apply Z.bits_inj'; intros n Hn.
    replace 7 with (Z.ones 3) by reflexivity.
    replace 0xFFFF with (Z.ones 16) by reflexivity.
    destruct (Z.ltb_spec n 3).
    + tb. assert (n = 0 \/ n = 1 \/ n = 2) as [-> | [-> | ->]] by lia; reflexivity.
    + tb. symmetry. apply (testbit_lt_pow2 _ 3); lia.
Qed.


(** Witness: a higher-half handler with IST index 1. *)
Lemma gate_roundtrip_witness :
  let e := new_with_ist 0x08 0xFFFF800000201234 1 in
  gate_handler e = 0xFFFF800000201234 /\ selector e = 0x08 /\ gate_ist e = 1.
Proof.
  apply (gate_roundtrip 0x08 0xFFFF800000201234 1).
  - unfold is_u64, U64_MAX; lia.
  - lia.
Defined.

(** C3: for every page-aligned frame below 2^52 and every combination of
    the flags present, writable, user, huge page, no-execute, [set] then
    [addr] and the flag bits give back the frame and the flags; and the
    [addr] of every entry [set] produces is a multiple of 4096. *)
Lemma pte_roundtrip (frame : Z) (p w u h nx : bool) :
  Z.land frame 0xFFF = 0 -> 0 <= frame < 2 ^ 52 ->
  (exists v, pte_set frame (flag_combo p w u h nx) = Some v /\
             addr v = frame /\ entry_flags v = flag_combo p w u h nx) /\
  (forall frame' fl v, pte_set frame' fl = Some v -> addr v mod 4096 = 0).
Proof.
  intros Hal Hr. split.
  - unfold pte_set. rewrite Hal, Z.eqb_refl. eexists; split; [reflexivity|]. split.
    + unfold addr. apply Z.bits_inj'; intros n Hn.
      destruct (Z.ltb_spec n 12).
      * tb. symmetry. apply low_bits_zero; auto; lia.
      * destruct (Z.ltb_spec n 52); tb; [reflexivity|].
        symmetry. apply (testbit_lt_pow2 _ 52); lia.
    + unfold entry_flags. apply Z.bits_inj'; intros n Hn.
      destruct (Z.ltb_spec n 12); [tb; reflexivity|].
      destruct (Z.ltb_spec n 52).
      * tb. rewrite flag_combo_zero by lia. reflexivity.
      * destruct (Z.ltb_spec n 64); tb; [reflexivity|].
        rewrite flag_combo_zero by lia. reflexivity.
  - intros frame' fl v H. unfold pte_set in H.
    destruct (Z.land frame' 0xFFF =? 0); [|discriminate]. injection H as <-.
    unfold addr. change 4096 with (2 ^ 12). rewrite <- Z.land_ones by lia.
    apply Z.bits_inj'; intros n Hn. replace (Z.testbit 0 n) with false by (symmetry; apply Z.bits_0).
    destruct (Z.ltb_spec n 12); tb; reflexivity.
Qed.

(** Witness: frame 0x5000 with present, user and no-execute. *)
Lemma pte_roundtrip_witness :
  (exists v, pte_set 0x5000 (flag_combo true false true false true) = Some v /\
             addr v = 0x5000 /\ entry_flags v = flag_combo true false true false true) /\
  (forall frame' fl v, pte_set frame' fl = Some v -> addr v mod 4096 = 0).
Proof.
  apply (pte_roundtrip 0x5000 true false true false true).
  - reflexivity.
  - lia.
Defined.

(** C8 (amended): the gate encoder never rejects an IST index: an index
    above 7 is cut to its low 3 bits (8 gives 0, no IST); [set] rejects,
    through its debug assertion, exactly the frames that are not 4096-aligned. *)
Theorem encoders_contracts :
  (forall cs handler ist, 0 <= ist -> gate_ist (new_with_ist cs handler ist) = ist mod 8) /\
  (forall frame fl, pte_set frame fl = None <-> frame mod 4096 <> 0).
Proof.
  split.
  - intros cs handler ist Hi.
    unfold gate_ist, new_with_ist, IdtEntry_new, set_handler;
      cbn [offset_low offset_mid offset_high options selector reserved IdtEntry_missing].
    change 8 with (2 ^ 3). rewrite <- Z.land_ones by lia.
    apply Z.bits_inj'; intros n Hn.
    change 7 with (Z.ones 3). change 0xFFFF with (Z.ones 16).
    destruct (Z.ltb_spec n 3); tb; [|reflexivity].
    assert (n = 0 \/ n = 1 \/ n = 2) as [-> | [-> | ->]] by lia; reflexivity.
  - intros frame fl. unfold pte_set.
    change 0xFFF with (Z.ones 12). rewrite Z.land_ones by lia. change (2 ^ 12) with 4096.
    destruct (Z.eqb_spec (frame mod 4096) 0); split; congruence.
Qed.

(** C8 counterexample: IST index 8 is not rejected, it yields the same gate
    as IST index 0. *)
Lemma encoders_contracts_cex :
  new_with_ist 0x08 0x1000 8 = new_with_ist 0x08 0x1000 0 /\
  gate_ist (new_with_ist 0x08 0x1000 8) = 0.
Proof. split; reflexivity. Qed.

(** The master and slave 8259A with every line masked, as a boot firmware
    may leave them. *)
Definition pics_all_masked : Pic * Pic :=
  ({| icw_next := 0; icw4 := true; single := false; imr := 0xFF; vector_base := 0x08 |},
   {| icw_next := 0; icw4 := true; single := false; imr := 0xFF; vector_base := 0x70 |}).

(** C5 (amended): whatever state the controllers are in, [remap_pic]
    leaves both mask registers at 0x00: all sixteen IRQ lines unmasked; the
    vector bases are 0x20 and 0x28. *)
Theorem remap_pic_masks (ms : Pic * Pic) :
  let ms' := pics_run ms remap_pic in
  imr (fst ms') = 0 /\ imr (snd ms') = 0 /\
  vector_base (fst ms') = 0x20 /\ vector_base (snd ms') = 0x28 /\
  (forall n, 0 <= n < 16 -> irq_masked ms' n = false).
Proof.
  destruct ms as [m s]. cbn. repeat split.
  intros n Hn. unfold irq_masked. cbn [fst snd imr].
  destruct (n <? 8); apply Z.bits_0.
Qed.

(** C5 counterexample: after [remap_pic], IRQ line 2 is not masked. *)
Lemma remap_pic_masks_cex : irq_masked (pics_run pics_all_masked remap_pic) 2 = false.
Proof. reflexivity. Qed.

(** C6 (amended): [send_eoi] takes the remapped vector number (its callers
    pass 0x20 + line): it always writes the EOI command 0x20 to the master
    command port, as its last write, and writes it to the slave command
    port first iff the argument is at least 0x28, that is for IRQ lines 8
    to 15. *)
Theorem send_eoi_ports (irq : Z) :
  last (send_eoi irq) (0, 0) = (0x20, 0x20) /\
  (In (0xA0, 0x20) (send_eoi irq) <-> 0x28 <= irq) /\
  (forall n, 0 <= n < 16 -> (In (0xA0, 0x20) (send_eoi (0x20 + n)) <-> 8 <= n)).
Proof.
  assert (Hs : forall x, In (0xA0, 0x20) (send_eoi x) <-> 0x28 <= x).
  { intros x. unfold send_eoi. destruct (Z.leb_spec 0x28 x); simpl; split.
    - intros _; lia.
    - intros _; left; reflexivity.
    - intros [H' | []]. inversion H'.
    - lia. }
  split; [|split].
  - unfold send_eoi. destruct (0x28 <=? irq); reflexivity.
  - apply Hs.
  - intros n Hn. rewrite Hs. lia.
Qed.

(** C6 counterexample: [send_eoi 8] writes nothing to the slave controller. *)
Lemma send_eoi_ports_cex : send_eoi 8 = [(0x20, 0x20)] /\ ~ In (0xA0, 0x20) (send_eoi 8).
Proof. split; [reflexivity|]. simpl. intros [H | []]. inversion H. Qed.

(** C7 (amended): after [gdt::init] exactly one IST slot, storage index 0
    (IST 1 in gates), holds a non-zero value: the end of [DF_STACK], its
    base plus [DF_STACK_SIZE]; that value is 16-byte aligned exactly when
    the linker placed [DF_STACK] at a 16-byte aligned address, which the
    code does not request. *)
Theorem gdt_init_ist (df_stack : Z) (tss : TaskStateSegment) :
  gdt_init_tss df_stack TaskStateSegment_new = Some tss ->
  interrupt_stack_table tss = [df_stack + DF_STACK_SIZE; 0; 0; 0; 0; 0; 0] /\
  df_stack + DF_STACK_SIZE <> 0 /\
  DOUBLE_FAULT_IST_INDEX_FOR_IDT = 1 /\
  ((df_stack + DF_STACK_SIZE) mod 16 = 0 <-> df_stack mod 16 = 0).
Proof.
  intros H. unfold gdt_init_tss in H.
  destruct (VirtAddr_new df_stack) as [ss|] eqn:H1; [|discriminate].
  destruct (add64 ss DF_STACK_SIZE) as [e|] eqn:H2; [|discriminate].
  destruct (VirtAddr_new e) as [se|] eqn:H3; [|discriminate].
  injection H as <-.
  apply VirtAddr_new_spec in H1 as [-> Hb].
  apply add64_spec in H2 as [-> _].
  apply VirtAddr_new_spec in H3 as [-> _].
  cbn. split; [reflexivity|]. unfold DF_STACK_SIZE.
  split; [lia|]. split; [reflexivity|].
  rewrite Z.add_mod by lia. change (4096 * 5 mod 16) with 0.
  rewrite Z.add_0_r, Z.mod_mod by lia. tauto.
Qed.

(** Witness: [DF_STACK] at 0x200000. *)
Lemma gdt_init_ist_witness :
  gdt_init_tss 0x200000 TaskStateSegment_new =
    Some {| privilege_stack_table := [0; 0; 0];
            interrupt_stack_table := [0x205000; 0; 0; 0; 0; 0; 0] |} /\
  interrupt_stack_table {| privilege_stack_table := [0; 0; 0];
            interrupt_stack_table := [0x205000; 0; 0; 0; 0; 0; 0] |} =
    [0x200000 + DF_STACK_SIZE; 0; 0; 0; 0; 0; 0].
Proof.
  split; [reflexivity|].
  apply (proj1 (gdt_init_ist 0x200000 _ eq_refl)).
Defined.

(** C7 counterexample: with [DF_STACK] at 0x1001 the stored stack top is
    0x6001, not 16-byte aligned. *)
Lemma gdt_init_ist_cex :
  gdt_init_tss 0x1001 TaskStateSegment_new =
    Some {| privilege_stack_table := [0; 0; 0];
            interrupt_stack_table := [0x6001; 0; 0; 0; 0; 0; 0] |} /\
  0x6001 mod 16 <> 0.
Proof. split; [reflexivity | discriminate]. Qed.

(** C4 (amended): for [BumpFrameAllocator::new(start, end)] with
    [start <= end <= 2^64 - 8192], successive [allocate_frame] calls return
    [Some] for exactly the 4096-aligned addresses [f] with
    [start <= f < end], in strictly increasing order, then [None] on every
    later call.  When [end] is not page-aligned the last frame returned
    reaches past [end]. *)
Theorem bump_allocation (start end0 : Z) :
  0 <= start <= end0 -> end0 <= 2 ^ 64 - 8192 ->
  let frames := page_list (round_up start) (round_up end0) in
  (forall f, In f frames <-> f mod 4096 = 0 /\ start <= f < end0) /\
  (forall i j fi fj, (i < j)%nat -> nth_error frames i = Some fi ->
     nth_error frames j = Some fj -> fi < fj) /\
  exists b, BumpFrameAllocator_new start end0 = Some b /\
    forall N, bump_allocate_n b N =
      Some (map Some (firstn N frames) ++ repeat None (N - length frames)).
Proof.
  intros Hs He frames. subst frames.
  assert (Hm : (round_up end0 - round_up start) mod 4096 = 0)
    by (rewrite Zminus_mod, !round_up_aligned; reflexivity).
  split; [|split].
  - intros f. rewrite page_list_In by (auto; apply round_up_aligned).
    split.
    + intros [Hf [H1 H2]]. split; [exact Hf|].
      apply (proj1 (round_up_le_aligned start f Hf)) in H1.
      apply (proj1 (lt_round_up_aligned end0 f Hf)) in H2. lia.
    + intros [Hf [H1 H2]]. split; [exact Hf|].
      split; [apply round_up_le_aligned | apply lt_round_up_aligned]; auto.
  - intros i j fi fj. apply page_list_increasing.
  - exists {| next := round_up start; end_ := end0 |}. split.
    + unfold BumpFrameAllocator_new. rewrite align_up_spec by (unfold FRAME_SIZE, U64_MAX; lia).
      reflexivity.
    + intros N. apply bump_allocate_n_spec; auto.
      * apply round_up_aligned.
      * pose proof (round_bounds start). lia.
      * pose proof (round_bounds start). pose proof (round_bounds end0).
        unfold round_up, FRAME_SIZE. Z.div_mod_to_equations. lia.
Qed.

(** Witness: [new(0x1000, 0x4000)] yields 0x1000, 0x2000, 0x3000, then [None]. *)
Lemma bump_allocation_witness :
  exists b, BumpFrameAllocator_new 0x1000 0x4000 = Some b /\
    bump_allocate_n b 5 = Some [Some 0x1000; Some 0x2000; Some 0x3000; None; None].
Proof.
  destruct (bump_allocation 0x1000 0x4000 ltac:(lia) ltac:(lia)) as [_ [_ [b [Hb Hn]]]].
  exists b. split; [exact Hb|]. rewrite Hn. reflexivity.
Defined.

(** C4 counterexample: the region [0, 4097) holds one whole frame, yet the
    allocator built over it returns two frames, the second one ending at
    8192, past the region. *)
Lemma bump_allocation_cex :
  exists b, BumpFrameAllocator_new 0 4097 = Some b /\
    bump_allocate_n b 3 = Some [Some 0; Some 4096; None] /\
    (4097 - 0) / FRAME_SIZE = 1.
Proof. eexists. split; [reflexivity|]. split; reflexivity. Qed.

(** C10 (amended): for [end < 2^64 - 4096], [identity_map_range(start,
    end)] maps, in increasing order, exactly the pages whose base lies in
    [start] rounded down, [end] rounded up; when the rounded start is not
    below the rounded end it returns the state untouched, with no
    allocator call.  (A larger [end] overflows in [align_up] and panics.) *)
Theorem identity_map_range_exact {A : Type} (allocate_frame : A -> option Z * A)
    (mp : Mapper) (s : MState A) (start end0 fl : Z) :
  is_u64 start -> 0 <= end0 < 2 ^ 64 - 4096 ->
  identity_map_range allocate_frame mp s start end0 fl =
    map_pages allocate_frame mp s (page_list (round_down start) (round_up end0)) fl /\
  (forall p, In p (page_list (round_down start) (round_up end0)) <->
     p mod 4096 = 0 /\ round_down start <= p < round_up end0) /\
  (forall i j pi pj, (i < j)%nat ->
     nth_error (page_list (round_down start) (round_up end0)) i = Some pi ->
     nth_error (page_list (round_down start) (round_up end0)) j = Some pj -> pi < pj) /\
  (round_up end0 <= round_down start ->
     identity_map_range allocate_frame mp s start end0 fl = Some s).
Proof.
  intros Hs He.
  assert (Hm : (round_up end0 - round_down start) mod 4096 = 0)
    by (rewrite Zminus_mod, round_up_aligned, round_down_aligned; reflexivity).
  split; [|split; [|split]].
  - apply identity_map_range_as_pages; auto.
  - intros p. apply page_list_In; auto. apply round_down_aligned.
  - intros i j pi pj. apply page_list_increasing.
  - intros Hle. rewrite identity_map_range_as_pages by auto.
    rewrite page_list_nil by exact Hle. reflexivity.
Qed.

(** Witness: [identity_map_range(0x1234, 0x3001)] maps the pages 0x1000,
    0x2000 and 0x3000. *)
Lemma identity_map_range_exact_witness :
  identity_map_range list_allocate_frame mapper_example
      (state_example [0x10000; 0x11000; 0x12000]) 0x1234 0x3001 flags.PRESENT =
    map_pages list_allocate_frame mapper_example
      (state_example [0x10000; 0x11000; 0x12000]) [0x1000; 0x2000; 0x3000] flags.PRESENT.
Proof.
  destruct (identity_map_range_exact list_allocate_frame mapper_example
              (state_example [0x10000; 0x11000; 0x12000]) 0x1234 0x3001 flags.PRESENT)
    as [H _]; [unfold is_u64, U64_MAX; lia | lia |].
  rewrite H. reflexivity.
Defined.

(** C10 counterexample: [start = end = 2^64 - 4096] is an empty range after
    rounding, yet the call panics instead of mapping nothing. *)
Lemma identity_map_range_exact_cex :
  round_up (2 ^ 64 - 4096) <= round_down (2 ^ 64 - 4096) /\
  identity_map_range list_allocate_frame mapper_example (state_example [])
    (2 ^ 64 - 4096) (2 ^ 64 - 4096) flags.PRESENT = None.
Proof. split; [vm_compute; discriminate | reflexivity]. Qed.

(** C9: one level of the walk, [ensure_next_table] on entry [i] of the
    table at [t].  A present entry is left as it is and its address is the
    next table.  An absent entry takes one frame [f] from the allocator
    (a [None] panics), the table at [f] is zeroed, and the entry becomes [f]
    with exactly the flags present and writable; nothing else changes.  The
    four indices are the 9-bit slices 39..47, 30..38, 21..29 and 12..20 of
    the virtual address. *)
Theorem ensure_next_table_levels {A : Type} (allocate_frame : A -> option Z * A)
    (mp : Mapper) (s : MState A) (t i : Z) :
  0 <= i < ENTRIES_PER_TABLE -> t + phys_offset mp <= U64_MAX ->
  (is_unused (mem s t i) = false ->
     ensure_next_table allocate_frame mp s t i = Some (addr (mem s t i), s)) /\
  (is_unused (mem s t i) = true -> fst (allocate_frame (frames s)) = None ->
     ensure_next_table allocate_frame mp s t i = None) /\
  (forall f a', is_unused (mem s t i) = true -> allocate_frame (frames s) = (Some f, a') ->
     f mod 4096 = 0 -> 0 <= f < 2 ^ 52 -> f + phys_offset mp <= U64_MAX ->
     exists s', ensure_next_table allocate_frame mp s t i = Some (f, s') /\
       frames s' = a' /\ alloc_calls s' = S (alloc_calls s) /\
       mem s' t i = Z.lor f (Z.lor flags.PRESENT flags.WRITABLE) /\
       is_unused (mem s' t i) = false /\ addr (mem s' t i) = f /\
       entry_flags (mem s' t i) = Z.lor flags.PRESENT flags.WRITABLE /\
       (forall j, 0 <= j < ENTRIES_PER_TABLE -> (f, j) <> (t, i) -> mem s' f j = 0) /\
       (forall x j, x <> f -> (x, j) <> (t, i) -> mem s' x j = mem s x j)) /\
  (forall v n, 0 <= n ->
     Z.testbit (pml4_index v) n = (n <? 9) && Z.testbit v (39 + n) /\
     Z.testbit (pdpt_index v) n = (n <? 9) && Z.testbit v (30 + n) /\
     Z.testbit (pd_index v) n = (n <? 9) && Z.testbit v (21 + n) /\
     Z.testbit (pt_index v) n = (n <? 9) && Z.testbit v (12 + n)).
Proof.
  intros Hi Ht.
  assert (Hidx : (i <? ENTRIES_PER_TABLE) = true) by (apply Z.ltb_lt; lia).
  unfold ensure_next_table, table_mut.
  rewrite (proj2 (Z.leb_le _ _) Ht), Hidx. cbn [negb].
  split; [|split; [|split]].
  - intros Hu. rewrite Hu. reflexivity.
  - intros Hu Hn. rewrite Hu. unfold allocate.
    destruct (allocate_frame (frames s)) as [[f|] a']; [discriminate|reflexivity].
  - intros f a' Hu Ha Hal Hr Hf. rewrite Hu. unfold allocate. rewrite Ha. cbn [mem].
    rewrite (proj2 (Z.leb_le _ _) Hf).
    assert (Hal' : Z.land f 0xFFF = 0)
      by (change 0xFFF with (Z.ones 12); rewrite Z.land_ones by lia; exact Hal).
    destruct (pte_set f (Z.lor flags.PRESENT flags.WRITABLE)) as [v|] eqn:Hv.
    2:{ unfold pte_set in Hv. rewrite Hal' in Hv. discriminate. }
    destruct (pte_set_spec _ _ _ Hr Hv) as (_ & Hv' & Ha' & Hfl & Hun).
    change (Z.land (Z.lor flags.PRESENT flags.WRITABLE) (not64 ADDRESS_MASK))
      with (Z.lor flags.PRESENT flags.WRITABLE) in Hv', Hfl.
    eexists. split; [reflexivity|].
    unfold with_mem, mem_set_entry, mem_zero_table. cbn [mem frames alloc_calls].
    rewrite !Z.eqb_refl. cbn [andb].
    split; [reflexivity|]. split; [reflexivity|]. split; [exact Hv'|].
    split; [rewrite Hun; reflexivity|]. split; [exact Ha'|]. split; [exact Hfl|].
    split.
    + intros j Hj Hne.
      assert (Hb : ((f =? t) && (j =? i))%bool = false).
      { destruct (Z.eqb_spec f t), (Z.eqb_spec j i); subst; try reflexivity.
        exfalso; apply Hne; reflexivity. }
      rewrite Hb, (proj2 (Z.leb_le 0 j)), (proj2 (Z.ltb_lt j _)) by lia.
      reflexivity.
    + intros x j Hx Hne.
      assert (Hb : ((x =? t) && (j =? i))%bool = false).
      { destruct (Z.eqb_spec x t), (Z.eqb_spec j i); subst; try reflexivity.
        exfalso; apply Hne; reflexivity. }
      rewrite Hb, (proj2 (Z.eqb_neq _ _) Hx). reflexivity.
  - intros v n Hn. unfold pml4_index, pdpt_index, pd_index, pt_index.
    rewrite !index_bits by lia. auto.
Qed.

(** Witness: an absent entry 3 of the PML4 at 0x1000, with the frame 0x5000
    handed out, becomes 0x5003. *)
Lemma ensure_next_table_levels_witness :
  exists s', ensure_next_table list_allocate_frame mapper_example
      (state_example [0x5000]) 0x1000 3 = Some (0x5000, s') /\
    mem s' 0x1000 3 = 0x5003.
Proof.
  destruct (ensure_next_table_levels list_allocate_frame mapper_example
              (state_example [0x5000]) 0x1000 3) as (_ & _ & H & _);
    [unfold ENTRIES_PER_TABLE; lia | vm_compute; discriminate |].
  destruct (H 0x5000 []) as (s' & E & _ & _ & Hm & _);
    [reflexivity | reflexivity | reflexivity | lia | vm_compute; discriminate |].
  exists s'. split; [exact E | rewrite Hm; reflexivity].
Defined.

(** C1 (amended): when the existing hierarchy is a tree (no table reached
    under two index paths) and the allocator hands out distinct frames below
    2^52 that are not tables of it, a second [identity_map_range] with the
    same arguments succeeds whenever the first did, leaves every entry as
    the first call left it, and calls the allocator no more.  At the leaf,
    [map_page] on a page whose path exists and whose entry is present
    changes nothing. *)
Theorem identity_map_range_idempotent {A : Type} (allocate_frame : A -> option Z * A)
    (mp : Mapper) (s s1 : MState A) (start end0 fl : Z) :
  is_u64 start -> is_u64 end0 ->
  is_tree (mem s) (pml4_phys mp) ->
  fresh_frames allocate_frame (frames s) (mem s) (pml4_phys mp) ->
  identity_map_range allocate_frame mp s start end0 fl = Some s1 ->
  (exists s2, identity_map_range allocate_frame mp s1 start end0 fl = Some s2 /\
     (forall t i, mem s2 t i = mem s1 t i) /\
     frames s2 = frames s1 /\ alloc_calls s2 = alloc_calls s1) /\
  (forall (s' : MState A) virt phys T, complete mp (mem s') virt ->
     table_at (mem s') (pml4_phys mp) (tup virt) = Some T ->
     is_unused (mem s' T (pt_index virt)) = false ->
     map_page allocate_frame mp s' virt phys fl = Some s').
Proof.
  intros Hs He Htree Hfr H. split; [|intros; eapply map_page_present; eauto].
  destruct (Z.ltb_spec end0 (2 ^ 64 - 4096)) as [Hlt|Hge].
  - assert (He' : 0 <= end0 < 2 ^ 64 - 4096) by (unfold is_u64 in He; lia).
    rewrite identity_map_range_as_pages in H |- * by auto.
    apply (map_pages_twice allocate_frame mp fl s s1); auto.
    intros p Hp. apply page_list_In in Hp;
      [|apply round_down_aligned
       |rewrite Zminus_mod, round_up_aligned, round_down_aligned; reflexivity].
    change 0xFFF with (Z.ones 12). rewrite Z.land_ones by lia. apply Hp.
  - unfold identity_map_range in H.
    rewrite align_up_overflow in H by (unfold FRAME_SIZE, U64_MAX; lia). discriminate.
Qed.

(** Witness: mapping 0x0..0x3000 over a fresh root with the frames 0x2000,
    0x3000 and 0x4000, then again. *)
Lemma identity_map_range_idempotent_witness :
  exists s1 s2,
    identity_map_range list_allocate_frame mapper_example
      (state_example [0x2000; 0x3000; 0x4000]) 0 0x3000 3 = Some s1 /\
    identity_map_range list_allocate_frame mapper_example s1 0 0x3000 3 = Some s2 /\
    (forall t i, mem s2 t i = mem s1 t i) /\ alloc_calls s2 = alloc_calls s1.
Proof.
  destruct (identity_map_range list_allocate_frame mapper_example
              (state_example [0x2000; 0x3000; 0x4000]) 0 0x3000 3) as [s1|] eqn:E1;
    [|vm_compute in E1; discriminate].
  destruct (identity_map_range_idempotent list_allocate_frame mapper_example
              (state_example [0x2000; 0x3000; 0x4000]) s1 0 0x3000 3)
    as [(s2 & E2 & Hm & _ & Hc) _].
  - unfold is_u64, U64_MAX; lia.
  - unfold is_u64, U64_MAX; lia.
  - apply zero_mem_tree.
  - apply list_fresh.
    + repeat constructor; simpl; intuition discriminate.
    + simpl. intros f [<- | [<- | [<- | []]]]; cbn; split; try lia; discriminate.
  - exact E1.
  - exists s1, s2. auto.
Defined.

(** C1 counterexample: with an allocator that hands out 0x2000 again (the
    frame it gave for the PDPT), the first call over 0x0..0x200001 zeroes
    that PDPT when it reuses it as a page table; the second identical call
    then finds the path gone, calls the allocator again and panics. *)
Lemma identity_map_range_idempotent_cex :
  exists s1,
    identity_map_range list_allocate_frame mapper_example
      (state_example [0x2000; 0x3000; 0x4000; 0x2000]) 0 0x200001 3 = Some s1 /\
    identity_map_range list_allocate_frame mapper_example s1 0 0x200001 3 = None.
Proof.
  exists (match identity_map_range list_allocate_frame mapper_example
                  (state_example [0x2000; 0x3000; 0x4000; 0x2000]) 0 0x200001 3 with
          | Some s1 => s1 | None => state_example [] end).
  split; vm_compute; reflexivity.
Qed.

(** ** Further properties of the kernel *)

(** Lemmas *)

Lemma array_set_spec {T : Type} (l : list T) i v l' :
  array_set l i v = Some l' -> length l' = length l /\ (i < length l)%nat /\
  forall j d, nth j l' d = if Nat.eqb j i then v else nth j l d.
Proof.
  revert i l'. induction l as [|x r IH]; intros i l' H; [discriminate|].
  destruct i as [|i']; simpl in H.
  - injection H as <-. simpl. split; [reflexivity|]. split; [lia|].
    intros [|j] d; reflexivity.
  - destruct (array_set r i' v) as [r'|] eqn:E; [|discriminate].
    injection H as <-. destruct (IH i' r' E) as (H1 & H2 & H3).
    simpl. split; [congruence|]. split; [lia|].
    intros [|j] d; [reflexivity|]. simpl. apply H3.
Qed.

Lemma array_set_some {T : Type} (l : list T) i v :
  (i < length l)%nat -> exists l', array_set l i v = Some l'.
Proof.
  revert i. induction l as [|x r IH]; intros i Hi; [simpl in Hi; lia|].
  destruct i as [|i']; simpl; [exists (v :: r); reflexivity|].
  destruct (IH i') as [r' E]; [simpl in Hi; lia|]. rewrite E. exists (x :: r'). reflexivity.
Qed.

Lemma mod256_inj t x y : (x < 256)%nat -> (y < 256)%nat ->
  Nat.modulo (t + x) 256 = Nat.modulo (t + y) 256 -> x = y.
Proof.
  intros Hx Hy E.
  pose proof (Nat.div_mod_eq (t + x) 256). pose proof (Nat.div_mod_eq (t + y) 256).
  pose proof (Nat.mod_upper_bound (t + x) 256 ltac:(lia)). lia.
Qed.

Lemma queue_push_spec q sc : queue_inv q ->
  exists q', push q sc = Some q' /\ queue_inv q' /\
    contents q' = if Nat.eqb (len q) SCANCODE_QUEUE_CAPACITY then contents q else contents q ++ [sc].
Proof.
  intros (Hl & Ht & Hn & Hh). unfold push.
  destruct (Nat.eqb_spec (len q) SCANCODE_QUEUE_CAPACITY) as [E|Hne].
  - exists q. split; [reflexivity|]. split; [repeat split; auto|reflexivity].
  - assert (Hhl : (head q < length (buffer q))%nat).
    { rewrite Hh, Hl. apply Nat.mod_upper_bound. unfold SCANCODE_QUEUE_CAPACITY. lia. }
    destruct (array_set_some (buffer q) (head q) sc Hhl) as [b Hb]. rewrite Hb.
    destruct (array_set_spec _ _ _ _ Hb) as (Hbl & _ & Hbn).
    eexists. split; [reflexivity|]. unfold queue_inv, contents. cbn [buffer head tail len].
    split; [split; [|split; [|split]]|].
    + congruence.
    + exact Ht.
    + unfold SCANCODE_QUEUE_CAPACITY in *. lia.
    + rewrite Hh. rewrite Nat.Div0.add_mod_idemp_l by (unfold SCANCODE_QUEUE_CAPACITY; lia).
      f_equal. lia.
    + rewrite Nat.add_1_r, seq_S, map_app. cbn [map]. f_equal.
      * apply map_ext_in. intros k Hk. apply in_seq in Hk. rewrite Hbn.
        destruct (Nat.eqb_spec ((tail q + k) mod SCANCODE_QUEUE_CAPACITY) (head q)) as [E|]; [|reflexivity].
        exfalso. rewrite Hh in E. unfold SCANCODE_QUEUE_CAPACITY in *.
        apply mod256_inj in E; lia.
      * rewrite Nat.add_0_l, Hbn, <- Hh, Nat.eqb_refl. reflexivity.
Qed.

Lemma queue_pop_spec q : queue_inv q ->
  exists r q', pop q = Some (r, q') /\ queue_inv q' /\
    match contents q with
    | [] => r = None /\ contents q' = []
    | x :: xs => r = Some x /\ contents q' = xs
    end.
Proof.
  intros (Hl & Ht & Hn & Hh). unfold pop.
  destruct (len q) as [|n] eqn:En.
  - exists None, q. split; [reflexivity|]. unfold queue_inv, contents. rewrite En.
    unfold SCANCODE_QUEUE_CAPACITY in *. split; [split; [|split; [|split]]|]; auto. simpl. auto.
  - cbn [Nat.eqb].
    assert (Htl : (tail q < length (buffer q))%nat) by (rewrite Hl; exact Ht).
    destruct (nth_error (buffer q) (tail q)) as [x|] eqn:Ex;
      [|apply nth_error_None in Ex; lia].
    eexists _, _. split; [reflexivity|]. unfold queue_inv, contents. cbn [buffer head tail len].
    rewrite En. unfold SCANCODE_QUEUE_CAPACITY in *.
    split; [split; [exact Hl|split; [apply Nat.mod_upper_bound; lia|split; [lia|]]]|].
    + rewrite Hh, Nat.Div0.add_mod_idemp_l. f_equal. lia.
    + cbn [seq map]. rewrite Nat.add_0_r, Nat.mod_small by exact Ht.
      split; [f_equal; symmetry; apply nth_error_nth; exact Ex|].
      replace (S n - 1)%nat with n by lia. rewrite <- seq_shift, map_map. apply map_ext. intros k.
      rewrite Nat.Div0.add_mod_idemp_l. f_equal. f_equal. lia.
Qed.

Lemma contents_length q : length (contents q) = len q.
Proof. unfold contents. rewrite length_map, length_seq. reflexivity. Qed.

(** X1: from an empty queue, any sequence of [push_scancode] and [pop_scancode] never panics and behaves as a FIFO of capacity 256 that drops a scancode pushed onto a full queue. *)
Theorem scancode_queue_fifo (ops : list QueueOp) :
  exists rs q', run_queue ScancodeQueue_new ops = Some (rs, q') /\
    run_fifo [] ops = (rs, contents q').
Proof.
  assert (G : forall ops q, queue_inv q -> exists rs q', run_queue q ops = Some (rs, q') /\
             run_fifo (contents q) ops = (rs, contents q')).
  { induction ops0 as [|op ops0 IH]; intros q Hq.
    - exists [], q. auto.
    - destruct op as [sc|].
      + destruct (queue_push_spec q sc Hq) as (q1 & Hp & Hq1 & Hc).
        destruct (IH q1 Hq1) as (rs & q' & Hr & Hf).
        exists rs, q'. simpl. rewrite Hp. split; [exact Hr|].
        rewrite contents_length, <- Hc. exact Hf.
      + destruct (queue_pop_spec q Hq) as (r & q1 & Hp & Hq1 & Hc).
        destruct (IH q1 Hq1) as (rs & q' & Hr & Hf).
        exists (r :: rs), q'. simpl. rewrite Hp, Hr. split; [reflexivity|].
        destruct (contents q) as [|x xs]; destruct Hc as [-> Hc]; rewrite Hc in Hf; rewrite Hf;
          reflexivity. }
  apply G. unfold queue_inv, ScancodeQueue_new. cbn [buffer head tail len].
  rewrite repeat_length. unfold SCANCODE_QUEUE_CAPACITY. repeat split; lia.
Qed.

Lemma byte_split c : 0 <= c < 65536 ->
  Z.land (Z.land c 0xFF) 0xFF + 256 * Z.land (Z.shiftr c 8) 0xFF = c.
Proof.
  intros Hc. change 0xFF with (Z.ones 8).
  rewrite Z.land_ones, Z.land_ones, Z.land_ones, Z.shiftr_div_pow2 by lia.
  rewrite Z.mod_mod by lia.
  change (2 ^ 8) with 256.
  rewrite (Z.mod_small (c / 256)) by (split; [apply Z.div_pos|apply Z.div_lt_upper_bound]; lia).
  pose proof (Z.div_mod c 256). lia.
Qed.

(** X2: [init_pit] panics for [hz = 0]; for [hz > 0] it records [hz], keeps the tick count and programs channel 0 in mode 3, lobyte/hibyte, with reload [1193182 / hz] clamped to [1..65535]. *)
Theorem init_pit_programs (st : TimeState) (hz : Z) (p : Pit) :
  (hz = 0 -> init_pit st hz = None) /\
  (0 < hz -> exists ws st', init_pit st hz = Some (ws, st') /\
     HZ st' = hz /\ TICKS st' = TICKS st /\
     pit_access (pit_run p ws) = 3 /\ pit_mode (pit_run p ws) = 3 /\
     pit_low (pit_run p ws) = None /\
     pit_reload (pit_run p ws) =
       (if hz <=? 18 then 65535 else if hz <=? 1193182 then 1193182 / hz else 1)).
Proof.
  split; [intros ->; reflexivity|]. intros Hpos.
  unfold init_pit. rewrite (proj2 (Z.eqb_neq hz 0)) by lia.
  eexists _, _. split; [reflexivity|]. split; [reflexivity|]. split; [reflexivity|].
  set (c := Z.max 1 (Z.min 65535 (1193182 / hz))).
  assert (Hc : 0 <= c < 65536) by (subst c; lia).
  unfold pit_run. cbn [fold_left pit_out]. cbn. 
  split; [reflexivity|]. split; [reflexivity|]. split; [reflexivity|].
  rewrite byte_split by exact Hc. subst c.
  destruct (Z.leb_spec hz 18).
  - assert (65536 <= 1193182 / hz) by (apply Z.div_le_lower_bound; lia).
    lia.
  - destruct (Z.leb_spec hz 1193182).
    + assert (1 <= 1193182 / hz) by (apply Z.div_le_lower_bound; lia).
      assert (1193182 / hz <= 65535) by (apply Z.div_le_upper_bound; lia).
      lia.
    + rewrite (Z.div_small 1193182 hz) by lia. lia.
Qed.

Lemma ticks_iter st n : 0 <= TICKS st < 2 ^ 64 ->
  HZ (Nat.iter n (fun s => snd (timer_interrupt_handler s)) st) = HZ st /\
  TICKS (Nat.iter n (fun s => snd (timer_interrupt_handler s)) st) = (TICKS st + Z.of_nat n) mod 2 ^ 64.
Proof.
  intros Ht. induction n as [|n [IH1 IH2]].
  - simpl. split; [reflexivity|]. rewrite Z.add_0_r, Z.mod_small by exact Ht. reflexivity.
  - rewrite Nat.iter_succ. remember (Nat.iter n _ st) as x.
    unfold timer_interrupt_handler, tick. cbn [snd HZ TICKS].
    rewrite IH1, IH2. split; [reflexivity|].
    rewrite Zplus_mod_idemp_l, Nat2Z.inj_succ. f_equal. lia.
Qed.

(** X3: after [init_pit 100] from boot and [n] timer interrupts, [uptime_ms] is [10 * t] with [t = n mod 2^64], and panics once [t * 1000] overflows. *)
Theorem uptime_after_boot (n : nat) :
  exists ws st, init_pit time_boot 100 = Some (ws, st) /\
    uptime_ms (Nat.iter n (fun s => snd (timer_interrupt_handler s)) st) =
      (let t := Z.of_nat n mod 2 ^ 64 in if t * 1000 <=? U64_MAX then Some (10 * t) else None).
Proof.
  eexists _, _. split; [reflexivity|].
  destruct (ticks_iter {| HZ := 100; TICKS := TICKS time_boot |} n) as [H1 H2];
    [cbn; lia|].
  unfold uptime_ms. rewrite H1, H2. cbn [HZ TICKS time_boot]. rewrite Z.add_0_l.
  destruct (_ <=? _); [|reflexivity].
  change (Z.max 1 100) with 100. f_equal.
  replace (Z.of_nat n mod 2 ^ 64 * 1000) with (10 * (Z.of_nat n mod 2 ^ 64) * 100) by ring.
  apply Z.div_mul. lia.
Qed.

(** X4: both [align_up] functions return the 4096-aligned [r] with [a <= r < a + 4096]; paging.rs panics when [a + 4096] overflows, main.rs only when [a + 4095] does. *)
Theorem align_up_both (a : Z) : is_u64 a ->
  (a + FRAME_SIZE <= U64_MAX -> exists r, align_up a = Some r /\
     r mod FRAME_SIZE = 0 /\ a <= r < a + FRAME_SIZE) /\
  (U64_MAX < a + FRAME_SIZE -> align_up a = None) /\
  (a + FRAME_SIZE - 1 <= U64_MAX -> exists r, main_align_up a = Some r /\
     r mod FRAME_SIZE = 0 /\ a <= r < a + FRAME_SIZE) /\
  (U64_MAX < a + FRAME_SIZE - 1 -> main_align_up a = None).
Proof.
  intros Ha. unfold is_u64 in Ha.
  assert (Hr : round_up a mod FRAME_SIZE = 0 /\ a <= round_up a < a + FRAME_SIZE).
  { split; [apply round_up_aligned|]. pose proof (round_bounds a). unfold FRAME_SIZE. lia. }
  split; [|split; [|split]].
  - intros H. exists (round_up a). split; [apply align_up_spec; lia|exact Hr].
  - apply align_up_overflow.
  - intros H. exists (round_up a). split; [|exact Hr].
    unfold main_align_up, add64. rewrite (proj2 (Z.leb_le _ _)) by (unfold FRAME_SIZE in *; lia).
    change (FRAME_SIZE - 1) with 4095. rewrite land_not64_4095 by (unfold FRAME_SIZE in *; lia).
    unfold round_up, FRAME_SIZE. replace (a + 4096 - 1) with (a + 4095) by lia. reflexivity.
  - intros H. unfold main_align_up, add64. rewrite (proj2 (Z.leb_gt _ _)) by lia. reflexivity.
Qed.

Lemma uart_thr u v : Z.testbit (lcr u) 7 = false ->
  uart_out u (COM1 + RBR_THR_DLL, v) =
  {| dll := dll u; dlm := dlm u; ier := ier u; lcr := lcr u; fcr := fcr u; mcr := mcr u;
     tx := tx u ++ [v] |}.
Proof. intros Hd. unfold uart_out. rewrite Hd. reflexivity. Qed.

Lemma uart_write_str u s : Z.testbit (lcr u) 7 = false ->
  uart_run u (write_str s) =
  {| dll := dll u; dlm := dlm u; ier := ier u; lcr := lcr u; fcr := fcr u; mcr := mcr u;
     tx := tx u ++ crlf s |}.
Proof.
  unfold uart_run. revert u. induction s as [|b s IH]; intros u Hd.
  - destruct u; simpl. rewrite app_nil_r. reflexivity.
  - cbn [write_str flat_map crlf]. rewrite fold_left_app.
    destruct (Z.eqb_spec b 10) as [->|Hb].
    + cbn [Z.eqb Pos.eqb write_byte_blocking app fold_left].
      rewrite (uart_thr u 13 Hd), uart_thr by exact Hd.
      rewrite IH by exact Hd. cbn [dll dlm ier lcr fcr mcr tx]. rewrite <- !app_assoc. reflexivity.
    + cbn [write_byte_blocking app fold_left].
      rewrite uart_thr by exact Hd.
      rewrite IH by exact Hd. cbn [dll dlm ier lcr fcr mcr tx]. rewrite <- !app_assoc. reflexivity.
Qed.

(** X5: after [init_unsafe_16550_default] and [write_str s] the UART runs at divisor 1, 8N1, FIFO 0xC7, MCR 0x0B, and has sent [s] with each newline as CR LF; IER is cleared only if DLAB was clear on entry. *)
Theorem serial_init_then_write (u : Uart) (s : list Z) :
  let u' := uart_run u (init_unsafe_16550_default ++ write_str s) in
  dll u' = 1 /\ dlm u' = 0 /\ lcr u' = 0x03 /\ fcr u' = 0xC7 /\ mcr u' = 0x0B /\
  ier u' = (if Z.testbit (lcr u) 7 then ier u else 0) /\
  tx u' = tx u ++ crlf s.
Proof.
  intros u'. subst u'. unfold uart_run. rewrite fold_left_app.
  assert (E : fold_left uart_out init_unsafe_16550_default u =
              {| dll := 1; dlm := 0; ier := if Z.testbit (lcr u) 7 then ier u else 0;
                 lcr := 3; fcr := 0xC7; mcr := 0x0B; tx := tx u |}).
  { destruct u as [a b c d e f g]. cbn -[Z.testbit].
    destruct (Z.testbit d 7); reflexivity. }
  rewrite E. change (fold_left uart_out (write_str s) ?x) with (uart_run x (write_str s)).
  rewrite uart_write_str by reflexivity. cbn [dll dlm ier lcr fcr mcr tx].
  repeat split; reflexivity.
Qed.








Section Leaf.
Context {A : Type} (allocate_frame : A -> option Z * A) (mp : Mapper) (fl : Z).

Lemma ensure_leaf s pre t i t' s' :
  is_tree (mem s) (pml4_phys mp) ->
  fresh_frames allocate_frame (frames s) (mem s) (pml4_phys mp) ->
  valid_prefix (pre ++ [i]) ->
  table_at (mem s) (pml4_phys mp) pre = Some t ->
  ensure_next_table allocate_frame mp s t i = Some (t', s') ->
  LeafP (pml4_phys mp) (mem s) (mem s').
Proof.
  intros Htree Hfr Hv Ht H.
  destruct (valid_snoc _ _ Hv) as (Hpre & Hi & Hlen).
  unfold ensure_next_table in H.
  destruct (table_mut mp t) as [t0|] eqn:Htm; [|discriminate].
  destruct (table_mut_ok _ _ _ Htm) as [-> Hok].
  rewrite (proj2 (Z.ltb_lt i _) (proj2 Hi)) in H. cbn [negb] in H.
  destruct (is_unused (mem s t i)) eqn:Hu.
  - unfold allocate in H.
    destruct (allocate_frame (frames s)) as [[f|] a'] eqn:Ha; [|discriminate].
    destruct (table_mut mp f) as [nt|] eqn:Hfm; [|discriminate].
    destruct (table_mut_ok _ _ _ Hfm) as [-> _].
    cbn [mem] in H.
    destruct (pte_set f (Z.lor flags.PRESENT flags.WRITABLE)) as [v|] eqn:Hv'; [|discriminate].
    injection H as <- <-.
    assert (Hf0 : nth_frame allocate_frame (frames s) 0 = Some f)
      by (unfold nth_frame; simpl; rewrite Ha; reflexivity).
    destruct (Hfr 0%nat f Hf0) as (Hfr52 & Hfnu & _).
    destruct (pte_set_spec _ _ _ Hfr52 Hv') as (_ & _ & Haddr & _ & Hvu).
    change (is_unused (Z.lor flags.PRESENT flags.WRITABLE)) with false in Hvu.
    destruct (attach_facts (mem s) (pml4_phys mp) t pre i f v Htree Ht Hv Hu Hfnu Haddr Hvu)
      as (Hmono & Hnew & Hback & Htree').
    assert (Htf : t <> f) by (intros ->; apply Hfnu; exists pre; auto).
    unfold with_mem. cbn [mem]. split.
    + intros a T j Ha3 Hl HT. unfold mem_set_entry, mem_zero_table.
      assert (HTf : T <> f) by (intros ->; apply Hfnu; exists a; auto).
      assert (HTt : T <> t).
      { intros ->. pose proof (tree_len _ _ _ _ _ Htree Ha3 Hpre HT Ht). lia. }
      rewrite (proj2 (Z.eqb_neq T t) HTt), (proj2 (Z.eqb_neq T f) HTf). reflexivity.
    + intros a T j Ha3 Hl HT Hj. destruct (Hback a T Ha3 HT) as [HT0 | [-> _]]; [left; exact HT0|].
      right. unfold mem_set_entry, mem_zero_table.
      rewrite (proj2 (Z.eqb_neq f t)) by congruence. rewrite Z.eqb_refl.
      rewrite (proj2 (Z.leb_le 0 j)), (proj2 (Z.ltb_lt j _)) by lia. reflexivity.
  - injection H as <- <-. split; [intros; reflexivity|]. intros a T j _ _ HT _. left. exact HT.
Qed.

Lemma walk_leaf idxs : forall pre t s T s',
  is_tree (mem s) (pml4_phys mp) ->
  fresh_frames allocate_frame (frames s) (mem s) (pml4_phys mp) ->
  valid_prefix (pre ++ idxs) ->
  table_at (mem s) (pml4_phys mp) pre = Some t ->
  walk allocate_frame mp s t idxs = Some (T, s') ->
  LeafP (pml4_phys mp) (mem s) (mem s').
Proof.
  induction idxs as [|i rest IH]; intros pre t s T s' Htree Hfr Hv Ht H.
  - simpl in H. injection H as <- <-. split; [intros; reflexivity|].
    intros a T0 j _ _ HT _. left. exact HT.
  - simpl in H. destruct (ensure_next_table allocate_frame mp s t i) as [[t1 s1]|] eqn:He;
      [|discriminate].
    assert (Hv1 : valid_prefix (pre ++ [i]))
      by (apply (valid_app _ rest); rewrite <- app_assoc; exact Hv).
    destruct (ensure_step1 allocate_frame mp fl [] s pre t i t1 s1
                (inv1_init allocate_frame mp fl s Htree Hfr) Hv1 Ht He)
      as ((Htree1 & Hfr1 & _) & Hm1 & Ht1 & _).
    pose proof (ensure_leaf s pre t i t1 s1 Htree Hfr Hv1 Ht He) as [P1 P2].
    destruct (IH (pre ++ [i]) t1 s1 T s' Htree1 Hfr1) as [Q1 Q2];
      [rewrite <- app_assoc; exact Hv|exact Ht1|exact H|].
    split.
    + intros a T0 j Ha Hl HT. rewrite (Q1 a T0 j Ha Hl (Hm1 a T0 Ha HT)). apply (P1 a T0 j Ha Hl HT).
    + intros a T0 j Ha Hl HT Hj. destruct (Q2 a T0 j Ha Hl HT Hj) as [HT1 | Z0].
      * destruct (P2 a T0 j Ha Hl HT1 Hj) as [HT0 | Z1]; [left; exact HT0|].
        right. rewrite (Q1 a T0 j Ha Hl HT1). exact Z1.
      * right. exact Z0.
Qed.
End Leaf.

(** X7: on a tree-shaped hierarchy with fresh frames, a completed [map_page] keeps a tree, never changes a present leaf entry, and installs [phys & ADDRESS_MASK] with the flags outside the mask where the leaf entry was unused. *)
Theorem map_page_installs {A : Type} (allocate_frame : A -> option Z * A) (mp : Mapper)
    (s s' : MState A) (virt phys fl : Z) :
  is_tree (mem s) (pml4_phys mp) ->
  fresh_frames allocate_frame (frames s) (mem s) (pml4_phys mp) ->
  map_page allocate_frame mp s virt phys fl = Some s' ->
  is_tree (mem s') (pml4_phys mp) /\
  (forall a T j, valid_prefix a -> length a = 3%nat ->
     table_at (mem s) (pml4_phys mp) a = Some T -> is_unused (mem s T j) = false ->
     table_at (mem s') (pml4_phys mp) a = Some T /\ mem s' T j = mem s T j) /\
  ((forall T, table_at (mem s) (pml4_phys mp) (tup virt) = Some T ->
      is_unused (mem s T (pt_index virt)) = true) ->
   exists T, table_at (mem s') (pml4_phys mp) (tup virt) = Some T /\
     mem s' T (pt_index virt) = Z.lor (Z.land phys ADDRESS_MASK) (Z.land fl (not64 ADDRESS_MASK))).
Proof.
  intros Htree Hfr H. unfold map_page in H.
  destruct (walk allocate_frame mp s (pml4_phys mp) [pml4_index virt; pdpt_index virt; pd_index virt])
    as [[T s1]|] eqn:Hw; [|discriminate].
  destruct (walk_step1 allocate_frame mp fl [] (tup virt) [] (pml4_phys mp) s T s1
              (inv1_init allocate_frame mp fl s Htree Hfr) (valid_tup virt) eq_refl Hw)
    as ((Htree1 & _) & Hm1 & HT & _).
  change ([] ++ tup virt) with (tup virt) in HT.
  destruct (walk_leaf allocate_frame mp fl (tup virt) [] (pml4_phys mp) s T s1 Htree Hfr
              (valid_tup virt) eq_refl Hw) as [L1 L2].
  destruct (table_mut mp T) as [T0|] eqn:Htm; [|discriminate].
  destruct (table_mut_ok _ _ _ Htm) as [-> _].
  pose proof (index_range 12 virt) as Hj. fold (pt_index virt) in Hj.
  assert (Hlt : (pt_index virt <? ENTRIES_PER_TABLE) = true) by (apply Z.ltb_lt; exact (proj2 Hj)).
  cbv zeta in H. rewrite Hlt in H. cbn [negb] in H.
  set (j := pt_index virt) in *.
  assert (Hs' : forall t i, mem s' t i =
            if (t =? T) && (i =? j) then step_leaf (leafv fl phys) (mem s1 T j) else mem s1 t i).
  { unfold step_leaf. destruct (is_unused (mem s1 T j)) eqn:Hu.
    - destruct (pte_set phys fl) as [v|] eqn:Hv; [|discriminate]. injection H as <-.
      unfold pte_set in Hv. destruct (Z.land phys 0xFFF =? 0); [|discriminate].
      injection Hv as <-. intros t i. reflexivity.
    - injection H as <-. intros t i.
      destruct (Z.eqb_spec t T), (Z.eqb_spec i j); subst; reflexivity. }
  assert (Hsame : forall q, valid_prefix q ->
            table_at (mem s') (pml4_phys mp) q = table_at (mem s1) (pml4_phys mp) q).
  { apply (leaf_write_table_at (mem s1) (mem s') (pml4_phys mp) (tup virt) T Htree1 (valid_tup virt));
      [reflexivity|exact HT|].
    intros t i Ht. rewrite Hs', (proj2 (Z.eqb_neq t T) Ht). reflexivity. }
  split; [apply (table_at_same_tree (mem s1)); auto|]. split.
  - intros a T' j' Ha Hl HT' Hp. rewrite Hsame by exact Ha.
    split; [apply Hm1; auto|].
    rewrite Hs', <- (L1 a T' j' Ha Hl HT').
    destruct ((T' =? T) && (j' =? j)) eqn:E; [|reflexivity].
    apply andb_true_iff in E. destruct E as [E1 E2]. apply Z.eqb_eq in E1, E2. subst T' j'.
    unfold step_leaf. rewrite (L1 a T j Ha Hl HT'), Hp. reflexivity.
  - intros Hun. exists T. rewrite Hsame by apply valid_tup. split; [exact HT|].
    rewrite Hs', !Z.eqb_refl. cbn [andb]. unfold step_leaf.
    assert (Hu : is_unused (mem s1 T j) = true).
    { destruct (L2 (tup virt) T j (valid_tup virt) eq_refl HT Hj) as [HT0 | Z0].
      - rewrite (L1 _ _ j (valid_tup virt) eq_refl HT0). apply Hun. exact HT0.
      - rewrite Z0. reflexivity. }
    rewrite Hu. reflexivity.
Qed.

Lemma zeroed_root_table_at m r p t : valid_prefix p ->
  table_at (mem_zero_table m r) r p = Some t -> p = [] /\ t = r.
Proof.
  intros [_ Hf] H. destruct p as [|i p]; [simpl in H; injection H as <-; auto|].
  inversion Hf as [|? ? Hi _]; subst. simpl in H.
  unfold is_unused, mem_zero_table in H. rewrite Z.eqb_refl in H.
  rewrite (proj2 (Z.leb_le 0 i)), (proj2 (Z.ltb_lt i _)) in H by lia. discriminate.
Qed.

(** X8: [Mapper::new] panics when [pml4 + offset] overflows; otherwise only the root table is reachable, and with distinct frames a repeated [identity_map_range] changes no entry and allocates nothing. *)
Theorem mapper_new_empty {A : Type} (allocate_frame : A -> option Z * A) (m : Mem) (pml4 off : Z) :
  (U64_MAX < pml4 + off -> Mapper_new m pml4 off = None) /\
  (pml4 + off <= U64_MAX ->
   exists m' mp, Mapper_new m pml4 off = Some (m', mp) /\
     pml4_phys mp = pml4 /\ phys_offset mp = off /\
     (forall p t, valid_prefix p -> table_at m' pml4 p = Some t -> p = [] /\ t = pml4) /\
     forall (a : A) (start end0 fl : Z) (s1 : MState A),
       is_u64 start -> is_u64 end0 -> distinct_frames allocate_frame a pml4 ->
       identity_map_range allocate_frame mp {| mem := m'; frames := a; alloc_calls := 0 |}
         start end0 fl = Some s1 ->
       exists s2, identity_map_range allocate_frame mp s1 start end0 fl = Some s2 /\
         (forall t i, mem s2 t i = mem s1 t i) /\ frames s2 = frames s1 /\
         alloc_calls s2 = alloc_calls s1).
Proof.
  split; [intros H; unfold Mapper_new, add64; rewrite (proj2 (Z.leb_gt _ _) H); reflexivity|].
  intros Hok. unfold Mapper_new, add64. rewrite (proj2 (Z.leb_le _ _) Hok).
  eexists _, _. split; [reflexivity|]. cbn [pml4_phys phys_offset].
  split; [reflexivity|]. split; [reflexivity|]. split; [apply zeroed_root_table_at|].
  intros a start end0 fl s1 Hs He Hd H.
  set (s0 := {| mem := mem_zero_table m pml4; frames := a; alloc_calls := 0 |}) in *.
  set (mp := {| pml4_phys := pml4; phys_offset := off |}) in *.
  assert (Htree : is_tree (mem s0) (pml4_phys mp)).
  { intros p q t Hp Hq H1 H2.
    destruct (zeroed_root_table_at _ _ _ _ Hp H1) as [-> _],
             (zeroed_root_table_at _ _ _ _ Hq H2) as [-> _]. reflexivity. }
  assert (Hfr : fresh_frames allocate_frame (frames s0) (mem s0) (pml4_phys mp)).
  { intros k f Hk. destruct (Hd k f Hk) as (H1 & H2 & H3). split; [exact H1|]. split; [|exact H3].
    intros [p [Hp Hf]]. apply zeroed_root_table_at in Hf; [|exact Hp]. destruct Hf as [_ Ef]. exact (H2 Ef). }
  destruct (Z.ltb_spec end0 (2 ^ 64 - 4096)) as [Hlt|Hge].
  - assert (He' : 0 <= end0 < 2 ^ 64 - 4096) by (unfold is_u64 in He; lia).
    rewrite identity_map_range_as_pages in H |- * by auto.
    apply (map_pages_twice allocate_frame mp fl s0 s1); auto.
    intros p Hp. apply page_list_In in Hp;
      [|apply round_down_aligned
       |rewrite Zminus_mod, round_up_aligned, round_down_aligned; reflexivity].
    change 0xFFF with (Z.ones 12). rewrite Z.land_ones by lia. apply Hp.
  - unfold identity_map_range in H.
    rewrite align_up_overflow in H by (unfold FRAME_SIZE, U64_MAX; lia). discriminate.
Qed.

Lemma array_set_nth_error {T : Type} (l : list T) i v l' j :
  array_set l i v = Some l' -> nth_error l' j = if Nat.eqb j i then Some v else nth_error l j.
Proof.
  revert i l' j. induction l as [|x r IH]; intros i l' j H; [discriminate|].
  destruct i as [|i']; simpl in H.
  - injection H as <-. destruct j; reflexivity.
  - destruct (array_set r i' v) as [r'|] eqn:E; [|discriminate].
    injection H as <-. destruct j as [|j]; [reflexivity|]. simpl. apply IH. exact E.
Qed.

Lemma gate_handler_new cs hd : is_u64 hd -> gate_handler (IdtEntry_new cs hd) = hd.
Proof.
  intros Hh. unfold gate_handler, IdtEntry_new, set_handler;
  cbn [offset_low offset_mid offset_high options selector reserved IdtEntry_missing].
  apply Z.bits_inj'; intros n Hn.
  replace 0xFFFF with (Z.ones 16) by reflexivity.
  replace 0xFFFFFFFF with (Z.ones 32) by reflexivity.
  destruct (Z.ltb_spec n 16); [tb; reflexivity|].
  destruct (Z.ltb_spec n 32); [tb; reflexivity|].
  destruct (Z.ltb_spec n 64); tb; [reflexivity|].
  rewrite testbit_u64_high by (auto; lia). reflexivity.
Qed.

(** X9: [interrupts::init] builds a 256-entry IDT in which exactly vectors 3, 8, 13, 14, 32 and 33 are present ring-0 interrupt gates with the code selector and their handler, only vector 8 using IST 1, and loads limit [256 * 16 - 1]. *)
Theorem interrupts_init_idt (cs : Z) (h : Handlers) :
  is_u64 (h_breakpoint h) -> is_u64 (h_timer h) -> is_u64 (h_keyboard h) ->
  is_u64 (h_page_fault h) -> is_u64 (h_gpf h) -> is_u64 (h_double_fault h) ->
  exists idt limit, interrupts_init cs h = Some (idt, remap_pic, limit) /\
    length idt = IDT_LEN /\ limit + 1 = 16 * Z.of_nat IDT_LEN /\
    forall v, (v < IDT_LEN)%nat -> exists e, nth_error idt v = Some e /\
      match handler_at h v with
      | None => e = IdtEntry_missing
      | Some hd => gate_handler e = hd /\ selector e = cs /\ Z.shiftr (options e) 8 = 0x8E /\
                   gate_ist e = (if Nat.eqb v 8 then Z.of_nat DOUBLE_FAULT_IST_INDEX + 1 else 0)
      end.
Proof.
  intros H1 H2 H3 H4 H5 H6. unfold interrupts_init.
  set (idt0 := repeat IdtEntry_missing IDT_LEN).
  assert (L0 : length idt0 = IDT_LEN) by apply repeat_length.
  destruct (array_set_some idt0 InterruptIndex.Breakpoint (IdtEntry_new cs (h_breakpoint h)))
    as [idt1 E1]; [rewrite L0; cbv; lia|]; rewrite E1.
  destruct (array_set_spec _ _ _ _ E1) as [L1 _].
  destruct (array_set_some idt1 InterruptIndex.Timer (IdtEntry_new cs (h_timer h)))
    as [idt2 E2]; [rewrite L1, L0; cbv; lia|]; rewrite E2.
  destruct (array_set_spec _ _ _ _ E2) as [L2 _].
  destruct (array_set_some idt2 InterruptIndex.Keyboard (IdtEntry_new cs (h_keyboard h)))
    as [idt3 E3]; [rewrite L2, L1, L0; cbv; lia|]; rewrite E3.
  destruct (array_set_spec _ _ _ _ E3) as [L3 _].
  destruct (array_set_some idt3 14 (IdtEntry_new cs (h_page_fault h)))
    as [idt4 E4]; [rewrite L3, L2, L1, L0; cbv; lia|]; rewrite E4.
  destruct (array_set_spec _ _ _ _ E4) as [L4 _].
  destruct (array_set_some idt4 13 (IdtEntry_new cs (h_gpf h)))
    as [idt5 E5]; [rewrite L4, L3, L2, L1, L0; cbv; lia|]; rewrite E5.
  destruct (array_set_spec _ _ _ _ E5) as [L5 _].
  destruct (array_set_some idt5 8 (new_with_ist cs (h_double_fault h)
                                     (Z.land DOUBLE_FAULT_IST_INDEX_FOR_IDT 0xFF)))
    as [idt6 E6]; [rewrite L5, L4, L3, L2, L1, L0; cbv; lia|]; rewrite E6.
  destruct (array_set_spec _ _ _ _ E6) as [L6 _].
  exists idt6, 4095. split; [reflexivity|]. split; [congruence|]. split; [reflexivity|].
  intros v Hv.
  rewrite (array_set_nth_error _ _ _ _ _ E6), (array_set_nth_error _ _ _ _ _ E5),
    (array_set_nth_error _ _ _ _ _ E4), (array_set_nth_error _ _ _ _ _ E3),
    (array_set_nth_error _ _ _ _ _ E2), (array_set_nth_error _ _ _ _ _ E1).
  unfold handler_at.
  destruct (Nat.eqb_spec v 8) as [->|N8].
  - eexists; split; [reflexivity|]. cbn.
    split; [transitivity (gate_handler (IdtEntry_new cs (h_double_fault h))); [reflexivity | apply gate_handler_new; exact H6]|]. repeat split.
  - destruct (Nat.eqb_spec v 13) as [->|N13];
      [eexists; split; [reflexivity|]; cbn; split; [apply gate_handler_new; exact H5|]; repeat split|].
    destruct (Nat.eqb_spec v 14) as [->|N14];
      [eexists; split; [reflexivity|]; cbn; split; [apply gate_handler_new; exact H4|]; repeat split|].
    destruct (Nat.eqb_spec v InterruptIndex.Keyboard) as [->|N33];
      [eexists; split; [reflexivity|]; cbn; split; [apply gate_handler_new; exact H3|]; repeat split|].
    destruct (Nat.eqb_spec v InterruptIndex.Timer) as [->|N32];
      [eexists; split; [reflexivity|]; cbn; split; [apply gate_handler_new; exact H2|]; repeat split|].
    destruct (Nat.eqb_spec v InterruptIndex.Breakpoint) as [->|N3];
      [eexists; split; [reflexivity|]; cbn; split; [apply gate_handler_new; exact H1|]; repeat split|].
    exists IdtEntry_missing. split; [|reflexivity].
    subst idt0. apply nth_error_repeat. exact Hv.
Qed.

Lemma array_set_firstn {T : Type} (l : list T) i v l' :
  array_set l i v = Some l' -> firstn (S i) l' = firstn i l ++ [v].
Proof.
  revert i l'. induction l as [|x r IH]; intros i l' H; [discriminate|].
  destruct i as [|i']; simpl in H.
  - injection H as <-. reflexivity.
  - destruct (array_set r i' v) as [r'|] eqn:E; [|discriminate].
    injection H as <-. simpl. f_equal. apply IH. exact E.
Qed.

Lemma parse_digits_app acc xs ys :
  parse_digits acc (xs ++ ys) =
  match parse_digits acc xs with Ok v => parse_digits v ys | Err e => Err e end.
Proof.
  revert acc. induction xs as [|x r IH]; intros acc; [reflexivity|].
  simpl. destruct ((x <? 48) || (57 <? x)); [reflexivity|].
  destruct (match checked_mul acc 10 with Some v => checked_add v (x - 48) | None => None end);
    [apply IH|reflexivity].
Qed.

Lemma parse_digit_step v d :
  0 <= v -> 48 <= d <= 57 ->
  parse_digits v [d] = if v * 10 + (d - 48) <=? I64_MAX then Ok (v * 10 + (d - 48)) else Err InvalidDigit.
Proof.
  intros Hv Hd. simpl.
  replace ((d <? 48) || (57 <? d)) with false
    by (symmetry; apply orb_false_iff; split; apply Z.ltb_ge; lia).
  unfold checked_mul, checked_add, in_i64, I64_MIN, I64_MAX.
  repeat (match goal with |- context [?a <=? ?b] => destruct (Z.leb_spec a b) end; simpl);
    try reflexivity; lia.
Qed.

Lemma write_digits_spec (fuel : nat) : forall (k : nat) n i buf,
  (k <= fuel)%nat -> 0 <= n < 10 ^ Z.of_nat k -> (i + k <= length buf)%nat ->
  exists i' buf' D, write_digits (S fuel) n i buf = Some (Ok (i', buf')) /\
    length buf' = length buf /\ firstn i' buf' = firstn i buf ++ D /\
    length D = (i' - i)%nat /\ (i <= i' <= i + k)%nat /\ (0 < n -> D <> []) /\
    Forall (fun d => 48 <= d <= 57) D /\
    forall acc, 0 <= acc <= I64_MAX ->
      parse_digits acc (rev D) =
      if acc * 10 ^ Z.of_nat (length D) + n <=? I64_MAX
      then Ok (acc * 10 ^ Z.of_nat (length D) + n) else Err InvalidDigit.
Proof.
  induction fuel as [|fuel IH]; intros k n i buf Hk Hn Hb.
  - assert (k = 0%nat) by lia. subst k. simpl in Hn. assert (n = 0) by lia. subst n.
    exists i, buf, []. simpl. rewrite app_nil_r.
    repeat split; try lia; try constructor.
    intros acc Hacc. rewrite Z.mul_1_r, Z.add_0_r.
    rewrite (proj2 (Z.leb_le _ _)) by lia. reflexivity.
  - destruct (Z.leb_spec n 0) as [Hn0|Hn0].
    { assert (n = 0) by lia. subst n. exists i, buf, [].
      cbn [write_digits]. rewrite Z.leb_refl. simpl. rewrite app_nil_r.
      repeat split; try lia; try constructor.
      intros acc Hacc. rewrite Z.mul_1_r, Z.add_0_r.
      rewrite (proj2 (Z.leb_le _ _)) by lia. reflexivity. }
    destruct k as [|k].
    { simpl in Hn. lia. }
    assert (Hlt : (i < length buf)%nat) by lia.
    destruct (array_set_some buf i (48 + n mod 10) Hlt) as [buf1 E1].
    destruct (array_set_spec _ _ _ _ E1) as [L1 _].
    pose proof (array_set_firstn _ _ _ _ E1) as F1.
    assert (Hn' : 0 <= n / 10 < 10 ^ Z.of_nat k).
    { split; [apply Z.div_pos; lia|].
      apply Z.div_lt_upper_bound; [lia|]. rewrite Nat2Z.inj_succ, Z.pow_succ_r in Hn by lia. lia. }
    destruct (IH k (n / 10) (S i) buf1 ltac:(lia) Hn' ltac:(lia))
      as (i' & buf' & D' & E & Lb & Fi & LD & Hi & _ & FD & P).
    exists i', buf', ((48 + n mod 10) :: D').
    cbn [write_digits]. rewrite (proj2 (Z.leb_gt _ _) Hn0).
    rewrite (proj2 (Nat.leb_gt _ _) Hlt). rewrite E1. split; [exact E|].
    split; [congruence|]. split; [rewrite Fi, F1, <- app_assoc; reflexivity|].
    split; [simpl; lia|]. split; [lia|]. split; [discriminate|].
    split; [constructor; [pose proof (Z.mod_pos_bound n 10); lia|exact FD]|].
    intros acc Hacc. cbn [rev length]. rewrite parse_digits_app, (P acc Hacc).
    rewrite Nat2Z.inj_succ, Z.pow_succ_r by lia.
    pose proof (Z.div_mod n 10 ltac:(lia)) as Hdm.
    pose proof (Z.mod_pos_bound n 10 ltac:(lia)) as Hm.
    pose proof (Z.pow_nonneg 10 (Z.of_nat (length D')) ltac:(lia)) as Hp.
    destruct (Z.leb_spec (acc * 10 ^ Z.of_nat (length D') + n / 10) I64_MAX) as [H1|H1].
    + rewrite parse_digit_step by (nia || lia).
      replace ((acc * 10 ^ Z.of_nat (length D') + n / 10) * 10 + (48 + n mod 10 - 48))
        with (acc * (10 * 10 ^ Z.of_nat (length D')) + n) by lia.
      reflexivity.
    + rewrite (proj2 (Z.leb_gt _ _)); [reflexivity|]. nia.
Qed.

Lemma int_to_str_magnitude value :
  I64_MIN <= value <= I64_MAX ->
  (if value <? 0 then wrap_i64 (- value) else value) mod 2 ^ 64 = Z.abs value.
Proof.
  unfold I64_MIN, I64_MAX, wrap_i64. intros Hv.
  destruct (Z.ltb_spec value 0).
  - destruct (Z.eq_dec value (- 2 ^ 63)) as [->|Hne]; [reflexivity|].
    rewrite (Z.mod_small (- value + 2 ^ 63)) by lia.
    rewrite Z.mod_small by lia. lia.
  - rewrite Z.mod_small by lia. lia.
Qed.

Lemma digits_head D :
  Forall (fun d => 48 <= d <= 57) D -> D <> [] ->
  exists b0 rest, rev D = b0 :: rest /\ 48 <= b0 <= 57.
Proof.
  intros HF HD. destruct (rev D) as [|b0 rest] eqn:E.
  - destruct D; [congruence|]. simpl in E. destruct (rev D); discriminate.
  - exists b0, rest. split; [reflexivity|].
    assert (In b0 (rev D)) by (rewrite E; left; reflexivity).
    rewrite <- in_rev in H. rewrite Forall_forall in HF. exact (HF b0 H).
Qed.

(** X10: for every i64 value and a buffer of at least 20 bytes, [int_to_str_buf] succeeds and [parse_int_from_str] reads the value back, except [i64::MIN], whose text is rejected with [InvalidDigit]. *)
Theorem int_to_str_parse_roundtrip (value : Z) (buf : list Z) :
  I64_MIN <= value <= I64_MAX -> (20 <= length buf)%nat ->
  exists out, int_to_str_buf value buf = Some (Ok out) /\
    parse_int_from_str out = Some (if value =? I64_MIN then Err InvalidDigit else Ok value).
Proof.
  intros Hv Hb. unfold int_to_str_buf.
  destruct (Z.eqb_spec value 0) as [->|H0].
  { destruct buf as [|x r]; [simpl in Hb; lia|]. exists [48]. split; reflexivity. }
  rewrite (int_to_str_magnitude value Hv).
  assert (Hk : 0 <= Z.abs value < 10 ^ Z.of_nat 19) by (unfold I64_MIN, I64_MAX in Hv; simpl; lia).
  destruct (write_digits_spec 20 19 (Z.abs value) 0 buf ltac:(lia) Hk ltac:(lia))
    as (i' & buf' & D & E & Lb & Fi & LD & Hi & Hne & FD & P).
  rewrite E. simpl firstn in Fi.
  destruct (digits_head D FD ltac:(apply Hne; lia)) as (b0 & rest & ED & Hb0).
  pose proof (P 0 ltac:(unfold I64_MAX; lia)) as P0. rewrite ED in P0.
  rewrite Z.mul_0_l, Z.add_0_l in P0.
  destruct (Z.ltb_spec value 0) as [Hneg|Hpos].
  - rewrite (proj2 (Nat.leb_gt _ _)) by lia.
    destruct (array_set_some buf' i' 45 ltac:(lia)) as [buf2 E2]. rewrite E2.
    rewrite (array_set_firstn _ _ _ _ E2), Fi. simpl app. rewrite rev_app_distr, ED.
    eexists; split; [reflexivity|]. cbn -[parse_digits].
    rewrite P0. unfold I64_MIN, I64_MAX, in_i64 in *.
    destruct (Z.eqb_spec value (- 2 ^ 63)) as [->|Hm].
    + reflexivity.
    + rewrite (proj2 (Z.leb_le _ _)) by lia.
      replace (Z.abs value * -1) with value by lia.
      unfold in_i64, I64_MIN, I64_MAX. rewrite (proj2 (Z.eqb_neq value _)) by lia.
      repeat (match goal with |- context [?a <=? ?b] => destruct (Z.leb_spec a b) end);
        simpl; try reflexivity; lia.
  - rewrite Fi. simpl app. rewrite ED. eexists; split; [reflexivity|].
    unfold parse_int_from_str.
    rewrite (proj2 (Z.eqb_neq b0 43)) by lia. rewrite (proj2 (Z.eqb_neq b0 45)) by lia.
    rewrite P0. unfold I64_MIN, I64_MAX, in_i64 in *.
    rewrite (proj2 (Z.eqb_neq value _)) by lia.
    rewrite (proj2 (Z.leb_le _ _)) by lia.
    replace (Z.abs value * 1) with value by lia.
    unfold in_i64, I64_MIN, I64_MAX.
    repeat (match goal with |- context [?a <=? ?b] => destruct (Z.leb_spec a b) end);
      simpl; try reflexivity; lia.
Qed.

Lemma parse_digits_result acc ds :
  0 <= acc <= I64_MAX ->
  match parse_digits acc ds with
  | Ok v => 0 <= v <= I64_MAX
  | Err e => e = InvalidDigit
  end.
Proof.
  revert acc. induction ds as [|b r IH]; intros acc Hacc; [exact Hacc|].
  simpl. destruct ((b <? 48) || (57 <? b)) eqn:Eb; [reflexivity|].
  apply orb_false_iff in Eb as [E1 E2]. apply Z.ltb_ge in E1, E2.
  unfold checked_mul, checked_add, in_i64.
  destruct ((I64_MIN <=? acc * 10) && (acc * 10 <=? I64_MAX)) eqn:M; [|reflexivity].
  destruct ((I64_MIN <=? acc * 10 + (b - 48)) && (acc * 10 + (b - 48) <=? I64_MAX)) eqn:A;
    [|reflexivity].
  apply IH. apply andb_true_iff in A as [_ A]. apply Z.leb_le in A. lia.
Qed.

(** X11: [parse_int_from_str] never panics, returns [EmptyInput] exactly on the empty string, never returns [InvalidSign] or [BufferTooSmall], and every value it returns lies in [(i64::MIN, i64::MAX]]. *)
Theorem parse_int_from_str_range (s : list Z) :
  exists r, parse_int_from_str s = Some r /\
    (r = Err EmptyInput <-> s = []) /\ r <> Err InvalidSign /\ r <> Err BufferTooSmall /\
    forall v, r = Ok v -> I64_MIN < v <= I64_MAX.
Proof.
  destruct s as [|b0 rest].
  { exists (Err EmptyInput). repeat split; try discriminate. }
  unfold parse_int_from_str.
  assert (Hmain : forall sign digits, (sign = 1 \/ sign = -1) ->
    exists r, match digits with
              | [] => Some (Err InvalidDigit)
              | _ => match parse_digits 0 digits with
                     | Err e => Some (Err e)
                     | Ok value => if in_i64 (value * sign) then Some (Ok (value * sign)) else None
                     end
              end = Some r /\ r <> Err EmptyInput /\ r <> Err InvalidSign /\
              r <> Err BufferTooSmall /\ forall v, r = Ok v -> I64_MIN < v <= I64_MAX).
  { intros sign digits Hs. destruct digits as [|d ds].
    - exists (Err InvalidDigit). repeat split; discriminate.
    - pose proof (parse_digits_result 0 (d :: ds) ltac:(unfold I64_MAX; lia)) as P.
      destruct (parse_digits 0 (d :: ds)) as [value|e].
      + unfold in_i64, I64_MIN, I64_MAX in *.
        rewrite (proj2 (Z.leb_le _ _)) by lia. rewrite (proj2 (Z.leb_le _ _)) by lia.
        exists (Ok (value * sign)). split; [reflexivity|].
        split; [discriminate|]. split; [discriminate|]. split; [discriminate|].
        intros w Hw. injection Hw as <-. lia.
      + subst e. exists (Err InvalidDigit). repeat split; discriminate. }
  destruct (b0 =? 43); [|destruct (b0 =? 45)];
    [destruct (Hmain 1 rest) as (r & E & H1 & H2 & H3 & H4); [left; reflexivity|]
    |destruct (Hmain (-1) rest) as (r & E & H1 & H2 & H3 & H4); [right; reflexivity|]
    |destruct (Hmain 1 (b0 :: rest)) as (r & E & H1 & H2 & H3 & H4); [left; reflexivity|]];
    exists r; (split; [exact E|]);
    (split; [split; [intros; congruence|discriminate]|]); auto.
Qed.

Lemma firstn_array_set_le {T : Type} (l l' : list T) i v n :
  array_set l i v = Some l' -> (n <= i)%nat -> firstn n l' = firstn n l.
Proof.
  revert i l' n. induction l as [|x r IH]; intros i l' n H Hn; [discriminate|].
  destruct i as [|i']; simpl in H.
  - assert (n = 0%nat) by lia. subst n. reflexivity.
  - destruct (array_set r i' v) as [r'|] eqn:E; [|discriminate].
    injection H as <-. destruct n as [|n]; [reflexivity|]. simpl. f_equal. apply (IH i'); [exact E|lia].
Qed.

Lemma fixed_string_push_str_core (N : nat) (fs : FixedString) (s : list Z) :
  fs_inv N fs ->
  exists r fs', push_str N fs s = Some (r, fs') /\ fs_inv N fs' /\
    as_str fs' = as_str fs ++ firstn (N - fs_len fs) s /\
    r = (if (fs_len fs + length s <=? N)%nat then Ok tt else Err NoCapacity).
Proof.
  revert fs. induction s as [|b rest IH]; intros fs [Hl Hn].
  - exists (Ok tt), fs. rewrite firstn_nil, app_nil_r, Nat.add_0_r.
    rewrite (proj2 (Nat.leb_le _ _) Hn). repeat split; assumption.
  - simpl push_str. unfold push_byte.
    destruct (Nat.leb_spec N (fs_len fs)) as [Hf|Hf].
    + exists (Err NoCapacity), fs. replace (N - fs_len fs)%nat with 0%nat by lia.
      rewrite firstn_O, app_nil_r. rewrite (proj2 (Nat.leb_gt _ _)) by (simpl; lia).
      repeat split; assumption.
    + destruct (array_set_some (fs_buf fs) (fs_len fs) b ltac:(lia)) as [buf' E].
      rewrite E. destruct (array_set_spec _ _ _ _ E) as [L' _].
      destruct (IH {| fs_buf := buf'; fs_len := S (fs_len fs) |}) as (r & fs' & E' & Hi & Ha & Hr);
        [split; simpl; lia|].
      exists r, fs'. split; [exact E'|]. split; [exact Hi|]. split.
      * rewrite Ha. unfold as_str. cbn [fs_buf fs_len].
        rewrite (array_set_firstn _ _ _ _ E), <- app_assoc.
        replace (N - fs_len fs)%nat with (S (N - S (fs_len fs))) by lia. reflexivity.
      * rewrite Hr. cbn [fs_len length]. rewrite Nat.add_succ_comm. reflexivity.
Qed.

(** X12: on a [FixedString<N>], [push_str] never panics, appends as many bytes of [s] as fit, and returns [NoCapacity] exactly when not all of [s] fit. *)
Theorem fixed_string_push_str (N : nat) (fs : FixedString) (s : list Z) :
  fs_inv N fs ->
  exists r fs', push_str N fs s = Some (r, fs') /\ fs_inv N fs' /\
    as_str fs' = as_str fs ++ firstn (N - fs_len fs) s /\
    r = (if (fs_len fs + length s <=? N)%nat then Ok tt else Err NoCapacity).
Proof. apply fixed_string_push_str_core. Qed.

Lemma mod32_small a : (a < 64)%nat -> (a mod 32 = if a <? 32 then a else a - 32)%nat.
Proof.
  intros Ha. destruct (Nat.ltb_spec a 32).
  - apply Nat.mod_small. exact H.
  - replace a with ((a - 32) + 1 * 32)%nat at 1 by lia.
    rewrite Nat.Div0.mod_add. apply Nat.mod_small. lia.
Qed.

Lemma mod32_cases a : (a < 64)%nat -> (a mod 32 = a /\ a < 32 \/ a mod 32 = a - 32 /\ 32 <= a)%nat.
Proof.
  intros Ha. rewrite (mod32_small a Ha). destruct (Nat.ltb_spec a 32); [left|right]; lia.
Qed.

Ltac mod32_elim :=
  repeat match goal with
  | |- context [(?a mod 32)%nat] =>
      lazymatch a with context [(_ mod _)%nat] => fail | _ => idtac end;
      let E := fresh "E" in let H := fresh "H" in
      destruct (mod32_cases a ltac:(lia)) as [[E H]|[E H]]; rewrite E
  end.

Lemma history_lines_length h : length (history_lines h) = hlen h.
Proof. unfold history_lines. rewrite length_map, length_seq. reflexivity. Qed.

Lemma history_lines_nth h k :
  (k < hlen h)%nat ->
  nth_error (history_lines h) k =
  Some (as_str (nth ((hhead h + k) mod MAX_ENTRIES) (entries h) (FixedString_new ENTRY_CAPACITY))).
Proof.
  intros Hk. unfold history_lines. rewrite nth_error_map, nth_error_seq.
  rewrite (proj2 (Nat.ltb_lt _ _)) by exact Hk. reflexivity.
Qed.

Lemma entry_str_some h i :
  length (entries h) = MAX_ENTRIES -> (i < MAX_ENTRIES)%nat ->
  entry_str h (Some i) = Some (Some (as_str (nth i (entries h) (FixedString_new ENTRY_CAPACITY)))).
Proof.
  intros Hl Hi. unfold entry_str. rewrite (nth_error_nth' _ (FixedString_new ENTRY_CAPACITY)) by lia.
  reflexivity.
Qed.

Lemma history_previous_ref h :
  hist_inv h ->
  exists r h', history_previous h = Some (r, h') /\ hist_inv h' /\
    ref_step (history_lines h, cursor h) HPrevious = (r, (history_lines h', cursor h')).
Proof.
  intros Hi. pose proof Hi as (Hl & He & Hh & Hn & Hc). unfold history_previous. cbn [ref_step].
  rewrite history_lines_length.
  destruct (Nat.eqb_spec (hlen h) 0) as [H0|H0].
  { exists None, h. split; [reflexivity|]. split; [exact Hi|reflexivity]. }
  set (c := if (cursor h =? 0)%nat then cursor h
            else if (hlen h <? cursor h)%nat then (hlen h - 1)%nat else (cursor h - 1)%nat).
  assert (Ec : c = (cursor h - 1)%nat).
  { subst c. destruct (Nat.eqb_spec (cursor h) 0); [lia|].
    destruct (Nat.ltb_spec (hlen h) (cursor h)); lia. }
  assert (Hidx : entry_index (set_cursor h c) c = Some ((hhead h + c) mod MAX_ENTRIES)%nat).
  { unfold entry_index. cbn [hlen set_cursor]. rewrite (proj2 (Nat.leb_gt _ _)) by lia.
    rewrite (proj2 (Nat.eqb_neq _ _)) by exact H0. reflexivity. }
  rewrite Hidx. rewrite entry_str_some; [|exact Hl|apply Nat.mod_upper_bound; discriminate].
  eexists; exists (set_cursor h c). split; [reflexivity|]. split.
  - split; [exact Hl|]. split; [exact He|]. split; [exact Hh|]. split; [exact Hn|].
    cbn [cursor hlen set_cursor]. lia.
  - rewrite <- Ec. rewrite (history_lines_nth h c) by lia. reflexivity.
Qed.

Lemma history_next_ref h :
  hist_inv h ->
  exists r h', history_next h = Some (r, h') /\ hist_inv h' /\
    ref_step (history_lines h, cursor h) HNext = (r, (history_lines h', cursor h')).
Proof.
  intros Hi. pose proof Hi as (Hl & He & Hh & Hn & Hc). unfold history_next. cbn [ref_step].
  rewrite history_lines_length.
  assert (Hinv : forall c, (c <= hlen h)%nat -> hist_inv (set_cursor h c)).
  { intros c Hc'. split; [exact Hl|]. split; [exact He|]. split; [exact Hh|]. split; [exact Hn|].
    exact Hc'. }
  destruct (Nat.leb_spec (hlen h) (cursor h)) as [H1|H1].
  { exists None, (set_cursor h (hlen h)). split; [reflexivity|]. split; [apply Hinv; lia|].
    rewrite (proj2 (Nat.leb_le _ _)) by lia. reflexivity. }
  destruct (Nat.leb_spec (hlen h) (S (cursor h))) as [H2|H2].
  { exists None, (set_cursor h (hlen h)). split; [reflexivity|]. split; [apply Hinv; lia|].
    reflexivity. }
  assert (Hidx : entry_index (set_cursor h (S (cursor h))) (S (cursor h)) =
                 Some ((hhead h + S (cursor h)) mod MAX_ENTRIES)%nat).
  { unfold entry_index. cbn [hlen set_cursor]. rewrite (proj2 (Nat.leb_gt _ _)) by lia.
    rewrite (proj2 (Nat.eqb_neq _ _)) by lia. reflexivity. }
  rewrite Hidx. rewrite entry_str_some; [|exact Hl|apply Nat.mod_upper_bound; discriminate].
  eexists; exists (set_cursor h (S (cursor h))). split; [reflexivity|]. split; [apply Hinv; lia|].
  rewrite (history_lines_nth h (S (cursor h))) by lia. reflexivity.
Qed.

Lemma as_str_pushed e line :
  fs_inv ENTRY_CAPACITY e ->
  exists r e', push_str ENTRY_CAPACITY (fs_clear e) line = Some (r, e') /\
    fs_inv ENTRY_CAPACITY e' /\ as_str e' = firstn ENTRY_CAPACITY line.
Proof.
  intros [Hl Hn].
  destruct (fixed_string_push_str_core ENTRY_CAPACITY (fs_clear e) line) as (r & e' & E & Hi & Ha & _).
  { split; simpl; lia. }
  exists r, e'. split; [exact E|]. split; [exact Hi|]. rewrite Ha. reflexivity.
Qed.

Lemma history_latest_rev h :
  hist_inv h ->
  (if (0 <? hlen h)%nat then latest h else Some None) =
  Some (match rev (history_lines h) with x :: _ => Some x | [] => None end).
Proof.
  intros (Hl & He & Hh & Hn & Hc).
  destruct (Nat.ltb_spec 0 (hlen h)) as [H0|H0].
  - unfold latest. rewrite (proj2 (Nat.eqb_neq _ _)) by lia.
    unfold entry_index. rewrite (proj2 (Nat.leb_gt _ _)) by lia.
    rewrite (proj2 (Nat.eqb_neq _ _)) by lia. cbn [orb].
    rewrite entry_str_some; [|exact Hl|apply Nat.mod_upper_bound; discriminate].
    unfold history_lines. replace (hlen h) with (S (hlen h - 1)) at 2 by lia.
    rewrite seq_S, map_app, rev_app_distr. reflexivity.
  - assert (hlen h = 0%nat) as E by lia. unfold history_lines. rewrite E. reflexivity.
Qed.

Lemma history_push_tail h line :
  hist_inv h ->
  exists h',
    (let '(target, len', hhead') :=
       if (hlen h <? MAX_ENTRIES)%nat
       then (((hhead h + hlen h) mod MAX_ENTRIES)%nat, S (hlen h), hhead h)
       else (hhead h, hlen h, ((hhead h + 1) mod MAX_ENTRIES)%nat) in
     match nth_error (entries h) target with
     | None => None
     | Some e =>
         match push_str ENTRY_CAPACITY (fs_clear e) line with
         | None => None
         | Some (_, e') =>
             match array_set (entries h) target e' with
             | None => None
             | Some entries' =>
                 Some {| entries := entries'; hlen := len'; hhead := hhead'; cursor := len' |}
             end
         end
     end) = Some h' /\ hist_inv h' /\
    (if (hlen h <? MAX_ENTRIES)%nat then history_lines h else tl (history_lines h))
      ++ [firstn ENTRY_CAPACITY line] = history_lines h' /\ cursor h' = hlen h'.
Proof.
  intros (Hl & He & Hh & Hn & Hc).
  set (d := FixedString_new ENTRY_CAPACITY).
  assert (W : forall t, (t < MAX_ENTRIES)%nat -> exists e' entries',
     nth_error (entries h) t = Some (nth t (entries h) d) /\
     (exists r, push_str ENTRY_CAPACITY (fs_clear (nth t (entries h) d)) line = Some (r, e')) /\
     array_set (entries h) t e' = Some entries' /\
     length entries' = MAX_ENTRIES /\
     (forall i, (i < MAX_ENTRIES)%nat -> fs_inv ENTRY_CAPACITY (nth i entries' d)) /\
     (forall i, nth i entries' d = if (i =? t)%nat then e' else nth i (entries h) d) /\
     as_str e' = firstn ENTRY_CAPACITY line).
  { intros t Ht. destruct (as_str_pushed (nth t (entries h) d) line (He t Ht)) as (r & e' & E & Hi' & Ha).
    destruct (array_set_some (entries h) t e' ltac:(lia)) as [en' Ea].
    destruct (array_set_spec _ _ _ _ Ea) as (La & _ & Na).
    exists e', en'. split; [apply nth_error_nth'; lia|]. split; [exists r; exact E|].
    split; [exact Ea|]. split; [lia|].
    split; [intros i Hi2; rewrite Na; destruct (Nat.eqb_spec i t); [exact Hi'|apply He; exact Hi2]|].
    split; [intros i; apply Na|exact Ha]. }
  destruct (Nat.ltb_spec (hlen h) MAX_ENTRIES) as [Hlt|Hge].
  - set (t := ((hhead h + hlen h) mod MAX_ENTRIES)%nat).
    assert (Ht : (t < MAX_ENTRIES)%nat) by (apply Nat.mod_upper_bound; discriminate).
    destruct (W t Ht) as (e' & en' & E1 & (r & E2) & E3 & L' & I' & N' & A').
    cbv beta iota. rewrite E1, E2, E3. eexists; split; [reflexivity|]. split.
    + split; [exact L'|]. split; [exact I'|]. cbn [hhead hlen cursor]. lia.
    + split; [|reflexivity]. unfold history_lines; cbn [hlen hhead entries].
      rewrite seq_S, map_app. cbn [map]. rewrite Nat.add_0_l. f_equal.
      * apply map_ext_in. intros k Hk. apply in_seq in Hk. rewrite N'.
        rewrite (proj2 (Nat.eqb_neq _ _)); [reflexivity|].
        subst t. unfold MAX_ENTRIES in *.
        destruct (mod32_cases (hhead h + k)) as [[Ea ?]|[Ea ?]]; [lia| |]; rewrite Ea;
        destruct (mod32_cases (hhead h + hlen h)) as [[Eb ?]|[Eb ?]]; try lia; rewrite Eb; lia.
      * rewrite N', Nat.eqb_refl, A'. reflexivity.
  - assert (Hfull : hlen h = MAX_ENTRIES) by lia.
    destruct (W (hhead h) Hh) as (e' & en' & E1 & (r & E2) & E3 & L' & I' & N' & A').
    cbv beta iota. rewrite E1, E2, E3. eexists; split; [reflexivity|]. split.
    + split; [exact L'|]. split; [exact I'|]. cbn [hhead hlen cursor].
      split; [apply Nat.mod_upper_bound; discriminate|]. lia.
    + split; [|reflexivity]. unfold history_lines; cbn [hlen hhead entries]. rewrite Hfull.
      unfold MAX_ENTRIES in *.
      change (seq 0 32) with (0%nat :: seq 1 31) at 1. cbn [map tl].
      rewrite <- seq_shift, map_map.
      change (seq 0 32) with (seq 0 31 ++ [31%nat]). rewrite map_app. cbn [map]. f_equal.
      * apply map_ext_in. intros k Hk. apply in_seq in Hk. rewrite N'.
        assert (Hx : (((hhead h + 1) mod 32 + k) mod 32 = (hhead h + S k) mod 32 /\
                      ((hhead h + 1) mod 32 + k) mod 32 <> hhead h)%nat).
        { mod32_elim; lia. }
        destruct Hx as [Hx1 Hx2]. rewrite (proj2 (Nat.eqb_neq _ _) Hx2), Hx1. reflexivity.
      * assert (Hy : (((hhead h + 1) mod 32 + 31) mod 32 = hhead h)%nat).
        { mod32_elim; lia. }
        rewrite N', Hy, Nat.eqb_refl, A'. reflexivity.
Qed.

Lemma history_push_ref h line :
  hist_inv h ->
  exists h', history_push h line = Some h' /\ hist_inv h' /\
    ref_push (history_lines h) line = history_lines h' /\ cursor h' = hlen h'.
Proof.
  intros Hi. pose proof Hi as (Hl & He & Hh & Hn & Hc).
  assert (Hreset : hist_inv (reset_navigation h) /\
                   history_lines (reset_navigation h) = history_lines h /\
                   cursor (reset_navigation h) = hlen (reset_navigation h)).
  { split; [|split; reflexivity]. split; [exact Hl|]. split; [exact He|]. split; [exact Hh|].
    split; [exact Hn|]. cbn. lia. }
  unfold history_push, ref_push.
  destruct (Nat.eqb_spec (length line) 0) as [HL|HL].
  { exists (reset_navigation h). split; [reflexivity|]. exact Hreset. }
  rewrite (history_latest_rev h Hi).
  rewrite history_lines_length.
  destruct (rev (history_lines h)) as [|x rest];
    [|destruct (list_Z_eqb x line);
      [exists (reset_navigation h); split; [reflexivity|]; exact Hreset|]];
    exact (history_push_tail h line Hi).
Qed.

Lemma history_step_ref h op :
  hist_inv h ->
  exists r h', history_step h op = Some (r, h') /\ hist_inv h' /\
    ref_step (history_lines h, cursor h) op = (r, (history_lines h', cursor h')).
Proof.
  intros Hi. destruct op as [line| | |].
  - destruct (history_push_ref h line Hi) as (h' & E & Hi' & Hl & Hc).
    exists None, h'. cbn [history_step]. rewrite E. split; [reflexivity|]. split; [exact Hi'|].
    cbn [ref_step]. rewrite Hl, Hc, history_lines_length. reflexivity.
  - exact (history_previous_ref h Hi).
  - exact (history_next_ref h Hi).
  - exists None, (reset_navigation h). split; [reflexivity|].
    destruct Hi as (Hl & He & Hh & Hn & Hc). split.
    + split; [exact Hl|]. split; [exact He|]. split; [exact Hh|]. split; [exact Hn|]. cbn. lia.
    + cbn [ref_step]. rewrite history_lines_length. reflexivity.
Qed.

Lemma run_history_ref ops : forall h,
  hist_inv h ->
  exists outs h', run_history h ops = Some (outs, h') /\ hist_inv h' /\
    run_ref (history_lines h, cursor h) ops = (outs, (history_lines h', cursor h')).
Proof.
  induction ops as [|op rest IH]; intros h Hi.
  - exists [], h. split; [reflexivity|]. split; [exact Hi|reflexivity].
  - destruct (history_step_ref h op Hi) as (r & h1 & E1 & Hi1 & R1).
    destruct (IH h1 Hi1) as (outs & h2 & E2 & Hi2 & R2).
    exists (r :: outs), h2. cbn [run_history]. rewrite E1, E2. split; [reflexivity|].
    split; [exact Hi2|]. cbn [run_ref]. rewrite R1, R2. reflexivity.
Qed.

Lemma hist_inv_new : hist_inv InputHistory_new.
Proof.
  split; [reflexivity|].
  split; [intros i Hi; unfold InputHistory_new; cbn [entries]; rewrite nth_repeat; split; [apply repeat_length|cbn; lia]|].
  cbn. unfold MAX_ENTRIES. lia.
Qed.

(** X13: from [InputHistory::new], any sequence of [push], [previous], [next] and [reset_navigation] never panics and behaves as the list of the last 32 stored lines (truncated to 128 bytes, empty lines and repeats of the latest skipped) with a cursor. *)
Theorem input_history_refines (ops : list HistoryOp) :
  exists outs h', run_history InputHistory_new ops = Some (outs, h') /\
    run_ref ([], 0%nat) ops = (outs, (history_lines h', cursor h')).
Proof.
  pose proof hist_inv_new as Hi.
  destruct (run_history_ref ops InputHistory_new Hi) as (outs & h' & E & _ & R).
  exists outs, h'. split; [exact E|exact R].
Qed.

Lemma utf8_valid_ascii l : Forall (fun b => 0 <= b < 128) l -> utf8_valid l = true.
Proof.
  induction 1 as [|b r Hb _ IH]; [reflexivity|]. simpl.
  rewrite (proj2 (Z.ltb_lt _ _)) by lia. exact IH.
Qed.

Lemma clear_displayed_spec sh :
  clear_displayed_buffer sh = (with_len sh 0, concat (repeat erase_last_char (slen sh))).
Proof.
  unfold clear_displayed_buffer.
  assert (G : forall n sh, slen sh = n ->
            clear_displayed_loop n sh = (with_len sh 0, concat (repeat erase_last_char n))).
  { induction n as [|n IH]; intros sh' Hn.
    - simpl. destruct sh'; simpl in *; subst. reflexivity.
    - simpl. rewrite Hn. simpl. rewrite IH by (simpl; lia). reflexivity. }
  apply G. reflexivity.
Qed.

Lemma replace_loop_spec line : forall sh,
  (slen sh + length line <= length (sbuffer sh))%nat ->
  exists buf', replace_loop sh line =
    Some ({| sbuffer := buf'; slen := (slen sh + length line)%nat;
             extended_prefix := extended_prefix sh; history := history sh;
             saved_line := saved_line sh; saved_line_active := saved_line_active sh |},
          flat_map echo_byte line) /\
    length buf' = length (sbuffer sh) /\
    firstn (slen sh + length line) buf' = firstn (slen sh) (sbuffer sh) ++ line.
Proof.
  induction line as [|b rest IH]; intros sh Hl.
  - exists (sbuffer sh). rewrite Nat.add_0_r, app_nil_r. split; [|split; reflexivity].
    destruct sh; reflexivity.
  - simpl in Hl. simpl replace_loop. rewrite (proj2 (Nat.ltb_lt _ _)) by lia.
    destruct (array_set_some (sbuffer sh) (slen sh) b ltac:(lia)) as [buf1 E1].
    destruct (array_set_spec _ _ _ _ E1) as [L1 _]. rewrite E1.
    match goal with |- context [replace_loop ?s1 rest] =>
      destruct (IH s1) as (buf' & E2 & L2 & F2); [simpl; lia|] end.
    rewrite E2. exists buf'. cbn [slen sbuffer length] in *.
    replace (S (slen sh) + length rest)%nat with (slen sh + S (length rest))%nat in * by lia.
    split; [reflexivity|]. split; [lia|].
    rewrite F2, (array_set_firstn _ _ _ _ E1), <- app_assoc. reflexivity.
Qed.

Lemma replace_buffer_with_spec sh line :
  length (sbuffer sh) = INPUT_BUFFER_LEN -> (length line <= INPUT_BUFFER_LEN)%nat ->
  exists buf', replace_buffer_with sh line =
    Some ({| sbuffer := buf'; slen := length line;
             extended_prefix := extended_prefix sh; history := history sh;
             saved_line := saved_line sh; saved_line_active := saved_line_active sh |},
          concat (repeat erase_last_char (slen sh)) ++ flat_map echo_byte line) /\
    length buf' = INPUT_BUFFER_LEN /\ firstn (length line) buf' = line.
Proof.
  intros Hb Hl. unfold replace_buffer_with. rewrite clear_displayed_spec.
  destruct (replace_loop_spec line (with_len sh 0)) as (buf' & E & L & F); [simpl; lia|].
  rewrite E. exists buf'. cbn [slen sbuffer with_len] in *. split; [reflexivity|].
  split; [lia|]. exact F.
Qed.

Lemma own_line_spec line :
  (length line <= INPUT_BUFFER_LEN)%nat ->
  exists owned, own_line line = Some owned /\ as_str owned = line /\ fs_inv INPUT_BUFFER_LEN owned.
Proof.
  intros Hl. unfold own_line.
  destruct (fixed_string_push_str_core INPUT_BUFFER_LEN (FixedString_new INPUT_BUFFER_LEN) line)
    as (r & o & E & Hi & Ha & _).
  { split; [apply repeat_length|simpl; lia]. }
  rewrite E. exists o. split; [reflexivity|]. split; [|exact Hi].
  rewrite Ha. change (fs_len (FixedString_new INPUT_BUFFER_LEN)) with 0%nat.
  change (as_str (FixedString_new INPUT_BUFFER_LEN)) with (@nil Z).
  rewrite Nat.sub_0_r. apply firstn_all2. lia.
Qed.

Lemma as_str_length n fs : fs_inv n fs -> (length (as_str fs) <= n)%nat.
Proof. intros [Hl Hn]. unfold as_str. rewrite length_firstn. lia. Qed.

(** X14: with a non-empty history, navigation at the current line and an ASCII line being edited, Up shows the latest history line and Down restores the edited line, clears the saved state and resets navigation. *)
Theorem shell_history_up_down (sh : Shell) :
  shell_inv sh -> (0 < hlen (history sh))%nat -> cursor (history sh) = hlen (history sh) ->
  saved_line_active sh = false ->
  Forall (fun b => 0 <= b < 128) (firstn (slen sh) (sbuffer sh)) ->
  exists last sh1 out1 sh2 out2,
    nth_error (history_lines (history sh)) (hlen (history sh) - 1) = Some last /\
    handle_history_navigation sh Up = Some (sh1, out1) /\
    firstn (slen sh1) (sbuffer sh1) = last /\
    out1 = concat (repeat erase_last_char (slen sh)) ++ flat_map echo_byte last /\
    handle_history_navigation sh1 Down = Some (sh2, out2) /\
    firstn (slen sh2) (sbuffer sh2) = firstn (slen sh) (sbuffer sh) /\
    out2 = concat (repeat erase_last_char (length last)) ++
           flat_map echo_byte (firstn (slen sh) (sbuffer sh)) /\
    saved_line_active sh2 = false /\
    history_lines (history sh2) = history_lines (history sh) /\
    cursor (history sh2) = hlen (history sh2) /\ shell_inv sh2.
Proof.
  intros (Hb & Hs & Hh & Hsv) H0 Hc Ha Hasc.
  set (cur := firstn (slen sh) (sbuffer sh)) in *.
  assert (Hcl : (length cur <= INPUT_BUFFER_LEN)%nat) by (unfold cur; rewrite length_firstn; lia).
  destruct (own_line_spec cur Hcl) as (o & Eo & Ao & Io).
  assert (Esave : save_current_line sh = Some (set_saved sh o true)).
  { unfold save_current_line, current_line. fold cur. rewrite (utf8_valid_ascii cur Hasc), Eo.
    reflexivity. }
  destruct (history_previous_ref (history sh) Hh) as (r & h' & Ep & Hh' & Rp).
  cbn [ref_step] in Rp. rewrite history_lines_length in Rp.
  rewrite (proj2 (Nat.eqb_neq _ _)) in Rp by lia. injection Rp as Er El Ec'.
  rewrite Hc in Er, Ec'.
  pose proof (history_lines_nth (history sh) (hlen (history sh) - 1) ltac:(lia)) as Elast.
  set (last := as_str (nth ((hhead (history sh) + (hlen (history sh) - 1)) mod MAX_ENTRIES)
                          (entries (history sh)) (FixedString_new ENTRY_CAPACITY))) in Elast.
  assert (Hll : (length last <= INPUT_BUFFER_LEN)%nat).
  { destruct Hh as (_ & He & _). apply as_str_length, He, Nat.mod_upper_bound. discriminate. }
  rewrite Elast in Er. subst r.
  destruct (own_line_spec last Hll) as (o2 & Eo2 & Ao2 & Io2).
  destruct (replace_buffer_with_spec (set_history (set_saved sh o true) h') last Hb Hll)
    as (buf1 & Er1 & Lb1 & Fb1).
  set (sh1 := {| sbuffer := buf1; slen := length last; extended_prefix := extended_prefix sh;
                 history := h'; saved_line := o; saved_line_active := true |}).
  assert (Hlen' : hlen h' = hlen (history sh)).
  { pose proof (history_lines_length h'). pose proof (history_lines_length (history sh)).
    rewrite El in *. lia. }
  destruct (history_next_ref h' Hh') as (r2 & h'' & En & Hh'' & Rn).
  cbn [ref_step] in Rn. rewrite history_lines_length in Rn.
  rewrite (proj2 (Nat.leb_le _ _)) in Rn by lia. injection Rn as Er2 El2 Ec2. subst r2.
  destruct (replace_buffer_with_spec (set_history sh1 h'') cur Lb1 Hcl) as (buf2 & Er2 & Lb2 & Fb2).
  exists last, sh1, (concat (repeat erase_last_char (slen sh)) ++ flat_map echo_byte last).
  do 2 eexists.
  split; [exact Elast|].
  split.
  { unfold handle_history_navigation. rewrite (proj2 (Nat.eqb_neq _ _)) by lia.
    rewrite Hc, Nat.leb_refl, Ha. cbn [andb negb]. rewrite Esave.
    cbn [history set_saved]. rewrite Ep. unfold replace_with_owned. rewrite Eo2, Ao2, Er1.
    reflexivity. }
  split; [exact Fb1|]. split; [reflexivity|].
  split.
  { unfold handle_history_navigation, sh1. cbn [history saved_line_active].
    rewrite (proj2 (Nat.eqb_neq _ _)) by lia. rewrite (proj2 (Nat.leb_gt _ _)) by lia.
    cbn [andb history]. rewrite En. unfold restore_saved_line.
    cbn [saved_line_active saved_line set_history].
    rewrite Ao, Eo, Ao. unfold sh1 in Er2. rewrite Er2. reflexivity. }
  cbn [slen sbuffer set_history set_saved saved_line_active history].
  split; [exact Fb2|]. split; [reflexivity|]. split; [reflexivity|].
  split; [rewrite El, El2; reflexivity|]. split; [reflexivity|].
  destruct Hh'' as (Hl'' & He'' & Hhd'' & Hn'' & _). destruct Io as [Io1 Io2'].
  split; [exact Lb2|]. split; [exact Hcl|]. split.
  - split; [exact Hl''|]. split; [exact He''|]. split; [exact Hhd''|]. split; [exact Hn''|].
    cbn. lia.
  - split; [exact Io1|]. cbn. lia.
Qed.

(** ** Witnesses of the further properties *)

Lemma init_pit_programs_witness :
  exists ws st', init_pit time_boot 100 = Some (ws, st') /\ HZ st' = 100 /\
    pit_reload (pit_run pit_reset ws) = 11931.
Proof.
  destruct (proj2 (init_pit_programs time_boot 100 pit_reset) ltac:(lia))
    as (ws & st' & E & Hz & _ & _ & _ & _ & Hr).
  exists ws, st'. split; [exact E|]. split; [exact Hz|]. rewrite Hr. reflexivity.
Defined.

Lemma align_up_both_witness :
  exists r, align_up 0x1234 = Some r /\ r mod FRAME_SIZE = 0 /\ 0x1234 <= r < 0x1234 + FRAME_SIZE.
Proof.
  destruct (align_up_both 0x1234 ltac:(unfold is_u64, U64_MAX; lia)) as [H _].
  apply H. unfold FRAME_SIZE, U64_MAX. lia.
Defined.


Lemma map_page_installs_witness :
  exists s', map_page list_allocate_frame mapper_example (state_example [0x2000; 0x3000; 0x4000])
               0x5000 0x5000 3 = Some s' /\
    exists T, table_at (mem s') (pml4_phys mapper_example) (tup 0x5000) = Some T /\
      mem s' T (pt_index 0x5000) = Z.lor (Z.land 0x5000 ADDRESS_MASK) (Z.land 3 (not64 ADDRESS_MASK)).
Proof.
  destruct (map_page list_allocate_frame mapper_example (state_example [0x2000; 0x3000; 0x4000])
              0x5000 0x5000 3) as [s'|] eqn:E; [|vm_compute in E; discriminate].
  destruct (map_page_installs list_allocate_frame mapper_example
              (state_example [0x2000; 0x3000; 0x4000]) s' 0x5000 0x5000 3) as (_ & _ & H).
  - apply zero_mem_tree.
  - apply list_fresh.
    + repeat constructor; simpl; intuition discriminate.
    + simpl. intros f [<- | [<- | [<- | []]]]; cbn; split; try lia; discriminate.
  - exact E.
  - exists s'. split; [reflexivity|]. apply H.
    intros T HT. vm_compute in HT. discriminate.
Defined.

Lemma mapper_new_empty_witness :
  exists m' mp, Mapper_new (fun _ _ => 7) 0x1000 0 = Some (m', mp) /\
    pml4_phys mp = 0x1000 /\ phys_offset mp = 0.
Proof.
  destruct (proj2 (mapper_new_empty list_allocate_frame (fun _ _ => 7) 0x1000 0)
              ltac:(unfold U64_MAX; lia)) as (m' & mp & E & H1 & H2 & _).
  exists m', mp. auto.
Defined.

Lemma interrupts_init_idt_witness :
  exists idt limit, interrupts_init 0x08 handlers_example = Some (idt, remap_pic, limit) /\
    limit = 4095 /\ length idt = 256%nat.
Proof.
  destruct (interrupts_init_idt 0x08 handlers_example) as (idt & limit & E & L & Hl & _);
    try (unfold is_u64, U64_MAX; simpl; lia).
  exists idt, limit. split; [exact E|]. split; [unfold IDT_LEN in Hl; simpl in Hl; lia|exact L].
Defined.

Lemma int_to_str_parse_roundtrip_witness :
  exists out, int_to_str_buf (-42) (repeat 0 32) = Some (Ok out) /\
    parse_int_from_str out = Some (Ok (-42)).
Proof.
  destruct (int_to_str_parse_roundtrip (-42) (repeat 0 32)) as (out & E & P).
  - unfold I64_MIN, I64_MAX. lia.
  - simpl. lia.
  - exists out. split; [exact E|]. rewrite P. reflexivity.
Defined.

Lemma fixed_string_push_str_witness :
  exists r fs', push_str 4 (FixedString_new 4) [104; 105; 33; 33; 33] = Some (r, fs') /\
    as_str fs' = [104; 105; 33; 33] /\ r = Err NoCapacity.
Proof.
  destruct (fixed_string_push_str 4 (FixedString_new 4) [104; 105; 33; 33; 33])
    as (r & fs' & E & _ & A & R).
  - split; [reflexivity|simpl; lia].
  - exists r, fs'. split; [exact E|]. split; [rewrite A; reflexivity|rewrite R; reflexivity].
Defined.

Lemma shell_history_up_down_witness :
  exists sh1 out1 sh2 out2,
    handle_history_navigation shell_example Up = Some (sh1, out1) /\
    firstn (slen sh1) (sbuffer sh1) = [108; 115] /\
    handle_history_navigation sh1 Down = Some (sh2, out2) /\
    firstn (slen sh2) (sbuffer sh2) = [97; 98].
Proof.
  assert (Hh : hist_inv history_example).
  { destruct (run_history_ref [HPush [108; 115]] InputHistory_new hist_inv_new)
      as (outs & h' & E & Hi & _).
    unfold history_example. rewrite E. exact Hi. }
  destruct (shell_history_up_down shell_example)
    as (last & sh1 & out1 & sh2 & out2 & El & E1 & F1 & _ & E2 & F2 & _).
  - split; [reflexivity|]. split; [cbn; unfold INPUT_BUFFER_LEN; lia|]. split; [exact Hh|].
    split; [apply repeat_length|simpl; lia].
  - vm_compute. lia.
  - vm_compute. reflexivity.
  - reflexivity.
  - repeat constructor; lia.
  - exists sh1, out1, sh2, out2. split; [exact E1|]. split; [|split; [exact E2|exact F2]].
    rewrite F1. vm_compute in El. injection El as <-. reflexivity.
Defined.
